(** * go-graphkb: ingestion client, command line and web client

    A shallow embedding of
    - [internal/client/transaction.go] (the retry helper and
      [Transaction.Commit]),
    - the command-line entry point ([listen], [queryFunc]),
    - the web client's [postQuery],
    followed by the properties the specification states about them.

    Part I holds the definitions, Part II the theorems. *)

From Stdlib Require Import QArith Qround Qabs.
From stdpp Require Import gmap strings list pretty.

Open Scope Z_scope.

(* ===================================================================== *)
(** * Part I: definitions                                                 *)
(* ===================================================================== *)

(** ** Go runtime values shared by the modules *)

(** Go's [int], [int64] and [time.Duration] are 64-bit two's complement
    integers; arithmetic on them wraps around. *)
Definition wrap64 (z : Z) : Z := (z + 2 ^ 63) mod 2 ^ 64 - 2 ^ 63.

(** [time.Duration] counts nanoseconds. *)
Definition Nanosecond : Z := 1.
Definition Microsecond : Z := 1000 * Nanosecond.
Definition Millisecond : Z := 1000 * Microsecond.
Definition Second : Z := 1000 * Millisecond.

(** A Go [error] value of the ingestion client.  [E] is the type of the
    errors the graph API client hands back, [A] the type of the values a
    message is formatted with.  [Errorf format args cause] stands for
    [fmt.Errorf(format, args..., cause)]: the message is kept in its
    unformatted form, so that the error that caused it can be read back. *)
#[warnings="-register-all"]
Inductive error (E A : Type) : Type :=
| ClientError (e : E)
| Errorf (format : string) (args : list A) (cause : option (error E A)).
Arguments ClientError {E A} e.
Arguments Errorf {E A} format args cause.

(** The line feed that ends a printed line. *)
Definition LF : string := String (Ascii.ascii_of_nat 10) "".

(** [math.Pow] works on [float64].  A finite float is a rational number,
    so the library function is taken as a function on [Q]; what the
    theorems need of its accuracy is stated where it is used. *)
Class FloatMath := { math_Pow : Q -> Q -> Q }.

(** Conversion of a float to [int] truncates toward zero. *)
Definition int_of_float (x : Q) : Z := wrap64 (Z.quot (Qnum x) (Z.pos (Qden x))).

(** Conversion of an [int] to [float64] (exact below 2^53). *)
Definition float64_of_int (n : Z) : Q := inject_Z n.

(* --------------------------------------------------------------------- *)
(** ** The retry helper (transaction.go, lines 51-68)                     *)
(* --------------------------------------------------------------------- *)

Module Retry.

(** What one run of the helper does, in order. *)
Inductive Event (E : Type) : Type :=
| EvCall (err : option E)      (* fn() was called and returned err *)
| EvPrintf (s : string)        (* fmt.Printf *)
| EvSleep (d : Z).             (* time.Sleep(d), d in nanoseconds *)
Arguments EvCall {E} err.
Arguments EvPrintf {E} s.
Arguments EvSleep {E} d.

(** Line 57:
    [time.Duration(int(math.Pow(1.01, float64(trials)))*15) * time.Second] *)
Definition backoffTime `{FloatMath} (trials : Z) : Z :=
  wrap64 (wrap64 (int_of_float (math_Pow (101 # 100) (float64_of_int trials)) * 15) * Second).

(** Line 65: [fmt.Errorf("Too many retries... Aborting")] *)
Definition TooManyRetries {E A : Type} : error E A :=
  Errorf "Too many retries... Aborting" [] None.

(** How one turn of the [for] loop ends. *)
Inductive Iter (E A : Type) : Type :=
| Continue (trials : Z)                 (* go round again *)
| Return (err : option (error E A)).    (* the helper returns err *)
Arguments Continue {E A} trials.
Arguments Return {E A} err.

(** One turn of the loop, lines 55-66.  [fn] is the closure that is
    retried; it acts on the state [St] of whatever it talks to. *)
Definition iteration `{FloatMath} {E A St : Type}
    (fn : St -> option E * St) (maxRetries : Z) (trials : Z) (st : St)
  : Iter E A * St * list (Event E) :=
  let '(err, st) := fn st in
  match err with
  | Some e =>
      let backoff := backoffTime trials in
      let evs :=
        [ EvCall (Some e);
          EvPrintf ("Sleeping for " +:+ pretty (Z.quot backoff Second) +:+ " seconds" +:+ LF);
          EvSleep backoff ] in
      let trials := wrap64 (trials + 1) in
      if trials =? maxRetries
      then (Return (Some TooManyRetries), st, evs)
      else (Continue trials, st, evs)
  | None => (Return None, st, [EvCall None])
  end.

(** The [for] loop, from a given value of [trials].  The loop has no
    bound of its own, so the model takes fuel: [None] means that the fuel
    ran out before the helper returned. *)
Fixpoint loop `{FloatMath} {E A St : Type} (fuel : nat)
    (fn : St -> option E * St) (maxRetries : Z) (trials : Z) (st : St)
  : option (option (error E A) * St * list (Event E)) :=
  match fuel with
  | O => None
  | S fuel =>
      match iteration fn maxRetries trials st with
      | (Return err, st, evs) => Some (err, st, evs)
      | (Continue trials, st, evs) =>
          match loop fuel fn maxRetries trials st with
          | Some (err, st, evs') => Some (err, st, evs ++ evs')
          | None => None
          end
      end
  end.

(** [withRetryOnTooManyRequests(fn, maxRetries)]: [trials := 0], then the
    loop. *)
Definition withRetryOnTooManyRequests `{FloatMath} {E A St : Type} (fuel : nat)
    (fn : St -> option E * St) (maxRetries : Z) (st : St)
  : option (option (error E A) * St * list (Event E)) :=
  loop fuel fn maxRetries 0 st.

(** What the calls of [fn] returned in a run, in order; its length is the
    number of times [fn] was called. *)
Definition calls {E : Type} (evs : list (Event E)) : list (option E) :=
  omap (fun ev => match ev with EvCall err => Some err | _ => None end) evs.

(** The delays slept in a run, in order. *)
Definition sleeps {E : Type} (evs : list (Event E)) : list Z :=
  omap (fun ev => match ev with EvSleep d => Some d | _ => None end) evs.

(** A closure that fails whenever it is called. *)
Definition always_failing {E St : Type} (fn : St -> option E * St) : Prop :=
  forall st, (fn st).1 <> None.

(** What the theorems ask of [math.Pow]: [math.Pow(x, 0)] is exactly 1
    (IEEE 754), and for the exponents 1 to 69 the result is within a
    thousandth of the true power of 1.01 (a [float64] is closer by many
    orders of magnitude). *)
Definition pow_accurate `{FloatMath} : Prop :=
  (math_Pow (101 # 100) (float64_of_int 0) == 1)%Q /\
  forall n : Z, 1 <= n < 70 ->
    (Qabs (math_Pow (101 # 100) (float64_of_int n) - Qpower (101 # 100) n) <= 1 # 1000)%Q.

(** The delay the specification gives for a trial, in nanoseconds:
    1.01 ^ trials times 15 seconds. *)
Definition spec_backoff (trials : Z) : Q :=
  (Qpower (101 # 100) trials * inject_Z (15 * Second))%Q.

(** The true powers of 1.01 lie between 1.001 and 1.998 for the exponents
    that [pow_accurate] speaks of (checked by evaluation). *)
Definition pow_in_range (k : nat) : bool :=
  Qle_bool (1001 # 1000) (Qpower (101 # 100) (Z.of_nat k)) &&
  Qle_bool (Qpower (101 # 100) (Z.of_nat k)) (1998 # 1000).

(** Modelled from the spec: the error kinds of section 7 (the client's own
    error values are not part of the sources at hand). *)
Inductive ErrorKind : Type :=
| ConfigError | AuthError | ParseError | PlanError | SchemaViolation
| NotFound | Conflict | Overload | Timeout | Cancelled | StorageError
| Internal.

(** An exact [math.Pow] on the integer exponents the helper uses. *)
Definition exact_Pow : FloatMath :=
  {| math_Pow := fun x y => Qpower x (Qfloor y) |}.

(** A request that is always refused with the given kind of error; the
    state counts the requests received. *)
Definition refusing (k : ErrorKind) (st : nat) : option ErrorKind * nat :=
  (Some k, S st).

End Retry.

(* --------------------------------------------------------------------- *)
(** ** Transaction.Commit (transaction.go, lines 70-184)                  *)
(* --------------------------------------------------------------------- *)

Module Txn.
Import Retry.

(** The four lists of [knowledge.GraphUpdatesBulk], behind their getters. *)
Record GraphUpdatesBulk (Asset Relation : Type) : Type := {
  GetAssetUpserts : list Asset;
  GetAssetRemovals : list Asset;
  GetRelationUpserts : list Relation;
  GetRelationRemovals : list Relation
}.
Arguments GetAssetUpserts {Asset Relation} _.
Arguments GetAssetRemovals {Asset Relation} _.
Arguments GetRelationUpserts {Asset Relation} _.
Arguments GetRelationRemovals {Asset Relation} _.

(** What [Commit] uses of the packages [knowledge], [utils] and of the
    graph API client, none of which is part of the sources at hand: they
    are parameters of the model.  A method of the client acts on the
    state [Server] of the server it talks to and returns [None] for a
    [nil] error.  [GenerateGraphUpdatesBulk] receives the current graph
    as an option, [None] for a [nil] pointer. *)
Class Env : Type := {
  Asset : Type;
  Relation : Type;
  Graph : Type;
  SchemaGraph : Type;
  APIError : Type;
  Server : Type;
  NewGraph : Graph;
  ExtractSchema : Graph -> SchemaGraph;
  GenerateGraphUpdatesBulk : option Graph -> Graph -> GraphUpdatesBulk Asset Relation;
  ChunkSlice : forall {T : Type}, list T -> Z -> list (list T);
  UpdateSchema : SchemaGraph -> Server -> option APIError * Server;
  DeleteRelations : list Relation -> Server -> option APIError * Server;
  InsertAssets : list Asset -> Server -> option APIError * Server;
  DeleteAssets : list Asset -> Server -> option APIError * Server;
  InsertRelations : list Relation -> Server -> option APIError * Server
}.

(** A [*knowledge.Graph] is an address in a heap of graphs. *)
Abbreviation loc := positive.

(** The fields of [Transaction] that [Commit] reads or writes. *)
Record Transaction : Type := {
  currentGraph : loc;
  newGraph : loc;
  parallelization : Z;
  chunkSize : Z
}.

(** A future is the position of its job in the pool. *)
Abbreviation Future := nat.

(** The request a chunk closure sends, with the chunk it was built from
    (lines 107, 122, 147, 162). *)
Inductive Request `{Env} : Type :=
| ReqDeleteRelations (relations : list Relation)
| ReqInsertAssets (assets : list Asset)
| ReqDeleteAssets (assets : list Asset)
| ReqInsertRelations (relations : list Relation).

(** A value an error message is formatted with. *)
Inductive Arg `{Env} : Type :=
| ArgRelations (relations : list Relation)
| ArgAssets (assets : list Asset).

(** The Go [error] values of this package. *)
Abbreviation Error := (error APIError Arg).

(** The calls on the progress bar. *)
Inductive Progress : Type :=
| PbNew (total : Z)
| PbStart
| PbAdd (n : Z)
| PbFinish.

(** What is printed or shown, and the life of the worker pool. *)
Inductive Output : Type :=
| OutPrintln (s : string)
| OutProgress (p : Progress)
| OutNewWorkerPool (size : Z)
| OutPoolClose.

(** The history of a run, kept for the statements only.  The newest event
    is at the head of the list. *)
Inductive Event `{Env} : Type :=
| EvOut (o : Output)
| EvUpdateSchema (sg : SchemaGraph) (err : option APIError)
| EvExec (f : Future) (req : Request)        (* Commit: f := p.Exec(...) *)
| EvStart (f : Future)                       (* a worker takes job f *)
| EvRetry (f : Future) (ev : Retry.Event APIError) (* inside job f *)
| EvDone (f : Future) (err : option Error)   (* job f returned err *)
| EvRecv (f : Future) (err : option Error).  (* Commit: err := <-f *)

(** The thread that runs [Commit]: what it does next, and how it goes on
    with the answer. *)
Inductive prog `{Env} : Type :=
| Ret (g : option loc) (err : option Error) (cgt : Transaction) (h : gmap loc Graph)
| Panic
| Emit (o : Output) (k : prog)
| CallUpdateSchema (sg : SchemaGraph) (k : option APIError -> prog)
| Exec (req : Request) (k : Future -> prog)
| Recv (f : Future) (k : option Error -> prog).

Definition Println `{Env} (s : string) (k : prog) : prog := Emit (OutPrintln s) k.

(** A [return] after lines 86 and 90: the deferred [p.Close()] and
    [progress.Finish()] run, last deferred first. *)
Definition return_deferred `{Env} (g : option loc) (err : option Error)
    (cgt : Transaction) (h : gmap loc Graph) : prog :=
  Emit OutPoolClose (Emit (OutProgress PbFinish) (Ret g err cgt h)).

(** The dispatch loops (lines 101-114, 116-129, 141-154, 156-169): for
    each chunk, [f := p.Exec(closure)] and [futures = append(futures, f)]. *)
Fixpoint range_exec `{Env} {T : Type} (mk : list T -> Request)
    (chunks : list (list T)) (futures : list Future)
    (k : list Future -> prog) : prog :=
  match chunks with
  | [] => k futures
  | c :: chunks => Exec (mk c) (fun f => range_exec mk chunks (futures ++ [f]) k)
  end.

(** The drain loops (lines 132-137, 172-177): [err := <-f], and return at
    the first error. *)
Fixpoint range_recv `{Env} (cgt : Transaction) (h : gmap loc Graph)
    (futures : list Future) (k : prog) : prog :=
  match futures with
  | [] => k
  | f :: futures =>
      Recv f (fun err =>
        match err with
        | Some e => return_deferred None (Some e) cgt h
        | None => range_recv cgt h futures k
        end)
  end.

(** Lines 179-183. *)
Definition finish `{Env} (cgt : Transaction) (h : gmap loc Graph) : prog :=
  Println "Finished uploading the graph..." (
  let g := newGraph cgt in
  let l := fresh (dom h) in
  return_deferred (Some g) None
    {| currentGraph := currentGraph cgt; newGraph := l;
       parallelization := parallelization cgt; chunkSize := chunkSize cgt |}
    (<[l := NewGraph]> h)).

(** Lines 139-177: the second phase. *)
Definition phaseB `{Env} (cgt : Transaction) (h : gmap loc Graph)
    (assetRemovalsChunks : list (list Asset))
    (relationInsertionChunks : list (list Relation)) : prog :=
  let futures := [] in
  range_exec ReqDeleteAssets assetRemovalsChunks futures (fun futures =>
  range_exec ReqInsertRelations relationInsertionChunks futures (fun futures =>
  range_recv cgt h futures (
  finish cgt h))).

(** Lines 92-137: the first phase, then the second. *)
Definition phaseA `{Env} (cgt : Transaction) (h : gmap loc Graph)
    (relationRemovalsChunks relationInsertionChunks : list (list Relation))
    (assetRemovalsChunks assetInsertionChunks : list (list Asset)) : prog :=
  let futures := [] in
  range_exec ReqDeleteRelations relationRemovalsChunks futures (fun futures =>
  range_exec ReqInsertAssets assetInsertionChunks futures (fun futures =>
  range_recv cgt h futures (
  phaseB cgt h assetRemovalsChunks relationInsertionChunks))).

(** Line 76. *)
Definition schema_error `{Env} (e : APIError) : Error :=
  Errorf "Unable to update the schema of the graph: %v" [] (Some (ClientError e)).

(** Line 81. *)
Definition bulk_of `{Env} (cgt : Transaction) (h : gmap loc Graph) (new : Graph)
  : GraphUpdatesBulk Asset Relation :=
  GenerateGraphUpdatesBulk (h !! currentGraph cgt) new.

(** Lines 81-99, after the schema was uploaded. *)
Definition upload `{Env} (cgt : Transaction) (h : gmap loc Graph) (new : Graph) : prog :=
  Println "Finished uploading the schema of the graph..." (
  let bulk := bulk_of cgt h new in
  Println "Start uploading the graph..." (
  Emit (OutProgress (PbNew (Z.of_nat (length (GetAssetRemovals bulk))
                            + Z.of_nat (length (GetAssetUpserts bulk))
                            + Z.of_nat (length (GetRelationRemovals bulk))
                            + Z.of_nat (length (GetRelationUpserts bulk))))) (
  Emit (OutProgress PbStart) (
  Emit (OutNewWorkerPool (parallelization cgt)) (
  let chunkSize := chunkSize cgt in
  let relationRemovalsChunks := ChunkSlice (GetRelationRemovals bulk) chunkSize in
  let relationInsertionChunks := ChunkSlice (GetRelationUpserts bulk) chunkSize in
  let assetRemovalsChunks := ChunkSlice (GetAssetRemovals bulk) chunkSize in
  let assetInsertionChunks := ChunkSlice (GetAssetUpserts bulk) chunkSize in
  phaseA cgt h relationRemovalsChunks relationInsertionChunks
               assetRemovalsChunks assetInsertionChunks))))).

(** [Commit], lines 71-184, on the transaction [cgt] and the heap [h] of
    graphs.  A [nil] or dangling [newGraph] makes [ExtractSchema] panic. *)
Definition Commit `{Env} (cgt : Transaction) (h : gmap loc Graph) : prog :=
  match h !! newGraph cgt with
  | None => Panic
  | Some new =>
      let sg := ExtractSchema new in
      Println "Start uploading the schema of the graph..." (
      CallUpdateSchema sg (fun err =>
        match err with
        | Some e => Ret None (Some (schema_error e)) cgt h
        | None => upload cgt h new
        end))
  end.

(** *** The chunk closures and the worker pool *)

(** The request function a chunk closure retries. *)
Definition perform `{Env} (req : Request) : Server -> option APIError * Server :=
  match req with
  | ReqDeleteRelations relations => DeleteRelations relations
  | ReqInsertAssets assets => InsertAssets assets
  | ReqDeleteAssets assets => DeleteAssets assets
  | ReqInsertRelations relations => InsertRelations relations
  end.

(** The error a chunk closure returns when the retry helper failed
    (lines 108, 123, 148, 163). *)
Definition chunk_error `{Env} (req : Request) (err : Error) : Error :=
  match req with
  | ReqDeleteRelations relations =>
      Errorf "Unable to remove the relations %v: %v" [ArgRelations relations] (Some err)
  | ReqInsertAssets assets =>
      Errorf "Unable to upsert the asset %v: %v" [ArgAssets assets] (Some err)
  | ReqDeleteAssets assets =>
      Errorf "Unable to remove the asset %v: %v" [ArgAssets assets] (Some err)
  | ReqInsertRelations relations =>
      Errorf "Unable to upsert the relation %v: %v" [ArgRelations relations] (Some err)
  end.

(** [len] of the chunk, for [progress.Add]. *)
Definition chunk_len `{Env} (req : Request) : Z :=
  match req with
  | ReqDeleteRelations relations | ReqInsertRelations relations => Z.of_nat (length relations)
  | ReqInsertAssets assets | ReqDeleteAssets assets => Z.of_nat (length assets)
  end.

(** Where a submitted closure stands. *)
Inductive Status `{Env} : Type :=
| Queued                          (* submitted, no worker has taken it *)
| Running (trials : Z)            (* in the retry loop, at this value of trials *)
| Done (err : option Error).      (* returned; err is what the future delivers *)

Record Job `{Env} : Type := { job_req : Request; job_status : Status }.

(** The job of a closure that was just submitted. *)
Definition queued `{Env} (req : Request) : Job :=
  {| job_req := req; job_status := Queued |}.

(** Modelled from the spec: [utils.WorkerPool] (worker pool with
    futures, bounded by [parallelization]; each submitted task returns a
    one-shot completion handle carrying its error; within a phase the
    order in which chunks are applied is unspecified).  The pool is the
    list of the closures submitted so far.  At most [parallelization] of
    them run at a time; which queued closure a free worker takes, and
    which running closure moves next, is up to the scheduler.  Submitting
    never blocks in the model: a pool that makes [Exec] wait has fewer
    runs, not more. *)
Record Config `{Env} : Type := {
  main : prog;
  pool : list Job;
  server : Server;
  trace : list Event
}.

(** The thread the scheduler lets move. *)
Inductive Choice : Type :=
| SMain                  (* Commit performs its next statement *)
| SStart (f : Future)    (* a free worker takes the queued job f *)
| SWork (f : Future).    (* job f goes through one turn of its retry loop *)

(** Statements that neither wait nor ask anything are performed at once. *)
Fixpoint silent `{Env} (p : prog) : list Event * prog :=
  match p with
  | Emit o k => let '(evs, p) := silent k in (EvOut o :: evs, p)
  | _ => ([], p)
  end.

(** Go on with [p] after the events [evs] (oldest first). *)
Definition continue `{Env} (c : Config) (evs : list Event) (p : prog)
    (jobs : list Job) (srv : Server) : Config :=
  let '(evs', p) := silent p in
  {| main := p; pool := jobs; server := srv;
     trace := rev evs' ++ rev evs ++ trace c |}.

(** One statement of [Commit].  [<-f] waits until job [f] is done. *)
Definition step_main `{Env} (c : Config) : option Config :=
  match main c with
  | Ret _ _ _ _ | Panic => None
  | Emit o k => Some (continue c [EvOut o] k (pool c) (server c))
  | CallUpdateSchema sg k =>
      let '(err, srv) := UpdateSchema sg (server c) in
      Some (continue c [EvUpdateSchema sg err] (k err) (pool c) srv)
  | Exec req k =>
      let f := length (pool c) in
      Some (continue c [EvExec f req] (k f)
              (pool c ++ [queued req]) (server c))
  | Recv f k =>
      match pool c !! f with
      | Some {| job_req := _; job_status := Done err |} =>
          Some (continue c [EvRecv f err] (k err) (pool c) (server c))
      | _ => None
      end
  end.

(** The number of closures that are running. *)
Definition running `{Env} (jobs : list Job) : nat :=
  length (List.filter (fun j => match job_status j with Running _ => true | _ => false end) jobs).

(** A worker takes job [f], if there is a free worker
    ([utils.NewWorkerPool(cgt.parallelization)]). *)
Definition step_start `{Env} (size : Z) (f : Future) (c : Config) : option Config :=
  match pool c !! f with
  | Some {| job_req := req; job_status := Queued |} =>
      if Z.of_nat (running (pool c)) <? size
      then Some {| main := main c;
                   pool := <[f := {| job_req := req; job_status := Running 0 |}]> (pool c);
                   server := server c;
                   trace := EvStart f :: trace c |}
      else None
  | _ => None
  end.

(** One turn of the retry loop of job [f]:
    [withRetryOnTooManyRequests(func() error { return cgt.client.X(chunk) }, 10)],
    then the end of the closure when the helper returned. *)
Definition step_work `{FloatMath} `{Env} (f : Future) (c : Config) : option Config :=
  match pool c !! f with
  | Some {| job_req := req; job_status := Running trials |} =>
      let '(it, srv, evs) := iteration (A:=Arg) (perform req) 10 trials (server c) in
      let retried := rev (map (EvRetry f) evs) in
      let '(status, evs') :=
        match it with
        | Continue trials => (Running trials, [])
        | Return (Some err) =>
            let err := chunk_error req err in (Done (Some err), [EvDone f (Some err)])
        | Return None =>
            (Done None, [EvDone f None; EvOut (OutProgress (PbAdd (chunk_len req)))])
        end in
      Some {| main := main c;
              pool := <[f := {| job_req := req; job_status := status |}]> (pool c);
              server := srv;
              trace := evs' ++ retried ++ trace c |}
  | _ => None
  end.

Definition step `{FloatMath} `{Env} (size : Z) (ch : Choice) (c : Config) : option Config :=
  match ch with
  | SMain => step_main c
  | SStart f => step_start size f c
  | SWork f => step_work f c
  end.

(** A run under a schedule; [None] when the schedule asks for a move that
    is not possible. *)
Fixpoint run `{FloatMath} `{Env} (size : Z) (sched : list Choice) (c : Config) : option Config :=
  match sched with
  | [] => Some c
  | ch :: sched =>
      match step size ch c with
      | Some c => run size sched c
      | None => None
      end
  end.

(** [cgt.Commit()] is called, with the heap [h] and the server in state
    [srv]. *)
Definition initial `{Env} (cgt : Transaction) (h : gmap loc Graph) (srv : Server) : Config :=
  let '(evs, p) := silent (Commit cgt h) in
  {| main := p; pool := []; server := srv; trace := rev evs |}.

(** The runs of [cgt.Commit()]. *)
Definition commit_run `{FloatMath} `{Env} (cgt : Transaction) (h : gmap loc Graph)
    (srv : Server) (sched : list Choice) : option Config :=
  run (parallelization cgt) sched (initial cgt h srv).

(** *** What the statements speak of *)

Section Phases.
Context `{Env} (cgt : Transaction) (h : gmap loc Graph) (new : Graph).

(** The chunks of lines 96-99. *)
Definition relationRemovalsChunks : list (list Relation) :=
  ChunkSlice (GetRelationRemovals (bulk_of cgt h new)) (chunkSize cgt).
Definition relationInsertionChunks : list (list Relation) :=
  ChunkSlice (GetRelationUpserts (bulk_of cgt h new)) (chunkSize cgt).
Definition assetRemovalsChunks : list (list Asset) :=
  ChunkSlice (GetAssetRemovals (bulk_of cgt h new)) (chunkSize cgt).
Definition assetInsertionChunks : list (list Asset) :=
  ChunkSlice (GetAssetUpserts (bulk_of cgt h new)) (chunkSize cgt).

(** Phase A: the relation-removal chunks, then the asset-upsert chunks. *)
Definition phaseA_requests : list Request :=
  map ReqDeleteRelations relationRemovalsChunks ++ map ReqInsertAssets assetInsertionChunks.

(** Phase B: the asset-removal chunks, then the relation-upsert chunks. *)
Definition phaseB_requests : list Request :=
  map ReqDeleteAssets assetRemovalsChunks ++ map ReqInsertRelations relationInsertionChunks.

(** The transaction and the heap after a successful [Commit]. *)
Definition committed_txn : Transaction :=
  {| currentGraph := currentGraph cgt; newGraph := fresh (dom h);
     parallelization := parallelization cgt; chunkSize := chunkSize cgt |}.
Definition committed_heap : gmap loc Graph := <[fresh (dom h) := NewGraph]> h.

(** Where [Commit] stands, with what is left of the loop it is in. *)
Inductive Stage : Type :=
| StSchema
| StExecA1 (rest : list (list Relation)) (futures : list Future)
| StExecA2 (rest : list (list Asset)) (futures : list Future)
| StRecvA (rest : list Future)
| StExecB1 (rest : list (list Asset)) (futures : list Future)
| StExecB2 (rest : list (list Relation)) (futures : list Future)
| StRecvB (rest : list Future)
| StFailed (err : Error)
| StOk.

Definition contB2 (futures : list Future) : prog :=
  range_recv cgt h futures (finish cgt h).
Definition contB1 (futures : list Future) : prog :=
  range_exec ReqInsertRelations relationInsertionChunks futures contB2.
Definition contA2 (futures : list Future) : prog :=
  range_recv cgt h futures (phaseB cgt h assetRemovalsChunks relationInsertionChunks).
Definition contA1 (futures : list Future) : prog :=
  range_exec ReqInsertAssets assetInsertionChunks futures contA2.

(** The rest of [Commit] at a stage. *)
Definition stage_prog (st : Stage) : prog :=
  match st with
  | StSchema => Commit cgt h
  | StExecA1 rest futures => range_exec ReqDeleteRelations rest futures contA1
  | StExecA2 rest futures => range_exec ReqInsertAssets rest futures contA2
  | StRecvA rest => range_recv cgt h rest (phaseB cgt h assetRemovalsChunks relationInsertionChunks)
  | StExecB1 rest futures => range_exec ReqDeleteAssets rest futures contB1
  | StExecB2 rest futures => range_exec ReqInsertRelations rest futures contB2
  | StRecvB rest => range_recv cgt h rest (finish cgt h)
  | StFailed err => Ret None (Some err) cgt h
  | StOk => Ret (Some (newGraph cgt)) None committed_txn committed_heap
  end.

(** The futures below [n] were received with a [nil] error, from jobs
    that had returned [nil]. *)
Definition received (n : nat) (tr : list Event) : Prop :=
  forall f : Future, (f < n)%nat -> EvRecv f None ∈ tr /\ EvDone f None ∈ tr.

(** What holds of the requests submitted so far and of the history at a
    stage. *)
Definition stage_facts (st : Stage) (reqs : list Request) (tr : list Event) : Prop :=
  let nA := length phaseA_requests in
  match st with
  | StSchema => reqs = []
  | StExecA1 rest futures =>
      reqs ++ map ReqDeleteRelations rest ++ map ReqInsertAssets assetInsertionChunks
        = phaseA_requests /\
      futures = seq 0 (length reqs)
  | StExecA2 rest futures =>
      reqs ++ map ReqInsertAssets rest = phaseA_requests /\
      futures = seq 0 (length reqs)
  | StRecvA rest =>
      reqs = phaseA_requests /\
      exists n, (n <= nA)%nat /\ rest = seq n (nA - n) /\ received n tr
  | StExecB1 rest futures =>
      reqs ++ map ReqDeleteAssets rest ++ map ReqInsertRelations relationInsertionChunks
        = phaseA_requests ++ phaseB_requests /\
      (nA <= length reqs)%nat /\ received nA tr
  | StExecB2 rest futures =>
      reqs ++ map ReqInsertRelations rest = phaseA_requests ++ phaseB_requests /\
      (nA <= length reqs)%nat /\ received nA tr
  | StRecvB rest =>
      reqs = phaseA_requests ++ phaseB_requests /\ received nA tr
  | StFailed _ | StOk =>
      exists more, reqs ++ more = phaseA_requests ++ phaseB_requests
  end.

End Phases.

(** The program without the statements that are performed at once. *)
Definition norm `{Env} (p : prog) : prog := (silent p).2.

(** The requests of phase B. *)
Definition in_phaseB `{Env} (req : Request) : bool :=
  match req with
  | ReqDeleteAssets _ | ReqInsertRelations _ => true
  | ReqDeleteRelations _ | ReqInsertAssets _ => false
  end.

(** Every request of the list was submitted, its job returned [nil] and
    its future was received, in the history [tr]. *)
Definition drained `{Env} (reqs : list Request) (tr : list Event) : Prop :=
  forall (f : Future) (req : Request), reqs !! f = Some req ->
    EvExec f req ∈ tr /\ EvDone f None ∈ tr /\ EvRecv f None ∈ tr.

(** The barrier between the phases, on a history (newest event first):
    when a request of phase B is submitted, phase A is drained in the
    history before it. *)
Fixpoint barrier `{Env} (reqsA : list Request) (tr : list Event) : Prop :=
  match tr with
  | [] => True
  | ev :: tr =>
      match ev with
      | EvExec _ req => in_phaseB req = true -> drained reqsA tr
      | _ => True
      end /\ barrier reqsA tr
  end.

(** Events among which no request is submitted. *)
Definition quiet `{Env} (evs : list Event) : Prop :=
  forall (f : Future) (req : Request), EvExec f req ∉ evs.

(** A stage whose loop has a turn left, or at which [Commit] calls the
    server or has returned. *)
Definition ready `{Env} (st : Stage) : Prop :=
  match st with
  | StExecA1 [] _ | StExecA2 [] _ | StRecvA []
  | StExecB1 [] _ | StExecB2 [] _ | StRecvB [] => False
  | _ => True
  end.

(** The history agrees with the pool. *)
Definition logged `{Env} (jobs : list Job) (tr : list Event) : Prop :=
  (forall (f : Future) (req : Request),
     EvExec f req ∈ tr <-> job_req <$> jobs !! f = Some req) /\
  (forall (f : Future) (req : Request) (err : option Error),
     jobs !! f = Some {| job_req := req; job_status := Done err |} -> EvDone f err ∈ tr).

(** The invariant of the runs of [Commit]. *)
Definition Inv `{Env} (cgt : Transaction) (h : gmap loc Graph) (new : Graph)
    (c : Config) : Prop :=
  (exists st, main c = norm (stage_prog cgt h new st) /\
              stage_facts cgt h new st (map job_req (pool c)) (trace c)) /\
  logged (pool c) (trace c) /\
  barrier (phaseA_requests cgt h new) (trace c).


(** A schedule that lets the jobs of the list run one after the other,
    each from its start to its end when its first request is accepted. *)
Definition one_by_one (order : list Future) : list Choice :=
  concat (map (fun f => [SStart f; SWork f]) order).

(** A schedule for a whole [Commit] against a server that accepts every
    request: the schema, phase A with its jobs in the order [orderA],
    phase B with its jobs in the order [orderB]. *)
Definition whole_schedule (orderA orderB : list Future) : list Choice :=
  SMain :: repeat SMain (length orderA) ++ one_by_one orderA ++ repeat SMain (length orderA)
        ++ repeat SMain (length orderB) ++ one_by_one orderB ++ repeat SMain (length orderB).


End Txn.

(* --------------------------------------------------------------------- *)
(** ** A small instance of the collaborators, to run the model on         *)
(* --------------------------------------------------------------------- *)

Module Demo.
Import Retry Txn.

(** Modelled from the spec: the graph of section 3, a set of assets and a
    set of relations.  Assets are named by their key, relations by their
    two ends. *)
Record DemoGraph : Type := {
  demo_assets : list string;
  demo_relations : list (string * string)
}.

(** Modelled from the spec: the differ of section 4.1 takes set
    differences ([new \ current] for the upserts, [current \ new] for the
    removals); this is the difference of two lists. *)
Definition demo_diff {T : Type} `{EqDecision T} (l1 l2 : list T) : list T :=
  List.filter (fun x => bool_decide (x ∉ l2)) l1.

(** Modelled from the spec: chunks of a fixed size [n] (section 4.2). *)
Fixpoint demo_chunks {T : Type} (fuel : nat) (n : nat) (l : list T) : list (list T) :=
  match fuel, l with
  | S fuel, _ :: _ => take n l :: demo_chunks fuel n (drop n l)
  | _, _ => []
  end.

(** The collaborators, over a server that answers every request with
    [respond]. *)
Definition demo_env (St : Type) (respond : St -> option ErrorKind * St) : Env :=
  {| Asset := string;
     Relation := string * string;
     Graph := DemoGraph;
     SchemaGraph := unit;
     APIError := ErrorKind;
     Server := St;
     NewGraph := {| demo_assets := []; demo_relations := [] |};
     ExtractSchema := fun _ => tt;
     GenerateGraphUpdatesBulk := fun cur new =>
       let cur := default {| demo_assets := []; demo_relations := [] |} cur in
       {| GetAssetUpserts := demo_diff (demo_assets new) (demo_assets cur);
          GetAssetRemovals := demo_diff (demo_assets cur) (demo_assets new);
          GetRelationUpserts := demo_diff (demo_relations new) (demo_relations cur);
          GetRelationRemovals := demo_diff (demo_relations cur) (demo_relations new) |};
     ChunkSlice := fun T l size => demo_chunks (length l) (Z.to_nat size) l;
     UpdateSchema := fun _ => respond;
     DeleteRelations := fun _ => respond;
     InsertAssets := fun _ => respond;
     DeleteAssets := fun _ => respond;
     InsertRelations := fun _ => respond |}.

(** A server that accepts every request and counts them. *)
Definition accepting_env : Env := demo_env nat (fun n => (None, S n)).

(** A server that answers from a script, one entry per request, and
    accepts once the script is over. *)
Definition scripted_env : Env :=
  demo_env (list (option ErrorKind))
    (fun script => match script with [] => (None, []) | r :: script => (r, script) end).

(** A transaction from the graph a -> b to the graph a -> c, d. *)
Definition demo_txn : Transaction :=
  {| currentGraph := 1%positive; newGraph := 2%positive;
     parallelization := 2; chunkSize := 1 |}.
Definition demo_current : DemoGraph :=
  {| demo_assets := ["a"; "b"]; demo_relations := [("a", "b")] |}.
Definition demo_new : DemoGraph :=
  {| demo_assets := ["a"; "c"; "d"]; demo_relations := [("a", "c")] |}.
Definition demo_heap : gmap positive DemoGraph :=
  <[2%positive := demo_new]> (<[1%positive := demo_current]> ∅).

(** The schema is accepted, then the first chunk is refused ten times. *)
Definition demo_script : list (option ErrorKind) :=
  None :: repeat (Some Overload) 10.

(** The three chunks of phase A are submitted, the first job runs its ten
    turns, and [Commit] receives its future. *)
Definition demo_failing_schedule : list Choice :=
  repeat SMain 4 ++ SStart 0 :: repeat (SWork 0) 10 ++ [SMain].

(** What that run ends in. *)
Definition demo_failed_run : option (Config (H:=scripted_env)) :=
  Eval vm_compute in
    commit_run (H:=exact_Pow) (H0:=scripted_env) demo_txn demo_heap demo_script
      demo_failing_schedule.

(** What a whole run against the accepting server ends in. *)
Definition demo_success_run : option (Config (H:=accepting_env)) :=
  Eval vm_compute in
    commit_run (H:=exact_Pow) (H0:=accepting_env) demo_txn demo_heap 0%nat
      (whole_schedule [0; 1; 2]%nat [3; 4]%nat).

End Demo.

(* --------------------------------------------------------------------- *)
(** ** The command line (package main): listen and queryFunc              *)
(* --------------------------------------------------------------------- *)

Module Cli.

(** *** Configuration *)

(** A value of the configuration, as viper holds it after the YAML file
    and the environment were read. *)
Inductive ConfigValue : Type :=
| CInt (n : Z)
| CString (s : string).

(** What viper's casts need: the integer a string stands for (0 when it
    stands for none). *)
Class Cast : Type := { ParseInt : string -> Z }.

(** [viper.GetInt64(key)]: the zero value when the key is not set. *)
Definition viper_GetInt64 `{Cast} (cfg : gmap string ConfigValue) (key : string) : Z :=
  match cfg !! key with
  | Some (CInt n) => n
  | Some (CString s) => ParseInt s
  | None => 0
  end.

(** [viper.GetString(key)]: the empty string when the key is not set. *)
Definition viper_GetString (cfg : gmap string ConfigValue) (key : string) : string :=
  match cfg !! key with
  | Some (CString s) => s
  | Some (CInt n) => pretty n
  | None => ""
  end.

(** *** listen (part_000, lines 156-170) *)

(** How [listen] ends: [logrus.Fatal(err)] when the schema of the
    database cannot be initialised, else the call
    [server.StartServer(listenInterface, Database, Database, Database,
    Historizer, concurrency)]. *)
Inductive ListenOutcome (E : Type) : Type :=
| ListenFatal (err : E)
| StartServer (listenInterface : string) (concurrency : Z).
Arguments ListenFatal {E} err.
Arguments StartServer {E} listenInterface concurrency.

(** [listen], given the configuration and what
    [Database.InitializeSchema()] returns. *)
Definition listen `{Cast} {E : Type} (cfg : gmap string ConfigValue)
    (InitializeSchema : option E) : ListenOutcome E :=
  match InitializeSchema with
  | Some err => ListenFatal err
  | None =>
      (* Database.Start() *)
      let listenInterface := viper_GetString cfg "server_listen" in
      let concurrency := viper_GetInt64 cfg "concurrency" in
      let concurrency := if concurrency =? 0 then 32 else concurrency in
      StartServer listenInterface concurrency
  end.

(** The capacity of the query gate the server is started with. *)
Definition capacity {E : Type} (o : ListenOutcome E) : option Z :=
  match o with
  | StartServer _ concurrency => Some concurrency
  | ListenFatal _ => None
  end.

(** A cast for the examples: no string stands for an integer. *)
Definition no_parse : Cast := {| ParseInt := fun _ => 0 |}.

(** *** queryFunc (part_000, lines 186-217) *)

(** A [context.Context], as far as its deadline goes: the time left, in
    nanoseconds, when there is a deadline. *)
Record Context : Type := { timeout : option Z }.

Definition context_Background : Context := {| timeout := None |}.

(** [context.WithTimeout(parent, d)]: the earlier of the parent's
    deadline and [d] from now. *)
Definition context_WithTimeout (parent : Context) (d : Z) : Context :=
  {| timeout := Some (match timeout parent with
                      | Some p => Z.min p d
                      | None => d
                      end) |}.

(** [knowledge.QueryResult]'s statistics: two [time.Duration]. *)
Record Statistics : Type := { Parsing : Z; Execution : Z }.

(** Modelled from the spec: the cursor of section 4.4 ([HasMore()] and
    [Read(dest) -> error]; [Read] delivers the next result row as an
    ordered list of projected values).  A cursor is the list of what its
    reads will deliver, a row or an error; [HasMore()] holds while the
    list is not empty. *)
Record QueryResult (V E : Type) : Type := {
  Cursor : list (list V + E);
  Stats : Statistics
}.
Arguments Cursor {V E} _.
Arguments Stats {V E} _.

(** What [queryFunc] uses of package [knowledge] and of [fmt]: the
    querier, and the ["%v"] form of a value. *)
Class Querier : Type := {
  Value : Type;
  QueryError : Type;
  Query : Context -> string -> QueryError + QueryResult Value QueryError;
  Sprintf_v : Value -> string
}.

(** What a run of [queryFunc] does, in order. *)
Inductive QEvent `{Querier} : Type :=
| EvQuery (ctx : Context) (query : string)   (* q.Query(ctx, query) *)
| EvRead (ctx : Context)                     (* r.Cursor.Read(ctx, &m) *)
| EvPrint (s : string)                       (* fmt.Println, fmt.Printf *)
| EvCancel.                                  (* the deferred cancel() *)

(** How it ends. *)
Inductive Exit `{Querier} : Type :=
| Returned
| Fatal (err : QueryError)                   (* logrus.Fatal(err) *)
| IndexOutOfRange.                           (* args[0] on an empty args *)

(** [strings] joined by single spaces. *)
Fixpoint join_spaces (l : list string) : string :=
  match l with
  | [] => ""
  | [s] => s
  | s :: l => s +:+ " " +:+ join_spaces l
  end.

(** [fmt.Println(ldoc)] for a slice of strings. *)
Definition Println_strings (ldoc : list string) : string :=
  "[" +:+ join_spaces ldoc +:+ "]" +:+ LF.

(** [d.Microseconds()]: integer division of the nanoseconds by 1000. *)
Definition Microseconds (d : Z) : Z := Z.quot d 1000.

(** Rounding to the nearest integer, ties to even. *)
Definition round_half_even (x : Q) : Z :=
  let f := Qfloor x in
  match (x - inject_Z f ?= 1 # 2)%Q with
  | Lt => f
  | Gt => f + 1
  | Eq => if Z.even f then f else f + 1
  end.

(** The number of millionths that ["%f"] shows of a number. *)
Definition millionths (x : Q) : Z := round_half_even (x * inject_Z 1000000).

(** Six digits, with leading zeros. *)
Definition six_digits (n : Z) : string :=
  let s := pretty n in
  String.concat "" (repeat "0" (6 - String.length s)) +:+ s.

(** The verb ["%f"]: six digits after the point. *)
Definition Sprintf_f (x : Q) : string :=
  let n := millionths x in
  (if n <? 0 then "-" else "")
    +:+ pretty (Z.abs n / 1000000) +:+ "." +:+ six_digits (Z.abs n mod 1000000).

(** [float64(totalTime.Microseconds())/1000.0], as the rational it is
    (the quotient of two floats is the nearest float; for durations
    below 2^53 microseconds that changes none of the six digits shown). *)
Definition millis (totalTime : Z) : Q :=
  (float64_of_int (Microseconds totalTime) / inject_Z 1000)%Q.

(** Lines 214-216. *)
Definition summary (resultsCount : Z) (stats : Statistics) : string :=
  let totalTime := wrap64 (Parsing stats + Execution stats) in
  pretty resultsCount +:+ " results found in " +:+ Sprintf_f (millis totalTime) +:+ "ms" +:+ LF.

(** The loop of lines 198-212 over what is left of the cursor; it ends
    with the count, or with the error of a read. *)
Fixpoint read_rows `{Querier} (cursor : list (list Value + QueryError)) (resultsCount : Z)
  : list QEvent * (QueryError + Z) :=
  match cursor with
  | [] => ([], inr resultsCount)
  | inr err :: _ => ([EvRead context_Background], inl err)
  | inl doc :: cursor =>
      let ldoc := map Sprintf_v doc in
      let '(evs, res) := read_rows cursor (wrap64 (resultsCount + 1)) in
      (EvRead context_Background :: EvPrint (Println_strings ldoc) :: evs, res)
  end.

(** [queryFunc(cmd, args)]. *)
Definition queryFunc `{Querier} (args : list string) : list QEvent * Exit :=
  let ctx := context_WithTimeout context_Background (30 * Second) in
  match args !! 0%nat with
  | None => ([], IndexOutOfRange)
  | Some query =>
      match Query ctx query with
      | inl err => ([EvQuery ctx query], Fatal err)
      | inr r =>
          let resultsCount := 0 in
          match read_rows (Cursor r) resultsCount with
          | (evs, inl err) => (EvQuery ctx query :: evs, Fatal err)
          | (evs, inr resultsCount) =>
              (EvQuery ctx query :: evs ++ [EvPrint (summary resultsCount (Stats r)); EvCancel],
               Returned)
          end
      end
  end.

(** What is printed for the rows of a cursor that delivers them all. *)
Definition rows_printed `{Querier} (rows : list (list Value)) : list QEvent :=
  flat_map (fun doc => [EvRead context_Background;
                        EvPrint (Println_strings (map Sprintf_v doc))]) rows.


End Cli.

(* --------------------------------------------------------------------- *)
(** ** The web client: postQuery (part_001, lines 51-61)                  *)
(* --------------------------------------------------------------------- *)

Module Web.

(** The body of a response, as JavaScript sees it: a text, or the
    decoded [QueryResultSet] of type [R]. *)
Inductive Body (R : Type) : Type :=
| BodyText (s : string)
| BodyResult (r : R).
Arguments BodyText {R} s.
Arguments BodyResult {R} r.


Record Response (R : Type) : Type := { status : Z; data : Body R }.
Arguments status {R} _.
Arguments data {R} _.


(** What the network does with a POST: a response, or no response. *)
Inductive Exchange (R : Type) : Type :=
| Answered (res : Response R)
| NoAnswer (reason : string).
Arguments Answered {R} res.
Arguments NoAnswer {R} reason.

(** Why axios rejects. *)
Inductive AxiosError (R : Type) : Type :=
| BadStatus (res : Response R)
| NetworkError (reason : string).
Arguments BadStatus {R} res.
Arguments NetworkError {R} reason.


(** How a call of [postQuery] completes. *)
Inductive Completion (R : Type) : Type :=
| Returns (d : Body R)
| ThrowsError (message : string)       (* throw new Error(message) *)
| ThrowsAxios (err : AxiosError R).    (* the await rethrows the rejection *)
Arguments Returns {R} d.
Arguments ThrowsError {R} message.
Arguments ThrowsAxios {R} err.




End Web.


(* --------------------------------------------------------------------- *)
(** ** More fixtures for the command line                                 *)
(* --------------------------------------------------------------------- *)

Module CliDemo.
Import Cli.

(** A querier whose cursor delivers the row a, then fails, with one more
    row left unread. *)
Definition interrupted_querier : Querier :=
  {| Value := string;
     QueryError := string;
     Query := fun _ _ =>
       inr {| Cursor := [inl ["a"]; inr "connection lost"; inl ["b"]];
              Stats := {| Parsing := 1500000; Execution := 2250000 |} |};
     Sprintf_v := fun s => s |}.

(** The reads and the queries of a log, with their contexts. *)
Definition read_contexts `{Querier} (evs : list QEvent) : list Context :=
  omap (fun ev => match ev with EvRead ctx => Some ctx | _ => None end) evs.

Definition query_contexts `{Querier} (evs : list QEvent) : list (Context * string) :=
  omap (fun ev => match ev with EvQuery ctx q => Some (ctx, q) | _ => None end) evs.

(** The deferred [cancel()] ran. *)
Definition cancelled `{Querier} (evs : list QEvent) : bool :=
  existsb (fun ev => match ev with EvCancel => true | _ => false end) evs.

(** The lines printed. *)
Definition printed `{Querier} (evs : list QEvent) : list string :=
  omap (fun ev => match ev with EvPrint s => Some s | _ => None end) evs.

End CliDemo.


(* --------------------------------------------------------------------- *)
(** ** The web client: the four getters (part_001, lines 6-49)            *)
(* --------------------------------------------------------------------- *)

Module WebGet.
Import Web.

(** The [validateStatus] of axios when a request gives none:
    [status >= 200 && status < 300]. *)
Definition default_validateStatus (s : Z) : bool := (200 <=? s) && (s <? 300).

(** [axios.get(url)]: resolved with the response when its status is
    accepted, rejected if not, or when there is no response. *)
Definition axios_get {R : Type} (net : string -> Exchange R) (url : string)
  : AxiosError R + Response R :=
  match net url with
  | NoAnswer reason => inl (NetworkError reason)
  | Answered res =>
      if default_validateStatus (status res) then inr res else inl (BadStatus res)
  end.

(** What follows the [await] in each of the four getters (lines 9-13,
    19-23, 29-33 and 45-48): the rejection is rethrown; a status other
    than 200 throws an [Error] whose message is [Status code (] followed
    by the status; else the body is returned. *)
Definition checked {R : Type} (res : AxiosError R + Response R) : Completion R :=
  match res with
  | inl err => ThrowsAxios err
  | inr res =>
      if negb (status res =? 200)
      then ThrowsError ("Status code (" +:+ pretty (status res))
      else Returns (data res)
  end.

(** [getSources()]: the URL requested, and how the call completes. *)
Definition getSources {R : Type} (net : string -> Exchange R) : string * Completion R :=
  let url := "/api/sources" in
  (url, checked (axios_get net url)).

(** [getDatabaseDetails()]. *)
Definition getDatabaseDetails {R : Type} (net : string -> Exchange R)
  : string * Completion R :=
  let url := "/api/database" in
  (url, checked (axios_get net url)).

(** [a.join(sep)] for an array of strings. *)
Definition join (sep : string) (a : list string) : string := String.concat sep a.

(** [getSourceGraph(sourceNames)]. *)
Definition getSourceGraph {R : Type} (net : string -> Exchange R)
    (sourceNames : list string) : string * Completion R :=
  let url := "/api/schema?sources=" +:+ join "," sourceNames in
  (url, checked (axios_get net url)).

(** *** encodeURI *)

(** A string is taken as the UTF-8 bytes of the JavaScript string.
    [encodeURI] keeps the letters, the digits and the characters
    [; , / ? : @ & = + $ - _ . ! ~ * ' ( ) #], and writes every other
    byte as a percent sign and two upper-case hexadecimal digits (it
    throws on a lone surrogate, which has no UTF-8 form). *)
Definition is_alpha (c : Ascii.ascii) : bool :=
  let n := Z.of_nat (Ascii.nat_of_ascii c) in
  ((65 <=? n) && (n <=? 90)) || ((97 <=? n) && (n <=? 122)).

Definition is_digit (c : Ascii.ascii) : bool :=
  let n := Z.of_nat (Ascii.nat_of_ascii c) in (48 <=? n) && (n <=? 57).

Definition uri_marks : list Ascii.ascii :=
  String.list_ascii_of_string ";,/?:@&=+$-_.!~*'()#".

Definition unescaped (c : Ascii.ascii) : bool :=
  is_alpha c || is_digit c || existsb (Ascii.eqb c) uri_marks.

Definition hex_digit (n : nat) : Ascii.ascii :=
  nth n (String.list_ascii_of_string "0123456789ABCDEF") (Ascii.ascii_of_nat 48).

Definition percent_encoded (c : Ascii.ascii) : string :=
  let n := Ascii.nat_of_ascii c in
  String (Ascii.ascii_of_nat 37) (String (hex_digit (n / 16)) (String (hex_digit (n mod 16)) EmptyString)).

Fixpoint encodeURI (s : string) : string :=
  match s with
  | EmptyString => EmptyString
  | String c s =>
      (if unescaped c then String c EmptyString else percent_encoded c) +:+ encodeURI s
  end.

(** [searchAssets(query, from = 0, size = 20)]; an argument that is not
    given is [None], a number that is given is an integer (which a
    template literal writes in decimal). *)
Definition searchAssets {R : Type} (net : string -> Exchange R) (query : string)
    (from size : option Z) : string * Completion R :=
  let from := default 0 from in
  let size := default 20 size in
  let encodedQuery := encodeURI query in
  let url := "/search/assets?q=" +:+ encodedQuery +:+ "&from=" +:+ pretty from
               +:+ "&size=" +:+ pretty size in
  (url, checked (axios_get net url)).

(** How a GET followed by the status check completes. *)
Definition get_outcome {R : Type} (net : string -> Exchange R) (call : string * Completion R) : Prop :=
  let '(url, c) := call in
  (forall d, c = Returns d <->
     exists res, net url = Answered res /\ status res = 200 /\ data res = d) /\
  (forall message, c = ThrowsError message <->
     exists res, net url = Answered res /\ 200 < status res < 300 /\
                 message = "Status code (" +:+ pretty (status res)) /\
  (forall err, c = ThrowsAxios err <->
     (exists reason, net url = NoAnswer reason /\ err = NetworkError reason) \/
     (exists res, net url = Answered res /\ (status res < 200 \/ 300 <= status res) /\
                  err = BadStatus res)).

(** A server for the examples: it knows /api/sources, answers 204 to
    /api/database, and has nothing else. *)
Definition demo_get (url : string) : Exchange (list string) :=
  if String.eqb url "/api/sources"
  then Answered {| status := 200; data := BodyResult ["inventory"; "dns"] |}
  else if String.eqb url "/api/database"
  then Answered {| status := 204; data := BodyText "" |}
  else Answered {| status := 404; data := BodyText "404 page not found" |}.

End WebGet.


(* --------------------------------------------------------------------- *)
(** ** Transaction.Commit: what a history tells of the jobs               *)
(* --------------------------------------------------------------------- *)

Module TxnLog.
Import Retry Txn.

(** What the server answered to the requests of job [f], oldest first:
    one entry for each call of the closure that
    [withRetryOnTooManyRequests] retries. *)
Definition attempts `{Env} (f : Future) (tr : list Event) : list (option APIError) :=
  rev (omap (fun ev => match ev with
                       | EvRetry f' (EvCall err) => if decide (f' = f) then Some err else None
                       | _ => None
                       end) tr).

(** The events that speak of the calls or of the return of job [f]. *)
Definition concerns `{Env} (f : Future) (ev : Event) : Prop :=
  match ev with
  | EvRetry f' (EvCall _) | EvDone f' _ => f' = f
  | _ => False
  end.

(** The events of the thread that runs [Commit]. *)
Definition from_main `{Env} (ev : Event) : Prop :=
  match ev with
  | EvOut _ | EvUpdateSchema _ _ | EvExec _ _ | EvRecv _ _ => True
  | _ => False
  end.

(** The history of a job agrees with its status. *)
Definition job_log `{Env} (tr : list Event) (f : Future) (j : Job) : Prop :=
  match job_status j with
  | Queued => attempts f tr = [] /\ (forall err, EvDone f err ∉ tr)
  | Running trials =>
      0 <= trials < 10 /\ (forall err, EvDone f err ∉ tr) /\
      exists es, attempts f tr = map Some es /\ Z.of_nat (length es) = trials
  | Done None =>
      EvDone f None ∈ tr /\ (forall err, EvDone f err ∈ tr -> err = None) /\
      exists es, attempts f tr = map Some es ++ [None] /\ (length es < 10)%nat
  | Done (Some e) =>
      e = chunk_error (job_req j) TooManyRetries /\
      EvDone f (Some e) ∈ tr /\ (forall err, EvDone f err ∈ tr -> err = Some e) /\
      exists es, attempts f tr = map Some es /\ length es = 10%nat
  end.

(** The history agrees with every job of the pool, speaks of no other
    job, and a future delivers what its job returned. *)
Definition pool_log `{Env} (jobs : list Job) (tr : list Event) : Prop :=
  (forall f j, jobs !! f = Some j -> job_log tr f j) /\
  (forall f, (length jobs <= f)%nat ->
     attempts f tr = [] /\ forall err, EvDone f err ∉ tr) /\
  (forall f err, EvRecv f err ∈ tr -> EvDone f err ∈ tr).

Section Stages.
Context `{Env} (cgt : Transaction) (h : gmap loc Graph) (new : Graph).

(** How [Commit] came to return the error [err]: from the upload of the
    schema, or from the future [f], received after the futures before it
    had delivered [nil], in the first drain loop or in the second. *)
Definition failed_at (err : Error) (reqs : list Request) (tr : list Event) : Prop :=
  let reqsA := phaseA_requests cgt h new in
  let reqsB := phaseB_requests cgt h new in
  (reqs = [] /\
   exists e, err = schema_error e /\ EvUpdateSchema (ExtractSchema new) (Some e) ∈ tr) \/
  (exists f : Future, EvRecv f (Some err) ∈ tr /\ received f tr /\
     (((f < length reqsA)%nat /\ reqs = reqsA) \/
      ((length reqsA <= f < length reqsA + length reqsB)%nat /\ reqs = reqsA ++ reqsB))).

(** What holds of the requests submitted so far and of the history at a
    stage, with the futures that each loop holds. *)
Definition stage_log (st : Stage) (reqs : list Request) (tr : list Event) : Prop :=
  let reqsA := phaseA_requests cgt h new in
  let reqsB := phaseB_requests cgt h new in
  let nA := length reqsA in
  let nB := length reqsB in
  match st with
  | StSchema => reqs = []
  | StExecA1 rest futures =>
      reqs ++ map ReqDeleteRelations rest
           ++ map ReqInsertAssets (assetInsertionChunks cgt h new) = reqsA /\
      futures = seq 0 (length reqs)
  | StExecA2 rest futures =>
      reqs ++ map ReqInsertAssets rest = reqsA /\
      futures = seq 0 (length reqs)
  | StRecvA rest =>
      reqs = reqsA /\
      exists n, (n <= nA)%nat /\ rest = seq n (nA - n) /\ received n tr
  | StExecB1 rest futures =>
      reqs ++ map ReqDeleteAssets rest
           ++ map ReqInsertRelations (relationInsertionChunks cgt h new) = reqsA ++ reqsB /\
      (nA <= length reqs)%nat /\ futures = seq nA (length reqs - nA) /\ received nA tr
  | StExecB2 rest futures =>
      reqs ++ map ReqInsertRelations rest = reqsA ++ reqsB /\
      (nA <= length reqs)%nat /\ futures = seq nA (length reqs - nA) /\ received nA tr
  | StRecvB rest =>
      reqs = reqsA ++ reqsB /\
      exists n, (nA <= n <= nA + nB)%nat /\ rest = seq n (nA + nB - n) /\ received n tr
  | StFailed err => failed_at err reqs tr
  | StOk => reqs = reqsA ++ reqsB /\ received (nA + nB) tr
  end.

(** [Commit] is at a stage, and the pool and the history are as the stage
    has them. *)
Definition staged (c : Config) : Prop :=
  exists st, main c = norm (stage_prog cgt h new st) /\
             stage_log st (map job_req (pool c)) (trace c).

(** The total the progress bar is created with (line 85). *)
Definition bulk_total : Z :=
  let bulk := bulk_of cgt h new in
  Z.of_nat (length (GetAssetRemovals bulk)) + Z.of_nat (length (GetAssetUpserts bulk))
  + Z.of_nat (length (GetRelationRemovals bulk)) + Z.of_nat (length (GetRelationUpserts bulk)).

(** [ChunkSlice] has cut each of the four lists into consecutive
    pieces. *)
Definition chunks_partition : Prop :=
  let bulk := bulk_of cgt h new in
  concat (relationRemovalsChunks cgt h new) = GetRelationRemovals bulk /\
  concat (assetInsertionChunks cgt h new) = GetAssetUpserts bulk /\
  concat (assetRemovalsChunks cgt h new) = GetAssetRemovals bulk /\
  concat (relationInsertionChunks cgt h new) = GetRelationUpserts bulk.

End Stages.

(** *** The progress bar *)

(** A program that never calls [progress.Add] itself. *)
Fixpoint adds_nothing `{Env} (p : prog) : Prop :=
  match p with
  | Ret _ _ _ _ | Panic => True
  | Emit o k => (forall n, o <> OutProgress (PbAdd n)) /\ adds_nothing k
  | CallUpdateSchema _ k => forall err, adds_nothing (k err)
  | Exec _ k => forall f, adds_nothing (k f)
  | Recv _ k => forall err, adds_nothing (k err)
  end.

(** How far the history has advanced the progress bar. *)
Fixpoint advanced `{Env} (tr : list Event) : Z :=
  match tr with
  | [] => 0
  | EvOut (OutProgress (PbAdd n)) :: tr => n + advanced tr
  | _ :: tr => advanced tr
  end.

(** The number of items of the chunks whose job returned [nil]. *)
Fixpoint accepted_items `{Env} (jobs : list Job) : Z :=
  match jobs with
  | [] => 0
  | j :: jobs =>
      match job_status j with
      | Done None => chunk_len (job_req j)
      | _ => 0
      end + accepted_items jobs
  end.

(** The number of items of a list of requests. *)
Definition items `{Env} (reqs : list Request) : Z :=
  fold_right Z.add 0 (map chunk_len reqs).

End TxnLog.

(* --------------------------------------------------------------------- *)
(** ** More runs of the small instance                                    *)
(* --------------------------------------------------------------------- *)

Module DemoMore.
Import Retry Txn TxnLog Demo.

(** A heap in which the new graph is equal to the current one: there is
    nothing to upload. *)
Definition same_heap : gmap positive DemoGraph :=
  <[2%positive := demo_current]> (<[1%positive := demo_current]> ∅).

End DemoMore.

(* ===================================================================== *)
(** * Part II: theorems                                                   *)
(* ===================================================================== *)

(* --------------------------------------------------------------------- *)
(** ** The retry helper                                                   *)
(* --------------------------------------------------------------------- *)

Section RetryFacts.
Import Retry.
Context `{FM : FloatMath} {E A St : Type}.

Lemma wrap64_small (z : Z) : - 2 ^ 63 <= z < 2 ^ 63 -> wrap64 z = z.
Proof.
  intros Hz. unfold wrap64.
  rewrite Z.mod_small; lia.
Qed.

Lemma calls_app (evs1 evs2 : list (Event E)) :
  calls (evs1 ++ evs2) = calls evs1 ++ calls evs2.
Proof. apply omap_app. Qed.

Lemma sleeps_app (evs1 evs2 : list (Event E)) :
  sleeps (evs1 ++ evs2) = sleeps evs1 ++ sleeps evs2.
Proof. apply omap_app. Qed.

Lemma iteration_ok (fn : St -> option E * St) maxRetries trials st st' :
  fn st = (None, st') ->
  iteration (A:=A) fn maxRetries trials st = (Return None, st', [EvCall None]).
Proof. intros Hfn. unfold iteration. now rewrite Hfn. Qed.

Lemma iteration_failed (fn : St -> option E * St) maxRetries trials st e st' :
  fn st = (Some e, st') ->
  - 2 ^ 63 <= trials + 1 < 2 ^ 63 ->
  exists s,
    iteration (A:=A) fn maxRetries trials st =
      (if trials + 1 =? maxRetries then Return (Some TooManyRetries) else Continue (trials + 1),
       st', [EvCall (Some e); EvPrintf s; EvSleep (backoffTime trials)]).
Proof.
  intros Hfn Hr. unfold iteration. rewrite Hfn, (wrap64_small _ Hr).
  eexists. destruct (trials + 1 =? maxRetries); reflexivity.
Qed.

(** Enough fuel always gives a result: the loop ends within
    [maxRetries - trials] turns, whatever [fn] does. *)
Lemma loop_total (fn : St -> option E * St) maxRetries fuel trials st :
  0 <= trials < maxRetries -> maxRetries < 2 ^ 63 ->
  (Z.to_nat (maxRetries - trials) <= fuel)%nat ->
  exists err st' evs,
    loop (A:=A) fuel fn maxRetries trials st = Some (err, st', evs) /\
    (err = None \/ err = Some TooManyRetries) /\
    head (calls evs) = Some (fn st).1 /\
    (1 <= length (calls evs) <= Z.to_nat (maxRetries - trials))%nat.
Proof.
  revert trials st. induction fuel as [|fuel IH]; intros trials st Ht Hm Hf; [lia|].
  cbn [loop]. destruct (fn st) as [[e|] st1] eqn:Hfn.
  - destruct (iteration_failed fn maxRetries trials st e st1 Hfn) as [s ->]; [lia|].
    destruct (Z.eqb_spec (trials + 1) maxRetries) as [Heq|Hne].
    + do 3 eexists. split; [reflexivity|]. cbn. split; [auto|]. split; [auto|]. lia.
    + destruct (IH (trials + 1) st1) as (err & st' & evs & -> & He & _ & Hc); [lia..|].
      do 3 eexists. split; [reflexivity|]. split; [exact He|].
      rewrite calls_app, length_app. cbn. split; [auto|].
      replace (maxRetries - trials) with (Z.succ (maxRetries - (trials + 1))) by lia.
      rewrite Z2Nat.inj_succ by lia. lia.
  - rewrite (iteration_ok fn maxRetries trials st st1 Hfn).
    do 3 eexists. split; [reflexivity|]. cbn. split; [auto|]. split; [auto|]. lia.
Qed.

(** Against a closure that always fails, the loop calls it once per
    remaining trial and gives up. *)
Lemma loop_always_failing (fn : St -> option E * St) maxRetries fuel trials st :
  always_failing fn ->
  0 <= trials < maxRetries -> maxRetries < 2 ^ 63 ->
  (Z.to_nat (maxRetries - trials) <= fuel)%nat ->
  exists st' evs,
    loop (A:=A) fuel fn maxRetries trials st = Some (Some TooManyRetries, st', evs) /\
    length (calls evs) = Z.to_nat (maxRetries - trials) /\
    sleeps evs = map backoffTime (map Z.of_nat (seq (Z.to_nat trials) (Z.to_nat (maxRetries - trials)))).
Proof.
  intros Hfail. revert trials st.
  induction fuel as [|fuel IH]; intros trials st Ht Hm Hf; [lia|].
  cbn [loop]. destruct (fn st) as [[e|] st1] eqn:Hfn.
  2:{ specialize (Hfail st). rewrite Hfn in Hfail. now contradiction Hfail. }
  destruct (iteration_failed fn maxRetries trials st e st1 Hfn) as [s ->]; [lia|].
  destruct (Z.eqb_spec (trials + 1) maxRetries) as [Heq|Hne].
  - do 2 eexists. split; [reflexivity|].
    replace (maxRetries - trials) with 1 by lia.
    change (Z.to_nat 1) with 1%nat. cbn.
    rewrite Z2Nat.id by lia. auto.
  - destruct (IH (trials + 1) st1) as (st' & evs & -> & Hc & Hs); [lia..|].
    do 2 eexists. split; [reflexivity|].
    replace (maxRetries - trials) with (Z.succ (maxRetries - (trials + 1))) by lia.
    rewrite Z2Nat.inj_succ by lia.
    rewrite calls_app, sleeps_app, length_app. cbn. rewrite Hc, Hs.
    rewrite Z2Nat.id by lia.
    replace (Z.to_nat (trials + 1)) with (S (Z.to_nat trials)) by lia. auto.
Qed.

(** C2 (as the code has it).  Against a request function that fails every
    time, the helper called with [maxRetries = 10] returns the abort error
    after calling the function ten times, one first attempt and nine
    retries; it does not make an eleventh call. *)
Theorem withRetry_persistent_failure_ten_calls
    (fn : St -> option E * St) (st : St) (fuel : nat) :
  always_failing fn -> (10 <= fuel)%nat ->
  exists st' evs,
    withRetryOnTooManyRequests (A:=A) fuel fn 10 st = Some (Some TooManyRetries, st', evs) /\
    length (calls evs) = 10%nat /\
    length (calls evs) <> 11%nat.
Proof.
  intros Hfail Hfuel.
  destruct (loop_always_failing fn 10 fuel 0 st Hfail) as (st' & evs & Hrun & Hcalls & _);
    [lia | lia | change (Z.to_nat (10 - 0)) with 10%nat; lia |].
  exists st', evs. split; [exact Hrun|].
  change (Z.to_nat (10 - 0)) with 10%nat in Hcalls. split; [exact Hcalls | lia].
Qed.

(** C4 (as the code has it).  The helper does not look at the error: when
    the first request fails with any error [e] whatever, the request
    function is called again, and what the helper returns in the end is
    never that error (it is [nil] or the abort error). *)
Theorem withRetry_retries_whatever_the_error
    (fn : St -> option E * St) (st st1 : St) (e : E) (fuel : nat) :
  fn st = (Some e, st1) -> (10 <= fuel)%nat ->
  exists err st' evs,
    withRetryOnTooManyRequests (A:=A) fuel fn 10 st = Some (err, st', evs) /\
    calls evs !! 0%nat = Some (Some e) /\
    calls evs !! 1%nat = Some (fn st1).1 /\
    err <> Some (ClientError e).
Proof.
  intros Hfn Hfuel. destruct fuel as [|fuel]; [lia|].
  unfold withRetryOnTooManyRequests. cbn [loop].
  destruct (iteration_failed fn 10 0 st e st1 Hfn) as [s ->]; [lia|].
  change (0 + 1 =? 10) with false. cbv iota.
  destruct (loop_total fn 10 fuel (0 + 1) st1) as (err & st' & evs & -> & He & Hhd & _);
    [lia | lia | change (Z.to_nat (10 - (0 + 1))) with 9%nat; lia |].
  exists err, st', ([EvCall (Some e); EvPrintf s; EvSleep (backoffTime 0)] ++ evs).
  split; [reflexivity|]. rewrite calls_app. cbn.
  split; [reflexivity|]. split.
  - destruct (calls evs); [discriminate Hhd | exact Hhd].
  - destruct He as [-> | ->]; discriminate.
Qed.

End RetryFacts.

Section Backoff.
Import Retry.
Context `{FM : FloatMath}.

Lemma quot_one (q : Q) : (1 <= q)%Q -> (q < 2)%Q -> Z.quot (Qnum q) (Z.pos (Qden q)) = 1.
Proof.
  destruct q as [n d]. unfold Qle, Qlt. cbn. intros H1 H2.
  rewrite Z.quot_div_nonneg by lia.
  symmetry. apply (Z.div_unique _ _ 1 (n - Z.pos d)); lia.
Qed.

Lemma int_of_float_one (q : Q) : (1 <= q)%Q -> (q < 2)%Q -> int_of_float q = 1.
Proof. intros H1 H2. unfold int_of_float. now rewrite quot_one. Qed.

Lemma pow_table : forallb pow_in_range (seq 1 69) = true.
Proof. vm_compute. reflexivity. Qed.

Lemma pow_bounds (n : Z) :
  1 <= n < 70 -> (1001 # 1000 <= Qpower (101 # 100) n <= 1998 # 1000)%Q.
Proof.
  intros Hn. pose proof pow_table as Ht.
  rewrite forallb_forall in Ht. specialize (Ht (Z.to_nat n)).
  unfold pow_in_range in Ht. rewrite Z2Nat.id in Ht by lia.
  rewrite andb_true_iff, !Qle_bool_iff in Ht. apply Ht.
  apply in_seq. lia.
Qed.

Lemma math_Pow_truncates (trials : Z) :
  pow_accurate -> 0 <= trials < 70 ->
  int_of_float (math_Pow (101 # 100) (float64_of_int trials)) = 1.
Proof.
  intros [H0 Hacc] Ht.
  destruct (Z.eq_dec trials 0) as [->|Hne].
  - apply int_of_float_one; rewrite H0; [apply Qle_refl | reflexivity].
  - specialize (Hacc trials ltac:(lia)).
    pose proof (pow_bounds trials ltac:(lia)) as [Hlo Hhi].
    apply Qabs_Qle_condition in Hacc as [Ha Hb].
    apply int_of_float_one.
    + apply (Qplus_le_r _ _ (Qpower (101 # 100) trials)) in Ha.
      ring_simplify in Ha.
      eapply Qle_trans; [|exact Ha].
      eapply Qle_trans; [|apply Qplus_le_l; exact Hlo]. discriminate.
    + apply (Qplus_le_r _ _ (Qpower (101 # 100) trials)) in Hb.
      ring_simplify in Hb.
      eapply Qle_lt_trans; [exact Hb|].
      eapply Qle_lt_trans; [apply Qplus_le_l; exact Hhi|]. reflexivity.
Qed.

(** C3 (as the code has it).  The power of 1.01 is truncated to an integer
    before it is multiplied by 15: for every trial below 70 the delay is
    15 seconds exactly, the same for all of them, and from the first
    retry on it is not 1.01 ^ trials times 15 seconds. *)
Theorem backoffTime_is_constant (trials : Z) :
  pow_accurate -> 0 <= trials < 70 ->
  backoffTime trials = 15 * Second /\
  (1 <= trials -> ~ (inject_Z (backoffTime trials) == spec_backoff trials)%Q).
Proof.
  intros Hacc Ht.
  assert (Hb : backoffTime trials = 15 * Second).
  { unfold backoffTime. rewrite (math_Pow_truncates trials Hacc Ht). reflexivity. }
  split; [exact Hb|]. intros H1 Heq. rewrite Hb in Heq. unfold spec_backoff in Heq.
  pose proof (pow_bounds trials ltac:(lia)) as [Hlo _].
  assert (Hlt : (inject_Z (15 * Second) < Qpower (101 # 100) trials * inject_Z (15 * Second))%Q).
  { apply Qlt_le_trans with ((1001 # 1000) * inject_Z (15 * Second))%Q.
    - vm_compute. reflexivity.
    - apply Qmult_le_compat_r; [exact Hlo | discriminate]. }
  rewrite <- Heq in Hlt. exact (Qlt_irrefl _ Hlt).
Qed.

End Backoff.


Section RetryWitnesses.
Import Retry.

Lemma refusing_always_failing (k : ErrorKind) : always_failing (refusing k).
Proof. intros st. discriminate. Qed.

Lemma exact_Pow_accurate : pow_accurate (H:=exact_Pow).
Proof.
  split; [reflexivity|]. intros n Hn. cbn [math_Pow exact_Pow float64_of_int].
  rewrite Qfloor_Z.
  unfold Qminus. rewrite Qplus_opp_r. discriminate.
Qed.

Lemma withRetry_persistent_failure_ten_calls_witness :
  always_failing (refusing Overload) /\ (10 <= 10)%nat /\
  exists st' evs,
    withRetryOnTooManyRequests (H:=exact_Pow) (A:=unit) 10 (refusing Overload) 10 0%nat
      = Some (Some TooManyRetries, st', evs) /\
    length (calls evs) = 10%nat /\
    length (calls evs) <> 11%nat.
Proof.
  split; [apply refusing_always_failing|]. split; [lia|].
  apply (withRetry_persistent_failure_ten_calls (FM:=exact_Pow) (A:=unit) (refusing Overload) 0%nat 10).
  - apply refusing_always_failing.
  - lia.
Defined.

Lemma withRetry_retries_whatever_the_error_witness :
  refusing SchemaViolation 0%nat = (Some SchemaViolation, 1%nat) /\ (10 <= 10)%nat /\
  exists err st' evs,
    withRetryOnTooManyRequests (H:=exact_Pow) (A:=unit) 10 (refusing SchemaViolation) 10 0%nat
      = Some (err, st', evs) /\
    calls evs !! 0%nat = Some (Some SchemaViolation) /\
    calls evs !! 1%nat = Some (refusing SchemaViolation 1%nat).1 /\
    err <> Some (ClientError SchemaViolation).
Proof.
  split; [reflexivity|]. split; [lia|].
  apply (withRetry_retries_whatever_the_error (FM:=exact_Pow) (A:=unit)
           (refusing SchemaViolation) 0%nat 1%nat SchemaViolation 10).
  - reflexivity.
  - lia.
Defined.

Lemma backoffTime_is_constant_witness :
  pow_accurate (H:=exact_Pow) /\ 0 <= 3 < 70 /\
  backoffTime (H:=exact_Pow) 3 = 15 * Second /\
  (1 <= 3 -> ~ (inject_Z (backoffTime (H:=exact_Pow) 3) == spec_backoff 3)%Q).
Proof.
  split; [apply exact_Pow_accurate|]. split; [lia|].
  apply (backoffTime_is_constant (FM:=exact_Pow) 3).
  - apply exact_Pow_accurate.
  - lia.
Defined.

End RetryWitnesses.

(* --------------------------------------------------------------------- *)
(** ** Transaction.Commit                                                 *)
(* --------------------------------------------------------------------- *)

Section TxnInvariant.
Import Retry Txn.
Context `{FM : FloatMath} `{EV : Env}.
Context (cgt : Transaction) (h : gmap loc Graph) (new : Graph).
Hypothesis Hnew : h !! newGraph cgt = Some new.

Local Abbreviation RA := (phaseA_requests cgt h new).
Local Abbreviation RB := (phaseB_requests cgt h new).

(** *** Histories that grow *)

Lemma quiet_nil : quiet [].
Proof. intros f req Hin. inversion Hin. Qed.

Lemma quiet_app (evs1 evs2 : list Event) : quiet evs1 -> quiet evs2 -> quiet (evs1 ++ evs2).
Proof. intros H1 H2 f req Hin. apply elem_of_app in Hin as [Hin|Hin]; [eapply H1 | eapply H2]; eauto. Qed.

Lemma quiet_cons (ev : Event) (evs : list Event) :
  (forall f req, ev <> EvExec f req) -> quiet evs -> quiet (ev :: evs).
Proof.
  intros Hev Hq f req Hin. apply elem_of_cons in Hin as [Heq|Hin].
  - exact (Hev f req (eq_sym Heq)).
  - exact (Hq f req Hin).
Qed.

Lemma elem_of_rev {T : Type} (x : T) (l : list T) : x ∈ rev l <-> x ∈ l.
Proof. rewrite !list_elem_of_In. symmetry. apply in_rev. Qed.

Lemma quiet_rev (evs : list Event) : quiet evs -> quiet (rev evs).
Proof. intros Hq f req Hin. rewrite elem_of_rev in Hin. exact (Hq f req Hin). Qed.

Lemma silent_quiet (p : prog) : quiet (silent p).1.
Proof.
  induction p as [| | o k IH | | |]; try apply quiet_nil.
  cbn [silent]. destruct (silent k) as [evs p']. cbn in *.
  apply quiet_cons; [discriminate | exact IH].
Qed.

Lemma norm_Emit (o : Output) (k : prog) : norm (Emit o k) = norm k.
Proof. unfold norm. cbn [silent]. now destruct (silent k). Qed.

Lemma received_mono (n : nat) (evs tr : list Event) :
  received n tr -> received n (evs ++ tr).
Proof. intros Hr f Hf. destruct (Hr f Hf). split; apply elem_of_app; auto. Qed.

Lemma drained_mono (reqs : list Request) (evs tr : list Event) :
  drained reqs tr -> drained reqs (evs ++ tr).
Proof.
  intros Hd f req Hf. destruct (Hd f req Hf) as (H1 & H2 & H3).
  repeat split; apply elem_of_app; auto.
Qed.

Lemma barrier_quiet (reqs : list Request) (evs tr : list Event) :
  quiet evs -> barrier reqs tr -> barrier reqs (evs ++ tr).
Proof.
  induction evs as [|ev evs IH]; intros Hq Hb; [exact Hb|].
  cbn. split.
  - destruct ev; try exact I. exfalso. eapply Hq. apply elem_of_cons. left. reflexivity.
  - apply IH; [|exact Hb]. intros f req Hin. eapply Hq. apply elem_of_cons. right. exact Hin.
Qed.

Lemma logged_quiet (jobs : list Job) (evs tr : list Event) :
  quiet evs -> logged jobs tr -> logged jobs (evs ++ tr).
Proof.
  intros Hq [Hex Hdone]. split.
  - intros f req. rewrite elem_of_app, <- Hex. split; [|auto].
    intros [Hin|Hin]; [destruct (Hq f req Hin) | exact Hin].
  - intros f req err Hj. apply elem_of_app. right. eauto.
Qed.

Lemma stage_facts_mono (st : Stage) (reqs : list Request) (evs tr : list Event) :
  stage_facts cgt h new st reqs tr -> stage_facts cgt h new st reqs (evs ++ tr).
Proof.
  destruct st; cbn; try tauto.
  - intros (H1 & n & H2 & H3 & H4). split; [exact H1|]. exists n. auto using received_mono.
  - intros (H1 & H2 & H3). auto using received_mono.
  - intros (H1 & H2 & H3). auto using received_mono.
  - intros (H1 & H2). auto using received_mono.
Qed.

(** *** From a finished loop to the next one *)

Lemma ready_RecvB (rest : list Future) (reqs : list Request) (tr : list Event) :
  stage_facts cgt h new (StRecvB rest) reqs tr ->
  exists st, norm (stage_prog cgt h new st) = norm (stage_prog cgt h new (StRecvB rest)) /\
             stage_facts cgt h new st reqs tr /\ ready st.
Proof.
  intros Hf. destruct rest as [|f rest].
  - exists StOk. split; [reflexivity|]. split; [|exact I].
    destruct Hf as [-> _]. exists []. apply app_nil_r.
  - exists (StRecvB (f :: rest)). split; [reflexivity | split; [exact Hf | exact I]].
Qed.

Lemma ready_ExecB2 (rest : list (list Relation)) (futures : list Future)
    (reqs : list Request) (tr : list Event) :
  stage_facts cgt h new (StExecB2 rest futures) reqs tr ->
  exists st, norm (stage_prog cgt h new st) = norm (stage_prog cgt h new (StExecB2 rest futures)) /\
             stage_facts cgt h new st reqs tr /\ ready st.
Proof.
  intros Hf. destruct rest as [|c rest].
  - apply (ready_RecvB futures). destruct Hf as (H1 & H2 & H3).
    cbn in H1. rewrite app_nil_r in H1. split; auto.
  - exists (StExecB2 (c :: rest) futures). split; [reflexivity | split; [exact Hf | exact I]].
Qed.

Lemma ready_ExecB1 (rest : list (list Asset)) (futures : list Future)
    (reqs : list Request) (tr : list Event) :
  stage_facts cgt h new (StExecB1 rest futures) reqs tr ->
  exists st, norm (stage_prog cgt h new st) = norm (stage_prog cgt h new (StExecB1 rest futures)) /\
             stage_facts cgt h new st reqs tr /\ ready st.
Proof.
  intros Hf. destruct rest as [|c rest].
  - apply (ready_ExecB2 (relationInsertionChunks cgt h new) futures). exact Hf.
  - exists (StExecB1 (c :: rest) futures). split; [reflexivity | split; [exact Hf | exact I]].
Qed.

Lemma ready_RecvA (rest : list Future) (reqs : list Request) (tr : list Event) :
  stage_facts cgt h new (StRecvA rest) reqs tr ->
  exists st, norm (stage_prog cgt h new st) = norm (stage_prog cgt h new (StRecvA rest)) /\
             stage_facts cgt h new st reqs tr /\ ready st.
Proof.
  intros Hf. destruct rest as [|f rest].
  - apply (ready_ExecB1 (assetRemovalsChunks cgt h new) []).
    destruct Hf as (-> & n & Hn & Hrest & Hrec).
    assert (n = length RA) as ->.
    { apply (f_equal length) in Hrest. rewrite length_seq in Hrest. cbn in Hrest. lia. }
    cbn. split; [reflexivity|]. split; [lia | exact Hrec].
  - exists (StRecvA (f :: rest)). split; [reflexivity | split; [exact Hf | exact I]].
Qed.

Lemma ready_ExecA2 (rest : list (list Asset)) (futures : list Future)
    (reqs : list Request) (tr : list Event) :
  stage_facts cgt h new (StExecA2 rest futures) reqs tr ->
  exists st, norm (stage_prog cgt h new st) = norm (stage_prog cgt h new (StExecA2 rest futures)) /\
             stage_facts cgt h new st reqs tr /\ ready st.
Proof.
  intros Hf. destruct rest as [|c rest].
  - apply (ready_RecvA futures). destruct Hf as (H1 & H2).
    cbn in H1. rewrite app_nil_r in H1. subst reqs. split; [reflexivity|].
    exists 0%nat. rewrite Nat.sub_0_r. split; [lia|]. split; [exact H2|].
    intros f Hf. lia.
  - exists (StExecA2 (c :: rest) futures). split; [reflexivity | split; [exact Hf | exact I]].
Qed.

Lemma ready_ExecA1 (rest : list (list Relation)) (futures : list Future)
    (reqs : list Request) (tr : list Event) :
  stage_facts cgt h new (StExecA1 rest futures) reqs tr ->
  exists st, norm (stage_prog cgt h new st) = norm (stage_prog cgt h new (StExecA1 rest futures)) /\
             stage_facts cgt h new st reqs tr /\ ready st.
Proof.
  intros Hf. destruct rest as [|c rest].
  - apply (ready_ExecA2 (assetInsertionChunks cgt h new) futures). exact Hf.
  - exists (StExecA1 (c :: rest) futures). split; [reflexivity | split; [exact Hf | exact I]].
Qed.

Lemma ready_stage (st : Stage) (reqs : list Request) (tr : list Event) :
  stage_facts cgt h new st reqs tr ->
  exists st', norm (stage_prog cgt h new st') = norm (stage_prog cgt h new st) /\
              stage_facts cgt h new st' reqs tr /\ ready st'.
Proof.
  destruct st; eauto using ready_ExecA1, ready_ExecA2, ready_RecvA,
    ready_ExecB1, ready_ExecB2, ready_RecvB.
  - intros Hf. exists StSchema. split; [reflexivity | split; [exact Hf | exact I]].
  - intros Hf. exists (StFailed err). split; [reflexivity | split; [exact Hf | exact I]].
  - intros Hf. exists StOk. split; [reflexivity | split; [exact Hf | exact I]].
Qed.

(** *** One statement of Commit keeps the invariant *)

Lemma lookup_map {X Y : Type} (g : X -> Y) (l : list X) (i : nat) :
  map g l !! i = g <$> l !! i.
Proof. revert i. induction l as [|x l IH]; intros [|i]; cbn; auto. Qed.

Lemma continue_spec (c : Config) (evs : list Event) (p : prog) (jobs : list Job) (srv : Server) :
  continue c evs p jobs srv =
    {| main := norm p; pool := jobs; server := srv;
       trace := rev (silent p).1 ++ rev evs ++ trace c |}.
Proof. unfold continue, norm. now destruct (silent p). Qed.

Lemma Inv_continue (c : Config) (evs : list Event) (p : prog) (jobs : list Job)
    (srv : Server) (st : Stage) :
  norm p = norm (stage_prog cgt h new st) ->
  stage_facts cgt h new st (map job_req jobs) (rev evs ++ trace c) ->
  logged jobs (rev evs ++ trace c) ->
  barrier RA (rev evs ++ trace c) ->
  Inv cgt h new (continue c evs p jobs srv).
Proof.
  intros Hp Hf Hl Hb. rewrite continue_spec.
  assert (Hq : quiet (rev (silent p).1)) by apply quiet_rev, silent_quiet.
  split; [|split]; cbn.
  - exists st. split; [exact Hp|]. now apply stage_facts_mono.
  - now apply logged_quiet.
  - now apply barrier_quiet.
Qed.

Lemma logged_exec (jobs : list Job) (tr : list Event) (req : Request) :
  logged jobs tr ->
  logged (jobs ++ [{| job_req := req; job_status := Queued |}]) (EvExec (length jobs) req :: tr).
Proof.
  intros [Hex Hdone]. split.
  - intros f r. rewrite elem_of_cons, Hex. split.
    + intros [Heq|Hin].
      * injection Heq as -> ->. now rewrite list_lookup_middle.
      * destruct (jobs !! f) as [j|] eqn:Hj; [|discriminate].
        now rewrite (lookup_app_l_Some _ _ _ _ Hj).
    + intros Hin. destruct ((jobs ++ _) !! f) as [j|] eqn:Hj; [|discriminate].
      apply lookup_app_Some in Hj as [Hj | [Hlen Hj]].
      * right. now rewrite Hj.
      * left. apply list_lookup_singleton_Some in Hj as [Hz <-].
        cbn in Hin. injection Hin as <-. f_equal. lia.
  - intros f r err Hj. apply elem_of_cons. right.
    apply lookup_app_Some in Hj as [Hj | [Hlen Hj]]; [eauto|].
    apply list_lookup_singleton_Some in Hj as [_ Hj]. discriminate.
Qed.

Lemma prefix_lookup (reqs more : list Request) (f : Future) (req : Request) :
  reqs ++ more = RA ++ RB -> (length RA <= length reqs)%nat ->
  RA !! f = Some req -> reqs !! f = Some req.
Proof.
  intros Heq Hlen Hf.
  pose proof (lookup_lt_Some _ _ _ Hf) as Hlt.
  apply (lookup_app_l_Some _ RB) in Hf. rewrite <- Heq in Hf.
  rewrite lookup_app_l in Hf by lia. exact Hf.
Qed.

Lemma drained_of_received (jobs : list Job) (more : list Request) (tr : list Event) :
  logged jobs tr -> received (length RA) tr ->
  map job_req jobs ++ more = RA ++ RB -> (length RA <= length (map job_req jobs))%nat ->
  drained RA tr.
Proof.
  intros [Hex _] Hrec Heq Hlen f req Hf.
  destruct (Hrec f (lookup_lt_Some _ _ _ Hf)) as [Hr Hd].
  repeat split; [|exact Hd|exact Hr].
  apply Hex. rewrite <- lookup_map. eapply prefix_lookup; eauto.
Qed.

(** Submitting a request: the pool and the history after it. *)
Lemma Inv_exec (c : Config) (req : Request) (p : prog) (st : Stage) :
  logged (pool c) (trace c) -> barrier RA (trace c) ->
  (in_phaseB req = true -> drained RA (trace c)) ->
  norm p = norm (stage_prog cgt h new st) ->
  stage_facts cgt h new st (map job_req (pool c) ++ [req]) (EvExec (length (pool c)) req :: trace c) ->
  Inv cgt h new
    (continue c [EvExec (length (pool c)) req] p
       (pool c ++ [{| job_req := req; job_status := Queued |}]) (server c)).
Proof.
  intros Hl Hb Hd Hp Hf. apply (Inv_continue _ _ _ _ _ st Hp); cbn [rev app].
  - now rewrite map_app.
  - now apply logged_exec.
  - cbn. auto.
Qed.

(** An event that submits nothing: the pool stays, the history grows. *)
Lemma Inv_quiet (c : Config) (ev : Event) (p : prog) (srv : Server) (st : Stage) :
  logged (pool c) (trace c) -> barrier RA (trace c) ->
  (forall f req, ev <> EvExec f req) ->
  norm p = norm (stage_prog cgt h new st) ->
  stage_facts cgt h new st (map job_req (pool c)) (ev :: trace c) ->
  Inv cgt h new (continue c [ev] p (pool c) srv).
Proof.
  intros Hl Hb Hev Hp Hf.
  assert (Hq : quiet [ev]) by (apply quiet_cons; [exact Hev | apply quiet_nil]).
  apply (Inv_continue _ _ _ _ _ st Hp); cbn [rev app].
  - exact Hf.
  - exact (logged_quiet _ [ev] _ Hq Hl).
  - exact (barrier_quiet _ [ev] _ Hq Hb).
Qed.

Lemma seq_snoc (n : nat) : seq 0 n ++ [n] = seq 0 (S n).
Proof. now rewrite seq_S. Qed.

Lemma step_main_Inv (c c' : Config) :
  Inv cgt h new c -> step_main c = Some c' -> Inv cgt h new c'.
Proof.
  intros ((st0 & Hmain & Hfacts0) & Hlog & Hbar) Hstep.
  destruct (ready_stage st0 _ _ Hfacts0) as (st & Hnorm & Hfacts & Hready).
  rewrite <- Hnorm in Hmain. clear st0 Hfacts0 Hnorm.
  unfold step_main in Hstep.
  destruct st as [|rest futs|rest futs|rest|rest futs|rest futs|rest|err|].
  - (* the schema upload *)
    unfold stage_prog, Commit in Hmain. rewrite Hnew in Hmain.
    unfold Println in Hmain. rewrite norm_Emit in Hmain.
    change (norm (CallUpdateSchema ?sg ?k)) with (CallUpdateSchema sg k) in Hmain.
    rewrite Hmain in Hstep. cbn in Hfacts.
    destruct (UpdateSchema (ExtractSchema new) (server c)) as [[e|] srv]; injection Hstep as <-.
    + apply (Inv_quiet _ _ _ _ (StFailed (schema_error e)));
        [exact Hlog | exact Hbar | discriminate | reflexivity |].
      cbn. rewrite Hfacts. eexists. reflexivity.
    + apply (Inv_quiet _ _ _ _ (StExecA1 (relationRemovalsChunks cgt h new) []));
        [exact Hlog | exact Hbar | discriminate | |].
      * unfold upload, Println. rewrite !norm_Emit. reflexivity.
      * cbn. rewrite Hfacts. split; reflexivity.
  - (* a relation-removal chunk is submitted *)
    destruct rest as [|ch rest]; [destruct Hready|].
    change (norm (stage_prog cgt h new (StExecA1 (ch :: rest) futs)))
      with (Exec (ReqDeleteRelations ch)
              (fun f => stage_prog cgt h new (StExecA1 rest (futs ++ [f])))) in Hmain.
    rewrite Hmain in Hstep. injection Hstep as <-.
    destruct Hfacts as [HA Hfuts].
    apply (Inv_exec _ _ _ (StExecA1 rest (futs ++ [length (pool c)])));
      [exact Hlog | exact Hbar | discriminate | reflexivity |].
    cbn. split.
    + rewrite <- HA. cbn. now rewrite <- app_assoc.
    + rewrite Hfuts, length_app, length_map. cbn. rewrite Nat.add_1_r. apply seq_snoc.
  - (* an asset-upsert chunk is submitted *)
    destruct rest as [|ch rest]; [destruct Hready|].
    change (norm (stage_prog cgt h new (StExecA2 (ch :: rest) futs)))
      with (Exec (ReqInsertAssets ch)
              (fun f => stage_prog cgt h new (StExecA2 rest (futs ++ [f])))) in Hmain.
    rewrite Hmain in Hstep. injection Hstep as <-.
    destruct Hfacts as [HA Hfuts].
    apply (Inv_exec _ _ _ (StExecA2 rest (futs ++ [length (pool c)])));
      [exact Hlog | exact Hbar | discriminate | reflexivity |].
    cbn. split.
    + rewrite <- HA. cbn. now rewrite <- app_assoc.
    + rewrite Hfuts, length_app, length_map. cbn. rewrite Nat.add_1_r. apply seq_snoc.
  - (* a future of phase A is received *)
    destruct rest as [|f rest]; [destruct Hready|].
    change (norm (stage_prog cgt h new (StRecvA (f :: rest))))
      with (Recv f (fun err => match err with
                               | Some e => return_deferred None (Some e) cgt h
                               | None => stage_prog cgt h new (StRecvA rest)
                               end)) in Hmain.
    rewrite Hmain in Hstep.
    destruct (pool c !! f) as [[req [| |err]]|] eqn:Hjob; try discriminate.
    injection Hstep as <-.
    destruct Hfacts as (HA & n & Hn & Hrest & Hrec).
    destruct (length RA - n)%nat as [|m] eqn:Hm; [discriminate|].
    cbn in Hrest. injection Hrest as -> ->.
    destruct err as [e|].
    + apply (Inv_quiet _ _ _ _ (StFailed e));
        [exact Hlog | exact Hbar | discriminate | reflexivity |].
      cbn. rewrite HA. eexists. reflexivity.
    + apply (Inv_quiet _ _ _ _ (StRecvA (seq (S n) m)));
        [exact Hlog | exact Hbar | discriminate | reflexivity |].
      cbn. split; [exact HA|]. exists (S n). split; [lia|]. split; [f_equal; lia|].
      intros f Hf. destruct (decide (f = n)) as [->|Hne].
      * split; [apply elem_of_cons; now left|].
        apply elem_of_cons. right. destruct Hlog as [_ Hdone]. eauto.
      * destruct (Hrec f ltac:(lia)). split; apply elem_of_cons; auto.
  - (* an asset-removal chunk is submitted *)
    destruct rest as [|ch rest]; [destruct Hready|].
    change (norm (stage_prog cgt h new (StExecB1 (ch :: rest) futs)))
      with (Exec (ReqDeleteAssets ch)
              (fun f => stage_prog cgt h new (StExecB1 rest (futs ++ [f])))) in Hmain.
    rewrite Hmain in Hstep. injection Hstep as <-.
    destruct Hfacts as (HAB & Hlen & Hrec).
    apply (Inv_exec _ _ _ (StExecB1 rest (futs ++ [length (pool c)])));
      [exact Hlog | exact Hbar | | reflexivity |].
    + intros _. eapply drained_of_received; eauto.
    + cbn. split; [|split].
      * rewrite <- HAB. cbn. now rewrite <- app_assoc.
      * rewrite length_app. lia.
      * apply (received_mono _ [_]). exact Hrec.
  - (* a relation-upsert chunk is submitted *)
    destruct rest as [|ch rest]; [destruct Hready|].
    change (norm (stage_prog cgt h new (StExecB2 (ch :: rest) futs)))
      with (Exec (ReqInsertRelations ch)
              (fun f => stage_prog cgt h new (StExecB2 rest (futs ++ [f])))) in Hmain.
    rewrite Hmain in Hstep. injection Hstep as <-.
    destruct Hfacts as (HAB & Hlen & Hrec).
    apply (Inv_exec _ _ _ (StExecB2 rest (futs ++ [length (pool c)])));
      [exact Hlog | exact Hbar | | reflexivity |].
    + intros _. eapply drained_of_received; eauto.
    + cbn. split; [|split].
      * rewrite <- HAB. cbn. now rewrite <- app_assoc.
      * rewrite length_app. lia.
      * apply (received_mono _ [_]). exact Hrec.
  - (* a future of phase B is received *)
    destruct rest as [|f rest]; [destruct Hready|].
    change (norm (stage_prog cgt h new (StRecvB (f :: rest))))
      with (Recv f (fun err => match err with
                               | Some e => return_deferred None (Some e) cgt h
                               | None => stage_prog cgt h new (StRecvB rest)
                               end)) in Hmain.
    rewrite Hmain in Hstep.
    destruct (pool c !! f) as [[req [| |err]]|] eqn:Hjob; try discriminate.
    injection Hstep as <-.
    destruct Hfacts as (HAB & Hrec).
    destruct err as [e|].
    + apply (Inv_quiet _ _ _ _ (StFailed e));
        [exact Hlog | exact Hbar | discriminate | reflexivity |].
      cbn. rewrite HAB. exists []. apply app_nil_r.
    + apply (Inv_quiet _ _ _ _ (StRecvB rest));
        [exact Hlog | exact Hbar | discriminate | reflexivity |].
      cbn. split; [exact HAB|]. apply (received_mono _ [_]). exact Hrec.
  - (* Commit has returned an error *)
    cbn in Hmain. rewrite Hmain in Hstep. discriminate.
  - (* Commit has returned the graph *)
    cbn in Hmain. rewrite Hmain in Hstep. discriminate.
Qed.

(** *** The workers keep the invariant *)

Lemma map_req_insert (jobs : list Job) (f : Future) (req : Request) (st0 st1 : Status) :
  jobs !! f = Some {| job_req := req; job_status := st0 |} ->
  map job_req (<[f := {| job_req := req; job_status := st1 |}]> jobs) = map job_req jobs.
Proof.
  intros Hj. apply list_eq. intros i. rewrite !lookup_map.
  destruct (decide (i = f)) as [->|Hne].
  - rewrite list_lookup_insert_eq by (eapply lookup_lt_Some; eauto). now rewrite Hj.
  - now rewrite list_lookup_insert_ne by auto.
Qed.

Lemma Inv_worker (c : Config) (f : Future) (req : Request) (st0 st1 : Status)
    (srv : Server) (evs : list Event) :
  pool c !! f = Some {| job_req := req; job_status := st0 |} ->
  quiet evs ->
  (forall err, st1 = Done err -> EvDone f err ∈ evs) ->
  Inv cgt h new c ->
  Inv cgt h new
    {| main := main c;
       pool := <[f := {| job_req := req; job_status := st1 |}]> (pool c);
       server := srv;
       trace := evs ++ trace c |}.
Proof.
  intros Hj Hq Hd ((st & Hmain & Hfacts) & Hlog & Hbar).
  split; [|split]; cbn.
  - exists st. split; [exact Hmain|].
    rewrite (map_req_insert _ _ _ _ _ Hj). now apply stage_facts_mono.
  - apply (logged_quiet _ evs _ Hq) in Hlog. destruct Hlog as [Hex Hdone]. split.
    + intros f' r. rewrite Hex, <- !lookup_map, (map_req_insert _ _ _ _ _ Hj). reflexivity.
    + intros f' r err Hj'. destruct (decide (f' = f)) as [->|Hne].
      * rewrite list_lookup_insert_eq in Hj' by (eapply lookup_lt_Some; eauto).
        injection Hj' as -> Hst. apply elem_of_app. left. auto.
      * rewrite list_lookup_insert_ne in Hj' by auto. eauto.
  - now apply barrier_quiet.
Qed.

Lemma step_start_Inv (size : Z) (f : Future) (c c' : Config) :
  Inv cgt h new c -> step_start size f c = Some c' -> Inv cgt h new c'.
Proof.
  intros HI Hstep. unfold step_start in Hstep.
  destruct (pool c !! f) as [[req [| |]]|] eqn:Hj; try discriminate.
  destruct (_ <? size); [|discriminate]. injection Hstep as <-.
  apply (Inv_worker c f req Queued (Running 0) (server c) [EvStart f] Hj); [| |exact HI].
  - apply quiet_cons; [discriminate | apply quiet_nil].
  - discriminate.
Qed.

Lemma quiet_retried (f : Future) (evs : list (Retry.Event APIError)) :
  quiet (rev (map (EvRetry f) evs)).
Proof.
  apply quiet_rev. intros f' req Hin.
  apply list_elem_of_In, in_map_iff in Hin as (ev & Heq & _). discriminate.
Qed.

Lemma step_work_Inv (f : Future) (c c' : Config) :
  Inv cgt h new c -> step_work f c = Some c' -> Inv cgt h new c'.
Proof.
  intros HI Hstep. unfold step_work in Hstep.
  destruct (pool c !! f) as [[req [|trials|]]|] eqn:Hj; try discriminate.
  destruct (iteration (perform req) 10 trials (server c)) as [[it srv] evs].
  destruct it as [trials'|[err|]]; injection Hstep as <-.
  - apply (Inv_worker c f req (Running trials) (Running trials') srv _ Hj); [| |exact HI].
    + apply quiet_retried.
    + discriminate.
  - apply (Inv_worker c f req (Running trials) (Done (Some (chunk_error req err))) srv
             ([EvDone f (Some (chunk_error req err))] ++ _) Hj); [| |exact HI].
    + apply quiet_app; [|apply quiet_retried].
      apply quiet_cons; [discriminate | apply quiet_nil].
    + intros e [= <-]. apply elem_of_app. left. apply elem_of_cons. now left.
  - apply (Inv_worker c f req (Running trials) (Done None) srv
             ([EvDone f None; EvOut (OutProgress (PbAdd (chunk_len req)))] ++ _) Hj);
      [| |exact HI].
    + apply quiet_app; [|apply quiet_retried].
      apply quiet_cons; [discriminate|]. apply quiet_cons; [discriminate | apply quiet_nil].
    + intros e [= <-]. apply elem_of_app. left. apply elem_of_cons. now left.
Qed.

Lemma step_Inv (size : Z) (ch : Choice) (c c' : Config) :
  Inv cgt h new c -> step size ch c = Some c' -> Inv cgt h new c'.
Proof.
  destruct ch; cbn; eauto using step_main_Inv, step_start_Inv, step_work_Inv.
Qed.

Lemma run_Inv (size : Z) (sched : list Choice) (c c' : Config) :
  Inv cgt h new c -> run size sched c = Some c' -> Inv cgt h new c'.
Proof.
  revert c. induction sched as [|ch sched IH]; intros c HI Hrun; cbn in Hrun.
  - now injection Hrun as <-.
  - destruct (step size ch c) as [c1|] eqn:Hstep; [|discriminate].
    eauto using step_Inv.
Qed.

Lemma initial_spec (srv : Server) :
  initial cgt h srv =
    {| main := norm (Commit cgt h); pool := []; server := srv;
       trace := rev (silent (Commit cgt h)).1 |}.
Proof. unfold initial, norm. now destruct (silent (Commit cgt h)). Qed.

Lemma initial_Inv (srv : Server) : Inv cgt h new (initial cgt h srv).
Proof.
  rewrite initial_spec.
  assert (Hq : quiet (rev (silent (Commit cgt h)).1)) by apply quiet_rev, silent_quiet.
  split; [|split]; cbn.
  - exists StSchema. split; reflexivity.
  - rewrite <- (app_nil_r (rev _)). apply logged_quiet; [exact Hq|]. split.
    + intros f req. split; [intros Hin; inversion Hin | discriminate].
    + intros f req err Hj. discriminate.
  - rewrite <- (app_nil_r (rev _)). apply barrier_quiet; [exact Hq | exact I].
Qed.

(** Every run of [Commit] satisfies the invariant. *)
Lemma commit_run_Inv (srv : Server) (sched : list Choice) (c : Config) :
  commit_run cgt h srv sched = Some c -> Inv cgt h new c.
Proof. apply run_Inv, initial_Inv. Qed.

(** *** What the invariant gives *)

Lemma barrier_split (reqs : list Request) (tr later earlier : list Event)
    (f : Future) (req : Request) :
  barrier reqs tr -> tr = later ++ EvExec f req :: earlier ->
  in_phaseB req = true -> drained reqs earlier.
Proof.
  revert tr. induction later as [|ev later IH]; intros tr Hb -> HB.
  - destruct Hb as [Hb _]. auto.
  - destruct Hb as [_ Hb]. eauto.
Qed.


(** When [Commit] has returned, it has returned in one of two ways. *)
Lemma Inv_returned (c : Config) (g : option loc) (err : option Error)
    (cgt' : Transaction) (h' : gmap loc Graph) :
  Inv cgt h new c -> main c = Ret g err cgt' h' ->
  (exists e, err = Some e /\ g = None /\ cgt' = cgt /\ h' = h) \/
  (err = None /\ g = Some (newGraph cgt) /\
   cgt' = committed_txn cgt h /\ h' = committed_heap h).
Proof.
  intros ((st0 & Hmain & Hfacts0) & _ & _) Hret.
  destruct (ready_stage st0 _ _ Hfacts0) as (st & Hnorm & Hfacts & Hready).
  rewrite <- Hnorm, Hret in Hmain. clear st0 Hfacts0 Hnorm.
  destruct st as [|rest futs|rest futs|rest|rest futs|rest futs|rest|e|];
    try (destruct rest; [destruct Hready | discriminate Hmain]).
  - unfold stage_prog, Commit in Hmain. rewrite Hnew in Hmain.
    unfold Println in Hmain. rewrite norm_Emit in Hmain. discriminate Hmain.
  - injection Hmain as -> -> -> ->. left. eauto.
  - injection Hmain as -> -> -> ->. right. auto.
Qed.

End TxnInvariant.

Section TxnTheorems.
Import Retry Txn.
Context `{FM : FloatMath} `{EV : Env}.

(** A transaction whose [newGraph] is [nil] or dangling: [Commit] panics
    at once and nothing else happens. *)
Lemma commit_run_panic (cgt : Transaction) (h : gmap loc Graph) (srv : Server)
    (sched : list Choice) (c : Config) :
  h !! newGraph cgt = None ->
  commit_run cgt h srv sched = Some c -> main c = Panic /\ sched = [].
Proof.
  intros Hnone Hrun. unfold commit_run in Hrun. rewrite initial_spec in Hrun.
  unfold Commit in Hrun. rewrite Hnone in Hrun.
  destruct sched as [|[|f|f] sched]; cbn in Hrun.
  - injection Hrun as <-. auto.
  - discriminate.
  - unfold step_start in Hrun. cbn in Hrun. discriminate.
  - unfold step_work in Hrun. cbn in Hrun. discriminate.
Qed.

(** C7.  Whenever [Commit] returns an error, from the schema upload or
    from a chunk of either phase, no graph is returned and the
    transaction is as it was: [currentGraph] and [newGraph] (and the rest
    of its fields, and the heap of graphs) are unchanged. *)
Theorem commit_error_leaves_transaction
    (cgt : Transaction) (h : gmap loc Graph) (srv : Server)
    (sched : list Choice) (c : Config)
    (g : option loc) (err : Error) (cgt' : Transaction) (h' : gmap loc Graph) :
  commit_run cgt h srv sched = Some c ->
  main c = Ret g (Some err) cgt' h' ->
  g = None /\ cgt' = cgt /\ h' = h /\
  newGraph cgt' = newGraph cgt /\ currentGraph cgt' = currentGraph cgt.
Proof.
  intros Hrun Hret. destruct (h !! newGraph cgt) as [new|] eqn:Hnew.
  - pose proof (commit_run_Inv cgt h new Hnew srv sched c Hrun) as HI.
    destruct (Inv_returned cgt h new Hnew c _ _ _ _ HI Hret)
      as [(e & _ & -> & -> & ->) | (Habs & _)]; [auto | discriminate].
  - destruct (commit_run_panic cgt h srv sched c Hnew Hrun) as [Hp _].
    rewrite Hp in Hret. discriminate.
Qed.

(** C6.  When [Commit] returns without an error, the graph it returns is
    the one [newGraph] pointed to when it was called, and [newGraph] now
    points to a fresh address of the heap that holds an empty graph;
    nothing else changed. *)
Theorem commit_success_returns_new_graph
    (cgt : Transaction) (h : gmap loc Graph) (srv : Server)
    (sched : list Choice) (c : Config)
    (g : option loc) (cgt' : Transaction) (h' : gmap loc Graph) :
  commit_run cgt h srv sched = Some c ->
  main c = Ret g None cgt' h' ->
  g = Some (newGraph cgt) /\
  h !! newGraph cgt' = None /\
  h' = <[newGraph cgt' := NewGraph]> h /\
  h' !! newGraph cgt' = Some NewGraph /\
  h' !! newGraph cgt = h !! newGraph cgt /\
  currentGraph cgt' = currentGraph cgt /\
  parallelization cgt' = parallelization cgt /\ chunkSize cgt' = chunkSize cgt.
Proof.
  intros Hrun Hret. destruct (h !! newGraph cgt) as [new|] eqn:Hnew.
  - pose proof (commit_run_Inv cgt h new Hnew srv sched c Hrun) as HI.
    destruct (Inv_returned cgt h new Hnew c _ _ _ _ HI Hret)
      as [(e & Habs & _) | (_ & -> & -> & ->)]; [discriminate|].
    assert (Hfresh : h !! fresh (dom h) = None).
    { apply not_elem_of_dom. apply is_fresh. }
    unfold committed_txn, committed_heap. cbn.
    repeat split; auto.
    + apply lookup_insert_eq.
    + rewrite lookup_insert_ne; [exact Hnew|].
      intros Heq. rewrite Heq, Hnew in Hfresh. discriminate.
  - destruct (commit_run_panic cgt h srv sched c Hnew Hrun) as [Hp _].
    rewrite Hp in Hret. discriminate.
Qed.

End TxnTheorems.

Section TxnSchedules.
Import Retry Txn.
Context `{FM : FloatMath} `{EV : Env}.

(** *** Runs *)


Lemma continue_grows (c : Config) (evs : list Event) (p : prog) (jobs : list Job) (srv : Server) :
  trace (continue c evs p jobs srv) = (rev (silent p).1 ++ rev evs) ++ trace c.
Proof. rewrite continue_spec. cbn. apply app_assoc. Qed.

Lemma step_grows (size : Z) (ch : Choice) (c c' : Config) :
  step size ch c = Some c' -> exists evs, trace c' = evs ++ trace c.
Proof.
  destruct ch as [|f|f]; cbn.
  - unfold step_main. intros Hstep.
    destruct (main c) as [| |o k|sg k|req k|f k]; try discriminate.
    + injection Hstep as <-. eexists. apply continue_grows.
    + destruct (UpdateSchema sg (server c)). injection Hstep as <-.
      eexists. apply continue_grows.
    + injection Hstep as <-. eexists. apply continue_grows.
    + destruct (pool c !! f) as [[req [| |err]]|]; try discriminate.
      injection Hstep as <-. eexists. apply continue_grows.
  - unfold step_start. intros Hstep.
    destruct (pool c !! f) as [[req [| |]]|]; try discriminate.
    destruct (_ <? size); [|discriminate]. injection Hstep as <-. now exists [EvStart f].
  - unfold step_work. intros Hstep.
    destruct (pool c !! f) as [[req [|trials|]]|]; try discriminate.
    destruct (iteration (perform req) 10 trials (server c)) as [[it srv] evs].
    destruct it as [trials'|[err|]]; injection Hstep as <-; cbn [trace].
    + eexists. reflexivity.
    + eexists (_ :: _). reflexivity.
    + eexists (_ :: _ :: _). reflexivity.
Qed.

Lemma run_grows (size : Z) (sched : list Choice) (c c' : Config) :
  run size sched c = Some c' -> exists evs, trace c' = evs ++ trace c.
Proof.
  revert c. induction sched as [|ch sched IH]; intros c Hrun; cbn in Hrun.
  - injection Hrun as <-. now exists [].
  - destruct (step size ch c) as [c1|] eqn:Hstep; [|discriminate].
    destruct (step_grows _ _ _ _ Hstep) as [evs1 H1].
    destruct (IH _ Hrun) as [evs2 H2]. exists (evs2 ++ evs1).
    now rewrite H2, H1, app_assoc.
Qed.

(** A configuration in which [Commit] has returned and no job was
    submitted does not move. *)
Lemma run_returned (size : Z) (sched : list Choice) (c c' : Config)
    (g : option loc) (err : option Error) (cgt : Transaction) (h : gmap loc Graph) :
  main c = Ret g err cgt h -> pool c = [] ->
  run size sched c = Some c' -> sched = [] /\ c' = c.
Proof.
  intros Hmain Hpool Hrun. destruct sched as [|[|f|f] sched]; cbn in Hrun.
  - injection Hrun as <-. auto.
  - unfold step_main in Hrun. rewrite Hmain in Hrun. discriminate.
  - unfold step_start in Hrun. rewrite Hpool in Hrun. discriminate.
  - unfold step_work in Hrun. rewrite Hpool in Hrun. discriminate.
Qed.

Lemma initial_main (cgt : Transaction) (h : gmap loc Graph) (new : Graph) (srv : Server) :
  h !! newGraph cgt = Some new ->
  initial cgt h srv =
    {| main := CallUpdateSchema (ExtractSchema new) (fun err =>
                 match err with
                 | Some e => Ret None (Some (schema_error e)) cgt h
                 | None => upload cgt h new
                 end);
       pool := []; server := srv;
       trace := [EvOut (OutPrintln "Start uploading the schema of the graph...")] |}.
Proof. intros Hnew. unfold initial, Commit. rewrite Hnew. reflexivity. Qed.

(** C5.  [Commit] starts with the upload of the schema extracted from the
    new graph: in every run that has begun, that upload is the oldest
    event after the first line printed.  When the upload returns an
    error, [Commit] returns an error at that very statement, with the
    transaction and the heap as they were, no job submitted and nothing
    left to run: the only runs are the empty one and this one. *)
Theorem commit_schema_upload_failure
    (cgt : Transaction) (h : gmap loc Graph) (new : Graph) (srv : Server) :
  h !! newGraph cgt = Some new ->
  let sg := ExtractSchema new in
  let printed := EvOut (OutPrintln "Start uploading the schema of the graph...") in
  (forall sched c, commit_run cgt h srv sched = Some c -> sched <> [] ->
     exists later, trace c = later ++ [EvUpdateSchema sg (UpdateSchema sg srv).1; printed]) /\
  (forall e srv', UpdateSchema sg srv = (Some e, srv') ->
     let failed :=
       {| main := Ret None (Some (schema_error e)) cgt h;
          pool := []; server := srv';
          trace := [EvUpdateSchema sg (Some e); printed] |} in
     commit_run cgt h srv [SMain] = Some failed /\
     forall sched c, commit_run cgt h srv sched = Some c ->
       (sched = [] /\ c = initial cgt h srv /\ pool c = [] /\ quiet (trace c)) \/
       (sched = [SMain] /\ c = failed)).
Proof.
  intros Hnew sg printed. split.
  - intros sched c Hrun Hne. unfold commit_run in Hrun.
    destruct sched as [|ch sched]; [congruence|]. cbn [run] in Hrun.
    rewrite (initial_main _ _ _ _ Hnew) in Hrun.
    destruct ch as [|f|f]; [|discriminate|discriminate].
    cbn [step] in Hrun. unfold step_main in Hrun. cbn [main server] in Hrun.
    fold sg in Hrun. destruct (UpdateSchema sg srv) as [err srv1].
    destruct (run_grows _ _ _ _ Hrun) as [evs Htr]. rewrite Htr, continue_grows.
    cbn [trace rev app fst].
    match goal with |- context [rev ?l ++ [_]] => exists (evs ++ rev l) end.
    rewrite <- !app_assoc. reflexivity.
  - intros e srv' Hup failed.
    assert (Hstep : step (parallelization cgt) SMain (initial cgt h srv) = Some failed).
    { rewrite (initial_main _ _ _ _ Hnew). cbn. unfold step_main. cbn.
      fold sg. rewrite Hup. reflexivity. }
    split.
    { unfold commit_run. cbn [run]. now rewrite Hstep. }
    intros sched c Hrun. unfold commit_run in Hrun.
    destruct sched as [|ch sched]; cbn [run] in Hrun.
    + left. injection Hrun as <-.
      rewrite (initial_main _ _ _ _ Hnew). cbn. repeat split; auto.
      apply quiet_cons; [discriminate | apply quiet_nil].
    + right. destruct ch as [|f|f].
      * rewrite Hstep in Hrun.
        destruct (run_returned _ _ failed _ _ _ _ _ eq_refl eq_refl Hrun) as [-> ->]. auto.
      * rewrite (initial_main _ _ _ _ Hnew) in Hrun. discriminate.
      * rewrite (initial_main _ _ _ _ Hnew) in Hrun. discriminate.
Qed.

End TxnSchedules.

Section TxnOrders.
Import Retry Txn.
Context `{FM : FloatMath} `{EV : Env}.

(** *** Completions *)




(** *** The number of running jobs *)





(** *** The loops of Commit, run to their end *)



(** *** Jobs against a server that accepts every request *)







End TxnOrders.

Section TxnWitnesses.
Import Retry Txn Demo.



Lemma commit_schema_upload_failure_witness :
  demo_heap !! newGraph demo_txn = Some demo_new /\
  exists c,
    commit_run (H:=exact_Pow) (H0:=scripted_env) demo_txn demo_heap [Some Overload] [SMain]
      = Some c /\
    main c = Ret (H:=scripted_env) None (Some (schema_error (H:=scripted_env) Overload))
               demo_txn demo_heap /\
    pool c = [] /\
    trace c = [EvUpdateSchema (H:=scripted_env) tt (Some Overload);
               EvOut (OutPrintln "Start uploading the schema of the graph...")].
Proof.
  split; [reflexivity|].
  destruct (commit_schema_upload_failure (FM:=exact_Pow) (EV:=scripted_env)
              demo_txn demo_heap demo_new [Some Overload] eq_refl) as [_ Hfail].
  eexists. split; [exact (proj1 (Hfail Overload [] eq_refl))|].
  repeat split.
Defined.

Lemma demo_failed_run_eq :
  commit_run (H:=exact_Pow) (H0:=scripted_env) demo_txn demo_heap demo_script
    demo_failing_schedule = demo_failed_run.
Proof. vm_compute. reflexivity. Qed.

Lemma demo_success_run_eq :
  commit_run (H:=exact_Pow) (H0:=accepting_env) demo_txn demo_heap 0%nat
    (whole_schedule [0; 1; 2]%nat [3; 4]%nat) = demo_success_run.
Proof. vm_compute. reflexivity. Qed.

Lemma commit_error_leaves_transaction_witness :
  exists c err,
    commit_run (H:=exact_Pow) (H0:=scripted_env) demo_txn demo_heap demo_script
      demo_failing_schedule = Some c /\
    main c = Ret (H:=scripted_env) None (Some err) demo_txn demo_heap.
Proof.
  pose proof demo_failed_run_eq as Hrun. unfold demo_failed_run in Hrun.
  match type of Hrun with
  | _ = Some ?c =>
      destruct (commit_error_leaves_transaction (FM:=exact_Pow) (EV:=scripted_env)
                  demo_txn demo_heap demo_script demo_failing_schedule c _ _ _ _
                  Hrun eq_refl) as (_ & Hcgt & Hh & _)
  end.
  eexists _, _. split; [exact Hrun|]. cbn [main].
  rewrite <- Hcgt, <- Hh. reflexivity.
Defined.

Lemma commit_success_returns_new_graph_witness :
  exists c cgt' h',
    commit_run (H:=exact_Pow) (H0:=accepting_env) demo_txn demo_heap 0%nat
      (whole_schedule [0; 1; 2]%nat [3; 4]%nat) = Some c /\
    main c = Ret (H:=accepting_env) (Some 2%positive) None cgt' h' /\
    newGraph cgt' = 3%positive /\
    h' !! newGraph cgt' = Some {| demo_assets := []; demo_relations := [] |} /\
    h' !! newGraph demo_txn = demo_heap !! newGraph demo_txn.
Proof.
  pose proof demo_success_run_eq as Hrun. unfold demo_success_run in Hrun.
  match type of Hrun with
  | _ = Some ?c =>
      destruct (commit_success_returns_new_graph (FM:=exact_Pow) (EV:=accepting_env)
                  demo_txn demo_heap 0%nat _ c _ _ _ Hrun eq_refl)
        as (_ & _ & _ & Hfresh & Hold & _)
  end.
  eexists _, _, _. split; [exact Hrun|]. cbn [main].
  split; [reflexivity|]. split; [reflexivity|]. split; [exact Hfresh | exact Hold].
Defined.

End TxnWitnesses.

(* --------------------------------------------------------------------- *)
(** ** The command line                                                   *)
(* --------------------------------------------------------------------- *)

Section CliFacts.
Import Cli.

(** C8 (as stated, it fails).  A configuration that sets [concurrency]
    to 0: the configured value is 0, the server is started with a
    capacity of 32. *)
Lemma listen_zero_concurrency :
  let cfg : gmap string ConfigValue := {[ "concurrency" := CInt 0 ]} in
  cfg !! "concurrency" = Some (CInt 0) /\
  capacity (listen (H:=no_parse) (E:=string) cfg None) = Some 32 /\
  capacity (listen (H:=no_parse) (E:=string) cfg None) <> Some 0.
Proof. vm_compute. repeat split; discriminate. Qed.

(** C8 (amended).  When [listen] starts the server, the capacity of the
    query gate it passes is the configured [concurrency] when that value
    is not zero, and 32 when [concurrency] is not set or is set to
    zero. *)
Theorem listen_concurrency `{Cast} {E : Type} (cfg : gmap string ConfigValue) :
  let configured := viper_GetInt64 cfg "concurrency" in
  capacity (listen (E:=E) cfg None) = Some (if configured =? 0 then 32 else configured) /\
  (cfg !! "concurrency" = None -> capacity (listen (E:=E) cfg None) = Some 32) /\
  (cfg !! "concurrency" = Some (CInt 0) -> capacity (listen (E:=E) cfg None) = Some 32) /\
  (forall n, cfg !! "concurrency" = Some (CInt n) -> n <> 0 ->
     capacity (listen (E:=E) cfg None) = Some n).
Proof.
  intros configured. unfold listen, capacity. fold configured.
  split; [reflexivity|]. unfold configured, viper_GetInt64.
  split; [|split].
  - intros ->. reflexivity.
  - intros ->. reflexivity.
  - intros n -> Hn. destruct (Z.eqb_spec n 0); [contradiction | reflexivity].
Qed.

Lemma listen_concurrency_witness :
  let cfg : gmap string ConfigValue :=
    {[ "concurrency" := CInt 8; "server_listen" := CString ":8080" ]} in
  cfg !! "concurrency" = Some (CInt 8) /\ 8 <> 0 /\
  capacity (listen (H:=no_parse) (E:=string) cfg None) = Some 8.
Proof.
  intros cfg. split; [reflexivity|]. split; [lia|].
  apply (listen_concurrency (H:=no_parse) (E:=string) cfg); [reflexivity | lia].
Defined.

(** *** queryFunc *)






End CliFacts.

(* --------------------------------------------------------------------- *)
(** ** The web client                                                     *)
(* --------------------------------------------------------------------- *)

Section WebFacts.
Import Web.
Context {R : Type}.


Lemma append_assoc (s1 s2 s3 : string) : (s1 +:+ s2) +:+ s3 = s1 +:+ (s2 +:+ s3).
Proof.
  induction s1 as [|a s1 IH]; [reflexivity|].
  change (String a ((s1 +:+ s2) +:+ s3) = String a (s1 +:+ (s2 +:+ s3))).
  now rewrite IH.
Qed.


End WebFacts.

Section WebWitness.
Import Web.


End WebWitness.

(* --------------------------------------------------------------------- *)
(** ** More on the retry helper                                           *)
(* --------------------------------------------------------------------- *)

Section RetryMore.
Import Retry.
Context `{FM : FloatMath} {E A St : Type}.

(** What a run of the loop that starts at [trials] looks like. *)
Lemma loop_outcome (fn : St -> option E * St) (maxRetries : Z) (fuel : nat)
    (trials : Z) (st : St) (err : option (error E A)) (st' : St) (evs : list (Event E)) :
  0 <= trials < maxRetries -> maxRetries < 2 ^ 63 ->
  loop fuel fn maxRetries trials st = Some (err, st', evs) ->
  exists es : list E,
    sleeps evs = map backoffTime (map Z.of_nat (seq (Z.to_nat trials) (length es))) /\
    ((err = None /\ calls evs = map Some es ++ [None] /\
      trials + Z.of_nat (length es) < maxRetries) \/
     (err = Some TooManyRetries /\ calls evs = map Some es /\
      trials + Z.of_nat (length es) = maxRetries)).
Proof.
  revert trials st err st' evs.
  induction fuel as [|fuel IH]; intros trials st err st' evs Ht Hm Hrun; [discriminate|].
  cbn [loop] in Hrun. destruct (fn st) as [[e|] st1] eqn:Hfn.
  - destruct (iteration_failed (A:=A) fn maxRetries trials st e st1 Hfn) as [s Hit]; [lia|].
    rewrite Hit in Hrun.
    destruct (Z.eqb_spec (trials + 1) maxRetries) as [Heq|Hne].
    + injection Hrun as <- <- <-. exists [e].
      split; [cbn; rewrite Z2Nat.id by lia; reflexivity|].
      right. split; [reflexivity|]. split; [reflexivity | cbn [length]; lia].
    + destruct (loop fuel fn maxRetries (trials + 1) st1) as [[[err1 st2] evs1]|] eqn:Hloop;
        [|discriminate].
      injection Hrun as <- <- <-.
      destruct (IH (trials + 1) st1 err1 st2 evs1 ltac:(lia) Hm Hloop) as (es & Hs & Hc).
      exists (e :: es).
      change (sleeps (EvCall (Some e) :: EvPrintf s :: EvSleep (backoffTime trials) :: evs1))
        with (backoffTime trials :: sleeps evs1).
      change (calls (EvCall (Some e) :: EvPrintf s :: EvSleep (backoffTime trials) :: evs1))
        with (Some e :: calls evs1).
      split.
      * cbn [length seq map]. rewrite Hs, Z2Nat.id by lia.
        replace (Z.to_nat (trials + 1)) with (S (Z.to_nat trials)) by lia. reflexivity.
      * destruct Hc as [(-> & Hc & Hlt) | (-> & Hc & Hlt)]; [left | right];
          (split; [reflexivity|]);
          (split; [rewrite Hc; reflexivity | cbn [length]; lia]).
  - rewrite (iteration_ok fn maxRetries trials st st1 Hfn) in Hrun.
    injection Hrun as <- <- <-. exists [].
    split; [reflexivity|]. left. split; [reflexivity|]. split; [reflexivity | cbn [length]; lia].
Qed.

(** X1.  With a positive [maxRetries], the helper returns (given enough
    fuel), and it returns in one of two ways.  Either it returns [nil]:
    then the last call of [fn] succeeded, every call before it failed,
    and there were fewer than [maxRetries] failures.  Or it returns the
    abort error: then [fn] was called exactly [maxRetries] times and
    failed every time.  In both cases it slept once after each failed
    call, for [backoffTime 0], [backoffTime 1], ... in that order. *)
Theorem withRetry_outcome (fn : St -> option E * St) (maxRetries : Z) (fuel : nat) (st : St) :
  0 < maxRetries < 2 ^ 63 -> (Z.to_nat maxRetries <= fuel)%nat ->
  exists err st' evs (es : list E),
    withRetryOnTooManyRequests (A:=A) fuel fn maxRetries st = Some (err, st', evs) /\
    sleeps evs = map backoffTime (map Z.of_nat (seq 0 (length es))) /\
    ((err = None /\ calls evs = map Some es ++ [None] /\
      Z.of_nat (length es) < maxRetries) \/
     (err = Some TooManyRetries /\ calls evs = map Some es /\
      Z.of_nat (length es) = maxRetries)).
Proof.
  intros Hm Hfuel. unfold withRetryOnTooManyRequests.
  destruct (loop_total (A:=A) fn maxRetries fuel 0 st) as (err & st' & evs & Hrun & _);
    [lia | lia | rewrite Z.sub_0_r; exact Hfuel |].
  destruct (loop_outcome fn maxRetries fuel 0 st err st' evs ltac:(lia) ltac:(lia) Hrun)
    as (es & Hs & Hc).
  exists err, st', evs, es. split; [exact Hrun|]. split; [exact Hs|].
  rewrite !Z.add_0_l in Hc. exact Hc.
Qed.

(** With [maxRetries] zero or negative the test [trials == maxRetries]
    never holds: the loop goes on as long as [fn] fails. *)
Lemma loop_never_returns (fn : St -> option E * St) (maxRetries : Z) (fuel : nat)
    (trials : Z) (st : St) :
  always_failing fn -> maxRetries <= 0 ->
  0 <= trials -> trials + Z.of_nat fuel < 2 ^ 63 ->
  loop (A:=A) fuel fn maxRetries trials st = None.
Proof.
  intros Hfail Hm. revert trials st.
  induction fuel as [|fuel IH]; intros trials st Ht Hlt; [reflexivity|].
  cbn [loop]. destruct (fn st) as [[e|] st1] eqn:Hfn.
  2:{ specialize (Hfail st). rewrite Hfn in Hfail. now contradiction Hfail. }
  destruct (iteration_failed (A:=A) fn maxRetries trials st e st1 Hfn) as [s ->]; [lia|].
  destruct (Z.eqb_spec (trials + 1) maxRetries) as [Heq|Hne]; [lia|].
  rewrite IH by lia. reflexivity.
Qed.

(** X2.  [maxRetries] zero or negative does not mean "no retry": against
    a request function that fails every time the helper does not return,
    however many turns it is given (below the 2^63 turns after which
    [trials] would wrap around). *)
Theorem withRetry_nonpositive_maxRetries_never_returns
    (fn : St -> option E * St) (maxRetries : Z) (fuel : nat) (st : St) :
  always_failing fn -> maxRetries <= 0 -> Z.of_nat fuel < 2 ^ 63 ->
  withRetryOnTooManyRequests (A:=A) fuel fn maxRetries st = None.
Proof.
  intros Hfail Hm Hfuel. apply loop_never_returns; auto; lia.
Qed.

Lemma backoffTime_15 (trials : Z) :
  pow_accurate -> 0 <= trials < 70 -> backoffTime trials = 15 * Second.
Proof.
  intros Hacc Ht. unfold backoffTime. rewrite (math_Pow_truncates trials Hacc Ht). reflexivity.
Qed.

(** X3.  Against a request function that fails every time, the helper as
    [Commit] calls it (ten trials) sleeps ten times 15 seconds, two and a
    half minutes in all, before it returns the abort error: it also
    sleeps after the tenth failure, when no retry follows. *)
Theorem withRetry_persistent_failure_sleeps
    (fn : St -> option E * St) (st : St) (fuel : nat) :
  pow_accurate -> always_failing fn -> (10 <= fuel)%nat ->
  exists st' evs,
    withRetryOnTooManyRequests (A:=A) fuel fn 10 st = Some (Some TooManyRetries, st', evs) /\
    sleeps evs = repeat (15 * Second) 10 /\
    fold_right Z.add 0 (sleeps evs) = 150 * Second /\
    last evs = Some (EvSleep (15 * Second)).
Proof.
  intros Hacc Hfail Hfuel.
  assert (Hlast : forall fuel trials st st' (evs : list (Event E)),
            0 <= trials < 10 ->
            loop (A:=A) fuel fn 10 trials st = Some (Some TooManyRetries, st', evs) ->
            last evs = Some (EvSleep (15 * Second))).
  { clear fuel st Hfuel. induction fuel as [|fuel IH]; intros trials st st' evs Ht Hrun;
      [discriminate|].
    cbn [loop] in Hrun. destruct (fn st) as [[e|] st1] eqn:Hfn.
    - destruct (iteration_failed (A:=A) fn 10 trials st e st1 Hfn) as [s Hit]; [lia|].
      rewrite Hit in Hrun.
      destruct (Z.eqb_spec (trials + 1) 10) as [Heq|Hne].
      + injection Hrun as <- <-. cbn. now rewrite backoffTime_15 by (auto; lia).
      + destruct (loop fuel fn 10 (trials + 1) st1) as [[[err1 st2] evs1]|] eqn:Hloop;
          [|discriminate].
        injection Hrun as -> <- <-.
        pose proof (IH (trials + 1) st1 st2 evs1 ltac:(lia) Hloop) as Hl.
        destruct evs1 as [|ev evs1]; [discriminate Hl|].
        exact Hl.
    - rewrite (iteration_ok fn 10 trials st st1 Hfn) in Hrun. discriminate. }
  destruct (loop_always_failing (A:=A) fn 10 fuel 0 st Hfail) as (st' & evs & Hrun & _ & Hs);
    [lia | lia | change (Z.to_nat (10 - 0)) with 10%nat; lia |].
  exists st', evs. split; [exact Hrun|].
  assert (Hsl : sleeps evs = repeat (15 * Second) 10).
  { rewrite Hs. change (Z.to_nat 0) with 0%nat. change (Z.to_nat (10 - 0)) with 10%nat.
    cbn [seq map]. rewrite !backoffTime_15 by (auto; lia). reflexivity. }
  split; [exact Hsl|]. split; [rewrite Hsl; reflexivity|].
  exact (Hlast fuel 0 st st' evs ltac:(lia) Hrun).
Qed.

End RetryMore.

Section RetryMoreWitnesses.
Import Retry.

Lemma withRetry_outcome_witness :
  0 < 10 < 2 ^ 63 /\ (Z.to_nat 10 <= 10)%nat /\
  exists err st' evs (es : list ErrorKind),
    withRetryOnTooManyRequests (H:=exact_Pow) (A:=unit) 10 (refusing Overload) 10 0%nat
      = Some (err, st', evs) /\
    sleeps evs = map (backoffTime (H:=exact_Pow)) (map Z.of_nat (seq 0 (length es))) /\
    ((err = None /\ calls evs = map Some es ++ [None] /\ Z.of_nat (length es) < 10) \/
     (err = Some TooManyRetries /\ calls evs = map Some es /\ Z.of_nat (length es) = 10)).
Proof.
  split; [lia|]. split; [reflexivity|].
  apply (withRetry_outcome (FM:=exact_Pow) (A:=unit) (refusing Overload) 10 10 0%nat).
  - lia.
  - reflexivity.
Defined.

Lemma withRetry_nonpositive_maxRetries_never_returns_witness :
  always_failing (refusing Overload) /\ 0 <= 0 /\ Z.of_nat 1000 < 2 ^ 63 /\
  withRetryOnTooManyRequests (H:=exact_Pow) (A:=unit) 1000 (refusing Overload) 0 0%nat = None.
Proof.
  split; [apply refusing_always_failing|]. split; [lia|]. split; [reflexivity|].
  apply (withRetry_nonpositive_maxRetries_never_returns (FM:=exact_Pow) (A:=unit)).
  - apply refusing_always_failing.
  - lia.
  - reflexivity.
Defined.

Lemma withRetry_persistent_failure_sleeps_witness :
  pow_accurate (H:=exact_Pow) /\ always_failing (refusing Overload) /\ (10 <= 10)%nat /\
  exists st' evs,
    withRetryOnTooManyRequests (H:=exact_Pow) (A:=unit) 10 (refusing Overload) 10 0%nat
      = Some (Some TooManyRetries, st', evs) /\
    sleeps evs = repeat (15 * Second) 10 /\
    fold_right Z.add 0 (sleeps evs) = 150 * Second /\
    last evs = Some (EvSleep (15 * Second)).
Proof.
  split; [apply exact_Pow_accurate|]. split; [apply refusing_always_failing|].
  split; [lia|].
  apply (withRetry_persistent_failure_sleeps (FM:=exact_Pow) (A:=unit)).
  - apply exact_Pow_accurate.
  - apply refusing_always_failing.
  - lia.
Defined.

End RetryMoreWitnesses.

(* --------------------------------------------------------------------- *)
(** ** More on queryFunc                                                  *)
(* --------------------------------------------------------------------- *)

Section QueryFuncMore.
Import Cli CliDemo.
Context `{QR : Querier}.

Lemma read_rows_error (rows : list (list Value)) (err : QueryError)
    (rest : list (list Value + QueryError)) (n : Z) :
  read_rows (map inl rows ++ inr err :: rest) n
    = (rows_printed rows ++ [EvRead context_Background], inl err).
Proof.
  revert n. induction rows as [|doc rows IH]; intros n; [reflexivity|].
  cbn [map app read_rows]. rewrite IH. reflexivity.
Qed.

Lemma printed_app (l1 l2 : list QEvent) : printed (l1 ++ l2) = printed l1 ++ printed l2.
Proof. apply omap_app. Qed.

Lemma printed_rows (rows : list (list Value)) :
  printed (rows_printed rows) = map (fun doc => Println_strings (map Sprintf_v doc)) rows.
Proof.
  induction rows as [|doc rows IH]; [reflexivity|].
  change (rows_printed (doc :: rows))
    with (EvRead context_Background :: EvPrint (Println_strings (map Sprintf_v doc))
            :: rows_printed rows).
  change (printed (EvRead context_Background :: EvPrint ?s :: ?l)) with (s :: printed l).
  now rewrite IH.
Qed.

Lemma cancelled_rows (rows : list (list Value)) : cancelled (rows_printed rows) = false.
Proof. induction rows as [|doc rows IH]; [reflexivity|]. exact IH. Qed.

(** X4.  When a read of the cursor fails after k rows were delivered,
    [queryFunc] has printed those k rows and nothing else, and ends in
    [logrus.Fatal] with the error of the read: what is left of the cursor
    is not read, the summary line is not printed, and since [Fatal] leaves
    the process the deferred [cancel()] does not run. *)
Theorem queryFunc_read_error (query : string) (args : list string)
    (rows : list (list Value)) (err : QueryError)
    (rest : list (list Value + QueryError)) (stats : Statistics) :
  let ctx := context_WithTimeout context_Background (30 * Second) in
  Query ctx query = inr {| Cursor := map inl rows ++ inr err :: rest; Stats := stats |} ->
  queryFunc (query :: args)
    = (EvQuery ctx query :: rows_printed rows ++ [EvRead context_Background], Fatal err) /\
  printed (queryFunc (query :: args)).1
    = map (fun doc => Println_strings (map Sprintf_v doc)) rows /\
  length (read_contexts (queryFunc (query :: args)).1) = S (length rows) /\
  cancelled (queryFunc (query :: args)).1 = false.
Proof.
  intros ctx HQ.
  assert (Hrun : queryFunc (query :: args)
    = (EvQuery ctx query :: rows_printed rows ++ [EvRead context_Background], Fatal err)).
  { unfold queryFunc. cbn [lookup list_lookup]. fold ctx. rewrite HQ. cbn [Cursor Stats].
    rewrite read_rows_error. reflexivity. }
  split; [exact Hrun|]. rewrite Hrun. cbn [fst]. split; [|split].
  - change (printed (EvQuery ctx query :: ?l)) with (printed l).
    rewrite printed_app, printed_rows. cbn. apply app_nil_r.
  - change (read_contexts (EvQuery ctx query :: ?l)) with (read_contexts l).
    unfold read_contexts. rewrite omap_app, length_app. cbn [omap length].
    assert (Hlen : forall rs : list (list Value),
      length (omap (fun ev : QEvent => match ev with EvRead c => Some c | _ => None end)
                (rows_printed rs)) = length rs).
    { induction rs as [|d rs IH]; [reflexivity|]. cbn. f_equal. exact IH. }
    rewrite Hlen. cbn. lia.
  - change (cancelled (EvQuery ctx query :: ?l)) with (cancelled l).
    unfold cancelled. rewrite existsb_app. fold (cancelled (rows_printed rows)).
    rewrite cancelled_rows. reflexivity.
Qed.

(** The events of the loop over the cursor are reads without a deadline
    and printed lines. *)
Lemma read_rows_events (cursor : list (list Value + QueryError)) (n : Z) :
  Forall (fun ev => ev = EvRead context_Background \/ exists s, ev = EvPrint s)
    (read_rows cursor n).1.
Proof.
  revert n. induction cursor as [|[doc|err] cursor IH]; intros n.
  - constructor.
  - cbn [read_rows]. specialize (IH (wrap64 (n + 1))).
    destruct (read_rows cursor (wrap64 (n + 1))) as [evs res]. cbn [fst] in *.
    constructor; [now left|]. constructor; [right; eauto | exact IH].
  - cbn. constructor; [now left | constructor].
Qed.

Lemma read_rows_quiet (cursor : list (list Value + QueryError)) (n : Z) :
  Forall (fun c => c = context_Background) (read_contexts (read_rows cursor n).1) /\
  query_contexts (read_rows cursor n).1 = [] /\
  cancelled (read_rows cursor n).1 = false.
Proof.
  pose proof (read_rows_events cursor n) as HF.
  induction HF as [|ev evs Hev HF (IH1 & IH2 & IH3)]; [repeat split; constructor|].
  destruct Hev as [-> | (s & ->)].
  - split; [|split; [exact IH2 | exact IH3]].
    change (read_contexts (EvRead context_Background :: evs))
      with (context_Background :: read_contexts evs).
    constructor; [reflexivity | exact IH1].
  - split; [exact IH1|]. split; [exact IH2 | exact IH3].
Qed.

(** X5.  Whatever the database answers, a run of [queryFunc] on at least
    one argument sends exactly one query, the first argument, under a
    deadline of 30 seconds, and ignores the other arguments; every read
    of the cursor is made with [context.Background()], so that no
    deadline bounds the reads; and the deferred [cancel()] runs exactly
    when the function returns, not when it ends in [logrus.Fatal]. *)
Theorem queryFunc_one_query_reads_unbounded (query : string) (args : list string) :
  let ctx := context_WithTimeout context_Background (30 * Second) in
  let evs := (queryFunc (query :: args)).1 in
  let exit := (queryFunc (query :: args)).2 in
  queryFunc (query :: args) = queryFunc [query] /\
  query_contexts evs = [(ctx, query)] /\
  timeout ctx = Some (30 * 1000000000) /\
  Forall (fun c => timeout c = None) (read_contexts evs) /\
  (cancelled evs = true <-> exit = Returned) /\
  (exit = Returned \/ exists err, exit = Fatal err).
Proof.
  intros ctx evs exit. split; [reflexivity|].
  subst evs exit. unfold queryFunc. cbn [lookup list_lookup]. fold ctx.
  destruct (Query ctx query) as [err|r].
  - cbn [fst snd]. split; [reflexivity|]. split; [reflexivity|].
    split; [constructor|]. split; [|right; eauto].
    split; discriminate.
  - destruct (read_rows_quiet (Cursor r) 0) as (Hr & Hq & Hc).
    destruct (read_rows (Cursor r) 0) as [evs [err|n]]; cbn [fst snd] in *.
    + split; [cbn; fold (query_contexts evs); now rewrite Hq|].
      split; [reflexivity|].
      split.
      { change (read_contexts (EvQuery ctx query :: evs)) with (read_contexts evs).
        eapply Forall_impl; [exact Hr|]. now intros c ->. }
      split; [|right; eauto].
      change (cancelled (EvQuery ctx query :: evs)) with (cancelled evs).
      rewrite Hc. split; discriminate.
    + split.
      { change (query_contexts (EvQuery ctx query :: ?l)) with ((ctx, query) :: query_contexts l).
        unfold query_contexts. rewrite omap_app. fold (query_contexts evs). now rewrite Hq. }
      split; [reflexivity|].
      split.
      { change (read_contexts (EvQuery ctx query :: ?l)) with (read_contexts l).
        unfold read_contexts. rewrite omap_app. fold (read_contexts evs). cbn [omap].
        cbn [mbind option_bind]. rewrite app_nil_r.
        eapply Forall_impl; [exact Hr|]. now intros c ->. }
      split; [|now left].
      split; [reflexivity|]. intros _.
      change (cancelled (EvQuery ctx query :: ?l)) with (cancelled l).
      unfold cancelled. rewrite existsb_app. cbn. now rewrite orb_true_r.
Qed.

End QueryFuncMore.

Section QueryFuncMoreWitness.
Import Cli CliDemo.

Lemma queryFunc_read_error_witness :
  queryFunc (H:=interrupted_querier) ["MATCH (n) RETURN n"]
    = ([EvQuery (context_WithTimeout context_Background (30 * Second)) "MATCH (n) RETURN n";
        EvRead context_Background; EvPrint ("[a]" +:+ LF); EvRead context_Background],
       @Fatal interrupted_querier "connection lost").
Proof.
  exact (proj1 (queryFunc_read_error (QR:=interrupted_querier) "MATCH (n) RETURN n" []
                  [["a"]] ("connection lost" : string) [inl ["b"]]
                  {| Parsing := 1500000; Execution := 2250000 |} eq_refl)).
Defined.

End QueryFuncMoreWitness.

(* --------------------------------------------------------------------- *)
(** ** More on the web client                                             *)
(* --------------------------------------------------------------------- *)

Section WebGetFacts.
Import Web WebGet.
Context {R : Type}.

Lemma checked_get (net : string -> Exchange R) (url : string) :
  get_outcome net (url, checked (axios_get net url)).
Proof.
  unfold get_outcome, checked, axios_get, default_validateStatus.
  destruct (net url) as [res|reason].
  - destruct (Z.leb_spec 200 (status res)) as [Hlo|Hlo];
      [destruct (Z.ltb_spec (status res) 300) as [Hhi|Hhi]|]; cbn [andb].
    + destruct (Z.eqb_spec (status res) 200) as [H200|Hne]; cbn [negb].
      * split; [|split].
        -- intros d; split; [intros [= <-]; eauto|].
           intros (res' & [= <-] & _ & <-). reflexivity.
        -- intros m; split; [discriminate|]. intros (res' & [= <-] & Hr & _). lia.
        -- intros err; split; [discriminate|].
           intros [(reason & Habs & _) | (res' & [= <-] & Hr & _)]; [discriminate | lia].
      * split; [|split].
        -- intros d; split; [discriminate|]. intros (res' & [= <-] & Hr & _). contradiction.
        -- intros m; split.
           ++ intros [= <-]. exists res. repeat split; [lia | lia].
           ++ intros (res' & [= <-] & _ & ->). reflexivity.
        -- intros err; split; [discriminate|].
           intros [(reason & Habs & _) | (res' & [= <-] & Hr & _)]; [discriminate | lia].
    + split; [|split].
      * intros d; split; [discriminate|]. intros (res' & [= <-] & Hr & _). lia.
      * intros m; split; [discriminate|]. intros (res' & [= <-] & Hr & _). lia.
      * intros err; split.
        -- intros [= <-]. right. exists res. repeat split. lia.
        -- intros [(reason & Habs & _) | (res' & [= <-] & _ & ->)];
             [discriminate | reflexivity].
    + split; [|split].
      * intros d; split; [discriminate|]. intros (res' & [= <-] & Hr & _). lia.
      * intros m; split; [discriminate|]. intros (res' & [= <-] & Hr & _). lia.
      * intros err; split.
        -- intros [= <-]. right. exists res. repeat split. lia.
        -- intros [(reason & Habs & _) | (res' & [= <-] & _ & ->)];
             [discriminate | reflexivity].
  - split; [|split].
    + intros d; split; [discriminate|]. intros (res' & Habs & _). discriminate.
    + intros m; split; [discriminate|]. intros (res' & Habs & _). discriminate.
    + intros err; split.
      * intros [= <-]. left. eauto.
      * intros [(reason' & [= <-] & ->) | (res' & Habs & _)]; [reflexivity | discriminate].
Qed.

(** X6.  Each of the four getters returns the body exactly when the
    response has status 200.  The error of their own, whose message is
    [Status code (] and the status with no closing bracket, is thrown
    exactly for the statuses 201 to 299; for every other status, and when
    there is no response, the call fails with the rejection of axios
    instead. *)
Theorem getters_status (net : string -> Exchange R) (sourceNames : list string)
    (query : string) (from size : option Z) :
  Forall (get_outcome net)
    [getSources net; getDatabaseDetails net; getSourceGraph net sourceNames;
     searchAssets net query from size].
Proof. do 4 (constructor; [apply checked_get|]). constructor. Qed.

Lemma concat_cons2 (sep x y : string) (l : list string) :
  String.concat sep (x :: y :: l) = x +:+ sep +:+ String.concat sep (y :: l).
Proof. reflexivity. Qed.

Lemma join_comma (l1 l2 : list string) (a b : string) :
  join "," (l1 ++ (a +:+ "," +:+ b) :: l2) = join "," (l1 ++ a :: b :: l2).
Proof.
  unfold join. induction l1 as [|z l1 IH].
  - cbn [app]. rewrite (concat_cons2 _ a b l2). destruct l2 as [|y l2].
    + reflexivity.
    + rewrite (concat_cons2 _ (a +:+ "," +:+ b) y l2), (concat_cons2 _ b y l2).
      now rewrite !append_assoc.
  - destruct l1 as [|z' l1].
    + cbn [app] in *. rewrite (concat_cons2 _ z a), (concat_cons2 _ z (a +:+ "," +:+ b)).
      now rewrite IH.
    + cbn [app] in *. rewrite !(concat_cons2 _ z z'). now rewrite IH.
Qed.

(** X7.  [getSourceGraph] writes the source names into the URL joined
    by commas and as they are: a source whose name is [a,b] is requested
    exactly as the two sources [a] and [b] are, at any place of the
    list. *)
Theorem getSourceGraph_comma_in_name (net : string -> Exchange R)
    (before after : list string) (a b : string) :
  getSourceGraph net (before ++ (a +:+ "," +:+ b) :: after)
    = getSourceGraph net (before ++ a :: b :: after) /\
  length (before ++ (a +:+ "," +:+ b) :: after) <> length (before ++ a :: b :: after).
Proof.
  split.
  - unfold getSourceGraph. now rewrite join_comma.
  - rewrite !length_app. cbn [length]. lia.
Qed.




End WebGetFacts.

Section WebGetWitnesses.
Import Web WebGet.

Lemma getters_status_witness :
  (getSources demo_get).2 = Returns (BodyResult ["inventory"; "dns"]) /\
  (getDatabaseDetails demo_get).2 = ThrowsError "Status code (204" /\
  (getSourceGraph demo_get ["inventory"]).2
    = ThrowsAxios (BadStatus {| status := 404; data := BodyText "404 page not found" |}).
Proof.
  pose proof (getters_status demo_get ["inventory"] "" None None) as HF.
  apply Forall_cons in HF as [H1 HF]. apply Forall_cons in HF as [H2 HF].
  apply Forall_cons in HF as [H3 _].
  hnf in H1, H2, H3.
  destruct H1 as (H1 & _), H2 as (_ & H2 & _), H3 as (_ & _ & H3).
  split; [|split].
  - apply H1. eexists. repeat split.
  - apply H2. eexists. split; [reflexivity|]. split; [cbn; lia | reflexivity].
  - apply H3. right. eexists. split; [reflexivity|]. split; [cbn; lia | reflexivity].
Defined.



End WebGetWitnesses.

(* --------------------------------------------------------------------- *)
(** ** Transaction.Commit: the jobs and the history                       *)
(* --------------------------------------------------------------------- *)

Section TxnJobs.
Import Retry Txn TxnLog.
Context `{FM : FloatMath} `{EV : Env}.

(** *** Histories that grow *)

Lemma attempts_app (f : Future) (evs tr : list Event) :
  attempts f (evs ++ tr) = attempts f tr ++ attempts f evs.
Proof. unfold attempts. now rewrite omap_app, rev_app_distr. Qed.

Lemma attempts_unconcerned (f : Future) (evs : list Event) :
  Forall (fun ev => ~ concerns f ev) evs -> attempts f evs = [].
Proof.
  induction 1 as [|ev evs Hev _ IH]; [reflexivity|].
  change (ev :: evs) with ([ev] ++ evs). rewrite attempts_app, IH.
  destruct ev as [| | | |f' [err| |]| |]; try reflexivity.
  unfold attempts. cbn. destruct (decide (f' = f)) as [Heq|Hne]; [destruct (Hev Heq) | reflexivity].
Qed.

Lemma done_unconcerned (f : Future) (evs tr : list Event) (err : option Error) :
  Forall (fun ev => ~ concerns f ev) evs -> EvDone f err ∈ evs ++ tr -> EvDone f err ∈ tr.
Proof.
  intros HF Hin. apply elem_of_app in Hin as [Hin|Hin]; [|exact Hin].
  rewrite Forall_forall in HF. destruct (HF _ Hin). reflexivity.
Qed.

(** Events that do not concern a job leave what the history tells of it. *)
Lemma job_log_unconcerned (evs tr : list Event) (f : Future) (j : Job) :
  Forall (fun ev => ~ concerns f ev) evs -> job_log tr f j -> job_log (evs ++ tr) f j.
Proof.
  intros HF. unfold job_log. rewrite attempts_app, (attempts_unconcerned f evs HF), app_nil_r.
  destruct (job_status j) as [|trials|[e|]].
  - intros [Ha Hd]. split; [exact Ha|]. intros err Hin. eapply Hd, done_unconcerned; eauto.
  - intros (Ht & Hd & Ha). split; [exact Ht|]. split; [|exact Ha].
    intros err Hin. eapply Hd, done_unconcerned; eauto.
  - intros (He & Hin & Hd & Ha). split; [exact He|]. split; [apply elem_of_app; now right|].
    split; [|exact Ha]. intros err Hin'. eapply Hd, done_unconcerned; eauto.
  - intros (Hin & Hd & Ha). split; [apply elem_of_app; now right|].
    split; [|exact Ha]. intros err Hin'. eapply Hd, done_unconcerned; eauto.
Qed.

Lemma from_main_unconcerned (f : Future) (evs : list Event) :
  Forall from_main evs -> Forall (fun ev => ~ concerns f ev) evs.
Proof.
  intros HF. eapply Forall_impl; [exact HF|].
  intros [| | | |f' [err| |]| |]; cbn; tauto.
Qed.

Lemma silent_from_main (p : prog) : Forall from_main (silent p).1.
Proof.
  induction p as [| | o k IH | | |]; try constructor.
  cbn [silent]. destruct (silent k) as [evs p']. cbn in *. constructor; [exact I | exact IH].
Qed.

Lemma silent_no_recv (p : prog) (f : Future) (err : option Error) : EvRecv f err ∉ (silent p).1.
Proof.
  induction p as [| | o k IH | | |]; try (intros Hin; inversion Hin; fail).
  cbn [silent]. destruct (silent k) as [evs p']. cbn in *.
  intros Hin. apply elem_of_cons in Hin as [Heq|Hin]; [discriminate | exact (IH Hin)].
Qed.

(** The thread of [Commit] adds events to the history: the jobs are as
    they were. *)
Lemma pool_log_main (jobs : list Job) (evs tr : list Event) :
  Forall from_main evs ->
  (forall f err, EvRecv f err ∈ evs -> EvDone f err ∈ tr) ->
  pool_log jobs tr -> pool_log jobs (evs ++ tr).
Proof.
  intros HF Hrecv (Hjobs & Hnone & Hfut). split; [|split].
  - intros f j Hj. apply job_log_unconcerned; [now apply from_main_unconcerned | eauto].
  - intros f Hf. destruct (Hnone f Hf) as [Ha Hd].
    pose proof (from_main_unconcerned f evs HF) as HU. split.
    + now rewrite attempts_app, (attempts_unconcerned f evs HU), app_nil_r.
    + intros err Hin. eapply Hd, done_unconcerned; eauto.
  - intros f err Hin. apply elem_of_app. right.
    apply elem_of_app in Hin as [Hin|Hin]; eauto.
Qed.

(** A closure is submitted. *)
Lemma pool_log_exec (jobs : list Job) (tr : list Event) (req : Request) :
  pool_log jobs tr -> pool_log (jobs ++ [queued req]) tr.
Proof.
  intros (Hjobs & Hnone & Hfut). split; [|split].
  - intros f j Hj. apply lookup_app_Some in Hj as [Hj | [Hlen Hj]]; [eauto|].
    apply list_lookup_singleton_Some in Hj as [Hz <-].
    unfold job_log. cbn. apply Hnone. lia.
  - intros f Hf. rewrite length_app in Hf. cbn in Hf. apply Hnone. lia.
  - exact Hfut.
Qed.

Lemma pool_log_continue (c : Config) (ev : Event) (p : prog) (jobs : list Job) (srv : Server) :
  from_main ev ->
  (forall f err, ev = EvRecv f err -> EvDone f err ∈ trace c) ->
  pool_log jobs (trace c) ->
  pool_log (pool (continue c [ev] p jobs srv)) (trace (continue c [ev] p jobs srv)).
Proof.
  intros Hev Hrecv Hlog. rewrite continue_spec. cbn [pool trace].
  change (rev [ev]) with [ev]. rewrite app_assoc. apply pool_log_main; [| |exact Hlog].
  - apply Forall_app. split.
    + apply Forall_forall. intros x Hx. apply (proj1 (elem_of_rev _ _)) in Hx.
      pose proof (silent_from_main p) as HF. rewrite Forall_forall in HF. exact (HF x Hx).
    + constructor; [exact Hev | constructor].
  - intros f err Hin. apply elem_of_app in Hin as [Hin|Hin].
    + apply (proj1 (elem_of_rev _ _)) in Hin. destruct (silent_no_recv _ _ _ Hin).
    + apply list_elem_of_singleton in Hin. eauto.
Qed.

Lemma step_main_pool_log (c c' : Config) :
  pool_log (pool c) (trace c) -> step_main c = Some c' -> pool_log (pool c') (trace c').
Proof.
  intros Hlog Hstep. unfold step_main in Hstep.
  destruct (main c) as [| |o k|sg k|req k|f k]; try discriminate.
  - injection Hstep as <-. apply pool_log_continue; [exact I | discriminate | exact Hlog].
  - destruct (UpdateSchema sg (server c)) as [err srv]. injection Hstep as <-.
    apply pool_log_continue; [exact I | discriminate | exact Hlog].
  - injection Hstep as <-.
    apply pool_log_continue; [exact I | discriminate | now apply pool_log_exec].
  - destruct (pool c !! f) as [[req [| |err]]|] eqn:Hj; try discriminate.
    injection Hstep as <-. apply pool_log_continue; [exact I | | exact Hlog].
    intros f' err' [= <- <-]. destruct Hlog as (Hjobs & _ & _).
    specialize (Hjobs f _ Hj). unfold job_log in Hjobs. cbn in Hjobs.
    destruct err as [e|]; tauto.
Qed.

(** *** The workers *)

Lemma attempts_retried_same (f : Future) (evs : list (Retry.Event APIError)) :
  attempts f (rev (map (EvRetry f) evs)) = calls evs.
Proof.
  induction evs as [|x evs IH]; [reflexivity|].
  cbn [map rev]. rewrite attempts_app, IH.
  destruct x as [err| |]; try reflexivity.
  unfold attempts. cbn. destruct (decide (f = f)) as [_|Hne]; [reflexivity | contradiction].
Qed.

(** A job moves: the other jobs are as they were. *)
Lemma pool_log_worker (jobs : list Job) (tr evs : list Event) (f : Future) (j j' : Job) :
  jobs !! f = Some j ->
  Forall (fun ev => forall f', f' <> f -> ~ concerns f' ev) evs ->
  (forall f' err, EvRecv f' err ∉ evs) ->
  job_log (evs ++ tr) f j' ->
  pool_log jobs tr -> pool_log (<[f := j']> jobs) (evs ++ tr).
Proof.
  intros Hj HF Hnr Hnew (Hjobs & Hnone & Hfut).
  assert (HU : forall f', f' <> f -> Forall (fun ev => ~ concerns f' ev) evs).
  { intros f' Hne. eapply Forall_impl; [exact HF|]. cbn. auto. }
  pose proof (lookup_lt_Some _ _ _ Hj) as Hlt.
  split; [|split].
  - intros f' j0 Hj0. destruct (decide (f' = f)) as [->|Hne].
    + rewrite list_lookup_insert_eq in Hj0 by exact Hlt. now injection Hj0 as <-.
    + rewrite list_lookup_insert_ne in Hj0 by auto.
      apply job_log_unconcerned; [auto | eauto].
  - intros f' Hf'. rewrite length_insert in Hf'.
    assert (Hne : f' <> f) by lia. destruct (Hnone f' Hf') as [Ha Hd]. split.
    + now rewrite attempts_app, (attempts_unconcerned f' evs (HU f' Hne)), app_nil_r.
    + intros err Hin. eapply Hd, done_unconcerned; [exact (HU f' Hne) | exact Hin].
  - intros f' err Hin. apply elem_of_app. right.
    apply elem_of_app in Hin as [Hin|Hin]; [destruct (Hnr _ _ Hin) | eauto].
Qed.

Lemma step_start_pool_log (size : Z) (f : Future) (c c' : Config) :
  pool_log (pool c) (trace c) -> step_start size f c = Some c' ->
  pool_log (pool c') (trace c').
Proof.
  intros Hlog Hstep. unfold step_start in Hstep.
  destruct (pool c !! f) as [[req [| |]]|] eqn:Hj; try discriminate.
  destruct (_ <? size); [|discriminate]. injection Hstep as <-. cbn [pool trace].
  apply (pool_log_worker _ _ [EvStart f] _ _ _ Hj); [| | |exact Hlog].
  - constructor; [|constructor]. intros f' _ [].
  - intros f' err Hin. apply list_elem_of_singleton in Hin. discriminate.
  - destruct Hlog as (Hjobs & _ & _). specialize (Hjobs f _ Hj).
    unfold job_log in *. cbn in *. destruct Hjobs as [Ha Hd].
    split; [lia|]. split.
    + intros err Hin. apply elem_of_cons in Hin as [Heq|Hin]; [discriminate | eapply Hd; eauto].
    + exists []. split; [exact Ha | reflexivity].
Qed.

Lemma retried_concerns (f : Future) (evs : list (Retry.Event APIError)) :
  Forall (fun ev : Event => forall f', f' <> f -> ~ concerns f' ev) (rev (map (EvRetry f) evs)).
Proof.
  apply Forall_forall. intros ev Hin. apply (proj1 (elem_of_rev _ _)), list_elem_of_In, in_map_iff in Hin
    as (x & <- & _).
  intros f' Hne. destruct x; cbn; auto.
Qed.

Lemma retried_no_event (f : Future) (evs : list (Retry.Event APIError)) (ev : Event) :
  (forall x, ev <> EvRetry f x) -> ev ∉ rev (map (EvRetry f) evs).
Proof.
  intros Hev Hin. apply (proj1 (elem_of_rev _ _)), list_elem_of_In, in_map_iff in Hin as (x & Hx & _).
  exact (Hev x (eq_sym Hx)).
Qed.

Lemma step_work_pool_log (f : Future) (c c' : Config) :
  pool_log (pool c) (trace c) -> step_work f c = Some c' ->
  pool_log (pool c') (trace c').
Proof.
  intros Hlog Hstep. unfold step_work in Hstep.
  destruct (pool c !! f) as [[req [|trials|]]|] eqn:Hj; try discriminate.
  pose proof Hlog as (Hjobs & _ & _). specialize (Hjobs f _ Hj).
  unfold job_log in Hjobs. cbn in Hjobs. destruct Hjobs as (Ht & Hd & es & Ha & Hlen).
  destruct (perform req (server c)) as [[e|] srv1] eqn:Hfn.
  - destruct (iteration_failed (A:=Arg) (perform req) 10 trials (server c) e srv1 Hfn
                ltac:(lia)) as [s Hit].
    rewrite Hit in Hstep. clear Hit.
    destruct (Z.eqb_spec (trials + 1) 10) as [H10|H10]; injection Hstep as <-; cbn [pool trace].
    + apply (pool_log_worker _ (trace c)
               ([EvDone f (Some (chunk_error req TooManyRetries))]
                  ++ rev (map (EvRetry f) [EvCall (Some e); EvPrintf s;
                                           EvSleep (backoffTime trials)])) _ _ _ Hj);
        [| | |exact Hlog].
      * apply Forall_app. split; [|apply retried_concerns].
        constructor; [|constructor]. intros f' Hne Heq. cbn in Heq. congruence.
      * intros f' err Hin. apply elem_of_app in Hin as [Hin|Hin].
        -- apply list_elem_of_singleton in Hin. discriminate.
        -- revert Hin. apply retried_no_event. discriminate.
      * unfold job_log. cbn [job_status job_req]. split; [reflexivity|].
        rewrite <- app_assoc. split; [apply elem_of_app; left; apply elem_of_cons; now left|].
        split.
        -- intros err Hin. apply elem_of_app in Hin as [Hin|Hin].
           ++ apply list_elem_of_singleton in Hin. now injection Hin as <-.
           ++ apply elem_of_app in Hin as [Hin|Hin]; [|destruct (Hd _ Hin)].
              exfalso. revert Hin. apply retried_no_event. discriminate.
        -- exists (es ++ [e]). rewrite !attempts_app, attempts_retried_same, Ha.
           cbn. rewrite map_app, app_nil_r. split; [reflexivity|].
           rewrite length_app. cbn. lia.
    + apply (pool_log_worker _ (trace c)
               (rev (map (EvRetry f) [EvCall (Some e); EvPrintf s;
                                      EvSleep (backoffTime trials)])) _ _ _ Hj);
        [| | |exact Hlog].
      * apply retried_concerns.
      * intros f' err. apply retried_no_event. discriminate.
      * unfold job_log. cbn [job_status job_req]. split; [lia|]. split.
        -- intros err Hin. apply elem_of_app in Hin as [Hin|Hin]; [|destruct (Hd _ Hin)].
           revert Hin. apply retried_no_event. discriminate.
        -- exists (es ++ [e]). rewrite attempts_app, attempts_retried_same, Ha.
           cbn. rewrite map_app. split; [reflexivity|].
           rewrite length_app. cbn. lia.
  - rewrite (iteration_ok (A:=Arg) (perform req) 10 trials (server c) srv1 Hfn) in Hstep.
    injection Hstep as <-. cbn [pool trace].
    apply (pool_log_worker _ (trace c)
             ([EvDone f None; EvOut (OutProgress (PbAdd (chunk_len req)))]
                ++ rev (map (EvRetry f) [EvCall None])) _ _ _ Hj);
      [| | |exact Hlog].
    + apply Forall_app. split; [|apply retried_concerns].
      constructor; [|constructor; [|constructor]].
      * intros f' Hne Heq. cbn in Heq. congruence.
      * intros f' Hne [].
    + intros f' err Hin. apply elem_of_app in Hin as [Hin|Hin].
      * apply elem_of_cons in Hin as [Hin|Hin]; [discriminate|].
        apply list_elem_of_singleton in Hin. discriminate.
      * revert Hin. apply retried_no_event. discriminate.
    + unfold job_log. cbn [job_status job_req].
      rewrite <- app_assoc. split; [apply elem_of_app; left; apply elem_of_cons; now left|].
      split.
      * intros err Hin. apply elem_of_app in Hin as [Hin|Hin].
        -- apply elem_of_cons in Hin as [Hin|Hin]; [now injection Hin as <-|].
           apply list_elem_of_singleton in Hin. discriminate.
        -- apply elem_of_app in Hin as [Hin|Hin]; [|destruct (Hd _ Hin)].
           exfalso. revert Hin. apply retried_no_event. discriminate.
      * exists es. rewrite !attempts_app, attempts_retried_same, Ha.
        cbn. rewrite app_nil_r. split; [reflexivity | lia].
Qed.

Lemma step_pool_log (size : Z) (ch : Choice) (c c' : Config) :
  pool_log (pool c) (trace c) -> step size ch c = Some c' -> pool_log (pool c') (trace c').
Proof.
  destruct ch; cbn; eauto using step_main_pool_log, step_start_pool_log, step_work_pool_log.
Qed.

Lemma run_pool_log (size : Z) (sched : list Choice) (c c' : Config) :
  pool_log (pool c) (trace c) -> run size sched c = Some c' -> pool_log (pool c') (trace c').
Proof.
  revert c. induction sched as [|ch sched IH]; intros c HI Hrun; cbn in Hrun.
  - now injection Hrun as <-.
  - destruct (step size ch c) as [c1|] eqn:Hstep; [|discriminate].
    eauto using step_pool_log.
Qed.

Lemma initial_pool_log (cgt : Transaction) (h : gmap loc Graph) (srv : Server) :
  pool_log (pool (initial cgt h srv)) (trace (initial cgt h srv)).
Proof.
  rewrite initial_spec. cbn [pool trace]. rewrite <- (app_nil_r (rev _)).
  apply pool_log_main.
  - apply Forall_forall. intros x Hx. apply (proj1 (elem_of_rev _ _)) in Hx.
    pose proof (silent_from_main (Commit cgt h)) as HF. rewrite Forall_forall in HF.
    exact (HF x Hx).
  - intros f err Hin. apply (proj1 (elem_of_rev _ _)) in Hin. destruct (silent_no_recv _ _ _ Hin).
  - split; [|split].
    + intros f j Hj. discriminate.
    + intros f _. split; [reflexivity|]. intros err Hin. inversion Hin.
    + intros f err Hin. inversion Hin.
Qed.

(** In every run of [Commit] the history agrees with the pool. *)
Lemma commit_run_pool_log (cgt : Transaction) (h : gmap loc Graph) (srv : Server)
    (sched : list Choice) (c : Config) :
  commit_run cgt h srv sched = Some c -> pool_log (pool c) (trace c).
Proof. apply run_pool_log, initial_pool_log. Qed.

End TxnJobs.

Section TxnStages.
Import Retry Txn TxnLog.
Context `{FM : FloatMath} `{EV : Env}.
Context (cgt : Transaction) (h : gmap loc Graph) (new : Graph).
Hypothesis Hnew : h !! newGraph cgt = Some new.

Local Abbreviation RA := (phaseA_requests cgt h new).
Local Abbreviation RB := (phaseB_requests cgt h new).

(** *** The stages of Commit, with the futures they hold *)

Lemma stage_log_mono (st : Stage) (reqs : list Request) (evs tr : list Event) :
  stage_log cgt h new st reqs tr -> stage_log cgt h new st reqs (evs ++ tr).
Proof.
  destruct st; cbn; try tauto.
  - intros (H1 & n & H2 & H3 & H4). split; [exact H1|]. exists n. auto using received_mono.
  - intros (H1 & H2 & H3 & H4). auto using received_mono.
  - intros (H1 & H2 & H3 & H4). auto using received_mono.
  - intros (H1 & n & H2 & H3 & H4). split; [exact H1|]. exists n. auto using received_mono.
  - intros [(H1 & e & H2 & H3) | (f & H1 & H2 & H3)].
    + left. split; [exact H1|]. exists e. split; [exact H2|]. apply elem_of_app. now right.
    + right. exists f. split; [apply elem_of_app; now right|].
      split; [now apply received_mono | exact H3].
  - intros (H1 & H2). auto using received_mono.
Qed.

Lemma seq_nil_inv (n k : nat) : seq n k = [] -> k = 0%nat.
Proof. destruct k; [reflexivity | discriminate]. Qed.

Lemma seq_cons_inv (n k f : nat) (rest : list nat) :
  seq n k = f :: rest -> f = n /\ exists m, k = S m /\ rest = seq (S n) m.
Proof. destruct k as [|m]; [discriminate|]. cbn. intros [= <- <-]. eauto. Qed.

Lemma settled_RecvB (rest : list Future) (reqs : list Request) (tr : list Event) :
  stage_log cgt h new (StRecvB rest) reqs tr ->
  exists st, norm (stage_prog cgt h new st) = norm (stage_prog cgt h new (StRecvB rest)) /\
             stage_log cgt h new st reqs tr /\ ready st.
Proof.
  intros Hf. destruct rest as [|f rest].
  - exists StOk. split; [reflexivity|]. split; [|exact I].
    destruct Hf as (-> & n & Hn & Hrest & Hrec). symmetry in Hrest.
    apply seq_nil_inv in Hrest. split; [reflexivity|].
    replace (length RA + length RB)%nat with n by lia. exact Hrec.
  - exists (StRecvB (f :: rest)). split; [reflexivity | split; [exact Hf | exact I]].
Qed.

Lemma settled_ExecB2 (rest : list (list Relation)) (futures : list Future)
    (reqs : list Request) (tr : list Event) :
  stage_log cgt h new (StExecB2 rest futures) reqs tr ->
  exists st, norm (stage_prog cgt h new st) = norm (stage_prog cgt h new (StExecB2 rest futures)) /\
             stage_log cgt h new st reqs tr /\ ready st.
Proof.
  intros Hf. destruct rest as [|c rest].
  - apply (settled_RecvB futures). destruct Hf as (H1 & H2 & H3 & H4).
    cbn in H1. rewrite app_nil_r in H1. split; [exact H1|].
    exists (length RA). rewrite H1, length_app in H3. rewrite H1, length_app in H2.
    split; [lia|]. split; [exact H3 | exact H4].
  - exists (StExecB2 (c :: rest) futures). split; [reflexivity | split; [exact Hf | exact I]].
Qed.

Lemma settled_ExecB1 (rest : list (list Asset)) (futures : list Future)
    (reqs : list Request) (tr : list Event) :
  stage_log cgt h new (StExecB1 rest futures) reqs tr ->
  exists st, norm (stage_prog cgt h new st) = norm (stage_prog cgt h new (StExecB1 rest futures)) /\
             stage_log cgt h new st reqs tr /\ ready st.
Proof.
  intros Hf. destruct rest as [|c rest].
  - apply (settled_ExecB2 (relationInsertionChunks cgt h new) futures). exact Hf.
  - exists (StExecB1 (c :: rest) futures). split; [reflexivity | split; [exact Hf | exact I]].
Qed.

Lemma settled_RecvA (rest : list Future) (reqs : list Request) (tr : list Event) :
  stage_log cgt h new (StRecvA rest) reqs tr ->
  exists st, norm (stage_prog cgt h new st) = norm (stage_prog cgt h new (StRecvA rest)) /\
             stage_log cgt h new st reqs tr /\ ready st.
Proof.
  intros Hf. destruct rest as [|f rest].
  - apply (settled_ExecB1 (assetRemovalsChunks cgt h new) []).
    destruct Hf as (-> & n & Hn & Hrest & Hrec). symmetry in Hrest.
    apply seq_nil_inv in Hrest. assert (n = length RA) as -> by lia.
    cbn. split; [reflexivity|]. split; [lia|]. rewrite Nat.sub_diag. split; [reflexivity | exact Hrec].
  - exists (StRecvA (f :: rest)). split; [reflexivity | split; [exact Hf | exact I]].
Qed.

Lemma settled_ExecA2 (rest : list (list Asset)) (futures : list Future)
    (reqs : list Request) (tr : list Event) :
  stage_log cgt h new (StExecA2 rest futures) reqs tr ->
  exists st, norm (stage_prog cgt h new st) = norm (stage_prog cgt h new (StExecA2 rest futures)) /\
             stage_log cgt h new st reqs tr /\ ready st.
Proof.
  intros Hf. destruct rest as [|c rest].
  - apply (settled_RecvA futures). destruct Hf as (H1 & H2).
    cbn in H1. rewrite app_nil_r in H1. subst reqs. split; [reflexivity|].
    exists 0%nat. rewrite Nat.sub_0_r. split; [lia|]. split; [exact H2|].
    intros f Hf. lia.
  - exists (StExecA2 (c :: rest) futures). split; [reflexivity | split; [exact Hf | exact I]].
Qed.

Lemma settled_ExecA1 (rest : list (list Relation)) (futures : list Future)
    (reqs : list Request) (tr : list Event) :
  stage_log cgt h new (StExecA1 rest futures) reqs tr ->
  exists st, norm (stage_prog cgt h new st) = norm (stage_prog cgt h new (StExecA1 rest futures)) /\
             stage_log cgt h new st reqs tr /\ ready st.
Proof.
  intros Hf. destruct rest as [|c rest].
  - apply (settled_ExecA2 (assetInsertionChunks cgt h new) futures). exact Hf.
  - exists (StExecA1 (c :: rest) futures). split; [reflexivity | split; [exact Hf | exact I]].
Qed.

Lemma settled_stage (st : Stage) (reqs : list Request) (tr : list Event) :
  stage_log cgt h new st reqs tr ->
  exists st', norm (stage_prog cgt h new st') = norm (stage_prog cgt h new st) /\
              stage_log cgt h new st' reqs tr /\ ready st'.
Proof.
  destruct st; eauto using settled_ExecA1, settled_ExecA2, settled_RecvA,
    settled_ExecB1, settled_ExecB2, settled_RecvB.
  - intros Hf. exists StSchema. split; [reflexivity | split; [exact Hf | exact I]].
  - intros Hf. exists (StFailed err). split; [reflexivity | split; [exact Hf | exact I]].
  - intros Hf. exists StOk. split; [reflexivity | split; [exact Hf | exact I]].
Qed.

Lemma staged_continue (c : Config) (evs : list Event) (p : prog) (jobs : list Job)
    (srv : Server) (st : Stage) :
  norm p = norm (stage_prog cgt h new st) ->
  stage_log cgt h new st (map job_req jobs) (rev evs ++ trace c) ->
  staged cgt h new (continue c evs p jobs srv).
Proof.
  intros Hp Hf. rewrite continue_spec. exists st. cbn [main pool trace].
  split; [exact Hp|]. now apply stage_log_mono.
Qed.

Lemma pool_done (jobs : list Job) (tr : list Event) (f : Future) (req : Request)
    (err : option Error) :
  pool_log jobs tr -> jobs !! f = Some {| job_req := req; job_status := Done err |} ->
  EvDone f err ∈ tr.
Proof.
  intros (Hjobs & _ & _) Hj. specialize (Hjobs f _ Hj). unfold job_log in Hjobs.
  cbn in Hjobs. destruct err as [e|]; tauto.
Qed.

Lemma received_next (n : nat) (ev : Event) (tr : list Event) :
  received n tr -> ev = EvRecv n None -> EvDone n None ∈ tr -> received (S n) (ev :: tr).
Proof.
  intros Hrec -> Hd f Hf. destruct (decide (f = n)) as [->|Hne].
  - split; [apply elem_of_cons; now left | apply elem_of_cons; now right].
  - destruct (Hrec f ltac:(lia)). split; apply elem_of_cons; auto.
Qed.

Lemma step_main_staged (c c' : Config) :
  staged cgt h new c -> pool_log (pool c) (trace c) ->
  step_main c = Some c' -> staged cgt h new c'.
Proof.
  intros (st0 & Hmain & Hfacts0) Hlog Hstep.
  destruct (settled_stage st0 _ _ Hfacts0) as (st & Hnorm & Hfacts & Hready).
  rewrite <- Hnorm in Hmain. clear st0 Hfacts0 Hnorm.
  unfold step_main in Hstep.
  destruct st as [|rest futs|rest futs|rest|rest futs|rest futs|rest|err|].
  - (* the schema upload *)
    unfold stage_prog, Commit in Hmain. rewrite Hnew in Hmain.
    unfold Println in Hmain. rewrite norm_Emit in Hmain.
    change (norm (CallUpdateSchema ?sg ?k)) with (CallUpdateSchema sg k) in Hmain.
    rewrite Hmain in Hstep. cbn in Hfacts.
    destruct (UpdateSchema (ExtractSchema new) (server c)) as [[e|] srv]; injection Hstep as <-.
    + apply (staged_continue _ _ _ _ _ (StFailed (schema_error e))); [reflexivity|].
      cbn. left. split; [now rewrite Hfacts|]. exists e. split; [reflexivity|].
      apply elem_of_cons. now left.
    + apply (staged_continue _ _ _ _ _ (StExecA1 (relationRemovalsChunks cgt h new) [])).
      * unfold upload, Println. rewrite !norm_Emit. reflexivity.
      * cbn. rewrite Hfacts. split; reflexivity.
  - (* a relation-removal chunk is submitted *)
    destruct rest as [|ch rest]; [destruct Hready|].
    change (norm (stage_prog cgt h new (StExecA1 (ch :: rest) futs)))
      with (Exec (ReqDeleteRelations ch)
              (fun f => stage_prog cgt h new (StExecA1 rest (futs ++ [f])))) in Hmain.
    rewrite Hmain in Hstep. injection Hstep as <-.
    destruct Hfacts as [HA Hfuts].
    apply (staged_continue _ _ _ _ _ (StExecA1 rest (futs ++ [length (pool c)])));
      [reflexivity|].
    rewrite map_app. cbn. split.
    + rewrite <- HA. cbn. now rewrite <- app_assoc.
    + rewrite Hfuts, length_app, length_map. cbn. rewrite Nat.add_1_r. apply seq_snoc.
  - (* an asset-upsert chunk is submitted *)
    destruct rest as [|ch rest]; [destruct Hready|].
    change (norm (stage_prog cgt h new (StExecA2 (ch :: rest) futs)))
      with (Exec (ReqInsertAssets ch)
              (fun f => stage_prog cgt h new (StExecA2 rest (futs ++ [f])))) in Hmain.
    rewrite Hmain in Hstep. injection Hstep as <-.
    destruct Hfacts as [HA Hfuts].
    apply (staged_continue _ _ _ _ _ (StExecA2 rest (futs ++ [length (pool c)])));
      [reflexivity|].
    rewrite map_app. cbn. split.
    + rewrite <- HA. cbn. now rewrite <- app_assoc.
    + rewrite Hfuts, length_app, length_map. cbn. rewrite Nat.add_1_r. apply seq_snoc.
  - (* a future of phase A is received *)
    destruct rest as [|f rest]; [destruct Hready|].
    change (norm (stage_prog cgt h new (StRecvA (f :: rest))))
      with (Recv f (fun err => match err with
                               | Some e => return_deferred None (Some e) cgt h
                               | None => stage_prog cgt h new (StRecvA rest)
                               end)) in Hmain.
    rewrite Hmain in Hstep.
    destruct (pool c !! f) as [[req [| |err]]|] eqn:Hjob; try discriminate.
    injection Hstep as <-.
    destruct Hfacts as (HA & n & Hn & Hrest & Hrec).
    symmetry in Hrest. apply seq_cons_inv in Hrest as (-> & m & Hm & ->).
    pose proof (pool_done _ _ _ _ _ Hlog Hjob) as Hdone.
    destruct err as [e|].
    + apply (staged_continue _ _ _ _ _ (StFailed e)); [reflexivity|].
      cbn. right. exists n. split; [apply elem_of_cons; now left|].
      split; [apply (received_mono _ [_]); exact Hrec|]. left. split; [lia | exact HA].
    + apply (staged_continue _ _ _ _ _ (StRecvA (seq (S n) m))); [reflexivity|].
      cbn. split; [exact HA|]. exists (S n). split; [lia|]. split; [f_equal; lia|].
      now apply received_next.
  - (* an asset-removal chunk is submitted *)
    destruct rest as [|ch rest]; [destruct Hready|].
    change (norm (stage_prog cgt h new (StExecB1 (ch :: rest) futs)))
      with (Exec (ReqDeleteAssets ch)
              (fun f => stage_prog cgt h new (StExecB1 rest (futs ++ [f])))) in Hmain.
    rewrite Hmain in Hstep. injection Hstep as <-.
    destruct Hfacts as (HAB & Hlen & Hfuts & Hrec).
    apply (staged_continue _ _ _ _ _ (StExecB1 rest (futs ++ [length (pool c)])));
      [reflexivity|].
    rewrite map_app. cbn. rewrite length_map in Hlen, Hfuts. split; [|split; [|split]].
    + rewrite <- HAB. cbn. now rewrite <- app_assoc.
    + rewrite length_app, length_map. lia.
    + rewrite length_app, length_map. cbn.
      replace (length (pool c) + 1 - length RA)%nat with (S (length (pool c) - length RA)) by lia.
      rewrite seq_S, Hfuts. do 2 f_equal. lia.
    + apply (received_mono _ [_]). exact Hrec.
  - (* a relation-upsert chunk is submitted *)
    destruct rest as [|ch rest]; [destruct Hready|].
    change (norm (stage_prog cgt h new (StExecB2 (ch :: rest) futs)))
      with (Exec (ReqInsertRelations ch)
              (fun f => stage_prog cgt h new (StExecB2 rest (futs ++ [f])))) in Hmain.
    rewrite Hmain in Hstep. injection Hstep as <-.
    destruct Hfacts as (HAB & Hlen & Hfuts & Hrec).
    apply (staged_continue _ _ _ _ _ (StExecB2 rest (futs ++ [length (pool c)])));
      [reflexivity|].
    rewrite map_app. cbn. rewrite length_map in Hlen, Hfuts. split; [|split; [|split]].
    + rewrite <- HAB. cbn. now rewrite <- app_assoc.
    + rewrite length_app, length_map. lia.
    + rewrite length_app, length_map. cbn.
      replace (length (pool c) + 1 - length RA)%nat with (S (length (pool c) - length RA)) by lia.
      rewrite seq_S, Hfuts. do 2 f_equal. lia.
    + apply (received_mono _ [_]). exact Hrec.
  - (* a future of phase B is received *)
    destruct rest as [|f rest]; [destruct Hready|].
    change (norm (stage_prog cgt h new (StRecvB (f :: rest))))
      with (Recv f (fun err => match err with
                               | Some e => return_deferred None (Some e) cgt h
                               | None => stage_prog cgt h new (StRecvB rest)
                               end)) in Hmain.
    rewrite Hmain in Hstep.
    destruct (pool c !! f) as [[req [| |err]]|] eqn:Hjob; try discriminate.
    injection Hstep as <-.
    destruct Hfacts as (HAB & n & Hn & Hrest & Hrec).
    symmetry in Hrest. apply seq_cons_inv in Hrest as (-> & m & Hm & ->).
    pose proof (pool_done _ _ _ _ _ Hlog Hjob) as Hdone.
    destruct err as [e|].
    + apply (staged_continue _ _ _ _ _ (StFailed e)); [reflexivity|].
      cbn. right. exists n. split; [apply elem_of_cons; now left|].
      split; [apply (received_mono _ [_]); exact Hrec|]. right. split; [lia | exact HAB].
    + apply (staged_continue _ _ _ _ _ (StRecvB (seq (S n) m))); [reflexivity|].
      cbn. split; [exact HAB|]. exists (S n). split; [lia|]. split; [f_equal; lia|].
      now apply received_next.
  - (* Commit has returned an error *)
    cbn in Hmain. rewrite Hmain in Hstep. discriminate.
  - (* Commit has returned the graph *)
    cbn in Hmain. rewrite Hmain in Hstep. discriminate.
Qed.

Lemma staged_worker (c : Config) (f : Future) (req : Request) (st0 st1 : Status)
    (srv : Server) (evs : list Event) :
  pool c !! f = Some {| job_req := req; job_status := st0 |} ->
  staged cgt h new c ->
  staged cgt h new
    {| main := main c;
       pool := <[f := {| job_req := req; job_status := st1 |}]> (pool c);
       server := srv;
       trace := evs ++ trace c |}.
Proof.
  intros Hj (st & Hmain & Hfacts). exists st. cbn [main pool trace].
  split; [exact Hmain|]. rewrite (map_req_insert _ _ _ _ _ Hj). now apply stage_log_mono.
Qed.

Lemma step_staged (size : Z) (ch : Choice) (c c' : Config) :
  staged cgt h new c -> pool_log (pool c) (trace c) ->
  step size ch c = Some c' -> staged cgt h new c'.
Proof.
  intros Hst Hlog Hstep. destruct ch as [|f|f]; cbn in Hstep.
  - eapply step_main_staged; eauto.
  - unfold step_start in Hstep.
    destruct (pool c !! f) as [[req [| |]]|] eqn:Hj; try discriminate.
    destruct (_ <? size); [|discriminate]. injection Hstep as <-.
    now apply (staged_worker c f req Queued (Running 0) (server c) [EvStart f] Hj).
  - unfold step_work in Hstep.
    destruct (pool c !! f) as [[req [|trials|]]|] eqn:Hj; try discriminate.
    destruct (iteration (perform req) 10 trials (server c)) as [[it srv] evs].
    destruct it as [trials'|[err|]]; injection Hstep as <-.
    + now apply (staged_worker c f req (Running trials) (Running trials') srv _ Hj).
    + now apply (staged_worker c f req (Running trials) (Done (Some (chunk_error req err))) srv
                   ([EvDone f (Some (chunk_error req err))] ++ _) Hj).
    + now apply (staged_worker c f req (Running trials) (Done None) srv
                   ([EvDone f None; EvOut (OutProgress (PbAdd (chunk_len req)))] ++ _) Hj).
Qed.

Lemma run_staged (size : Z) (sched : list Choice) (c c' : Config) :
  staged cgt h new c -> pool_log (pool c) (trace c) ->
  run size sched c = Some c' -> staged cgt h new c'.
Proof.
  revert c. induction sched as [|ch sched IH]; intros c Hst Hlog Hrun; cbn in Hrun.
  - now injection Hrun as <-.
  - destruct (step size ch c) as [c1|] eqn:Hstep; [|discriminate].
    eapply IH; [eapply step_staged | eapply step_pool_log |]; eauto.
Qed.

(** In every run [Commit] is at a stage. *)
Lemma commit_run_staged (srv : Server) (sched : list Choice) (c : Config) :
  commit_run cgt h srv sched = Some c -> staged cgt h new c.
Proof.
  apply run_staged; [|apply initial_pool_log].
  rewrite initial_spec. exists StSchema. cbn [main pool trace]. split; reflexivity.
Qed.

(** How [Commit] has returned, and what the history holds then. *)
Lemma staged_returned (c : Config) (g : option loc) (err : option Error)
    (cgt' : Transaction) (h' : gmap loc Graph) :
  staged cgt h new c -> main c = Ret g err cgt' h' ->
  (exists e, err = Some e /\ failed_at cgt h new e (map job_req (pool c)) (trace c)) \/
  (err = None /\ map job_req (pool c) = RA ++ RB /\
   received (length RA + length RB) (trace c)).
Proof.
  intros (st0 & Hmain & Hfacts0) Hret.
  destruct (settled_stage st0 _ _ Hfacts0) as (st & Hnorm & Hfacts & Hready).
  rewrite <- Hnorm, Hret in Hmain. clear st0 Hfacts0 Hnorm.
  destruct st as [|rest futs|rest futs|rest|rest futs|rest futs|rest|e|];
    try (destruct rest; [destruct Hready | discriminate Hmain]).
  - unfold stage_prog, Commit in Hmain. rewrite Hnew in Hmain.
    unfold Println in Hmain. rewrite norm_Emit in Hmain. discriminate Hmain.
  - injection Hmain as -> -> -> ->. left. eauto.
  - injection Hmain as -> -> -> ->. right. cbn in Hfacts. tauto.
Qed.

End TxnStages.

Section TxnOutcomes.
Import Retry Txn TxnLog.
Context `{FM : FloatMath} `{EV : Env}.

(** *** What a returned job has done *)

Lemma done_in_pool (jobs : list Job) (tr : list Event) (f : Future) (err : option Error) :
  pool_log jobs tr -> EvDone f err ∈ tr ->
  exists j, jobs !! f = Some j /\ job_status j = Done err.
Proof.
  intros (Hjobs & Hnone & _) Hin.
  destruct (jobs !! f) as [j|] eqn:Hj.
  - exists j. split; [reflexivity|]. specialize (Hjobs f j Hj). unfold job_log in Hjobs.
    destruct (job_status j) as [|trials|[e|]].
    + destruct Hjobs as [_ Hd]. destruct (Hd _ Hin).
    + destruct Hjobs as (_ & Hd & _). destruct (Hd _ Hin).
    + destruct Hjobs as (_ & _ & Hd & _). now rewrite (Hd _ Hin).
    + destruct Hjobs as (_ & Hd & _). now rewrite (Hd _ Hin).
  - apply lookup_ge_None in Hj. destruct (Hnone f Hj) as [_ Hd]. destruct (Hd _ Hin).
Qed.

Lemma done_nil_accepted (jobs : list Job) (tr : list Event) (f : Future) :
  pool_log jobs tr -> EvDone f None ∈ tr ->
  exists es, attempts f tr = map Some es ++ [None] /\ (length es < 10)%nat.
Proof.
  intros Hlog Hin. destruct (done_in_pool _ _ _ _ Hlog Hin) as (j & Hj & Hst).
  destruct Hlog as (Hjobs & _ & _). specialize (Hjobs f j Hj). unfold job_log in Hjobs.
  rewrite Hst in Hjobs. tauto.
Qed.

Lemma done_error_refused (jobs : list Job) (tr : list Event) (f : Future) (e : Error) :
  pool_log jobs tr -> EvDone f (Some e) ∈ tr ->
  exists j es, jobs !! f = Some j /\ e = chunk_error (job_req j) TooManyRetries /\
               attempts f tr = map Some es /\ length es = 10%nat.
Proof.
  intros Hlog Hin. destruct (done_in_pool _ _ _ _ Hlog Hin) as (j & Hj & Hst).
  destruct Hlog as (Hjobs & _ & _). specialize (Hjobs f j Hj). unfold job_log in Hjobs.
  rewrite Hst in Hjobs. destruct Hjobs as (He & _ & _ & es & Ha & Hlen).
  exists j, es. auto.
Qed.

Lemma done_once (jobs : list Job) (tr : list Event) (f : Future) (err1 err2 : option Error) :
  pool_log jobs tr -> EvDone f err1 ∈ tr -> EvDone f err2 ∈ tr -> err1 = err2.
Proof.
  intros Hlog H1 H2.
  destruct (done_in_pool _ _ _ _ Hlog H1) as (j1 & Hj1 & Hst1).
  destruct (done_in_pool _ _ _ _ Hlog H2) as (j2 & Hj2 & Hst2).
  rewrite Hj1 in Hj2. injection Hj2 as <-. rewrite Hst1 in Hst2. now injection Hst2.
Qed.

Lemma not_elem_of_map_Some {T : Type} (es : list T) : None ∉ map Some es.
Proof. intros Hin. apply list_elem_of_In, in_map_iff in Hin as (x & Hx & _). discriminate. Qed.

(** X10.  When [Commit] returns without an error, the requests that
    were submitted are exactly the chunks of phase A followed by those of
    phase B, each once; for each of them the job has returned [nil] and
    its future was received; and the server accepted each chunk at the
    last request made for it, after at most nine refusals. *)
Theorem commit_success_all_accepted
    (cgt : Transaction) (h : gmap loc Graph) (new : Graph) (srv : Server)
    (sched : list Choice) (c : Config)
    (g : option loc) (cgt' : Transaction) (h' : gmap loc Graph) :
  h !! newGraph cgt = Some new ->
  commit_run cgt h srv sched = Some c ->
  main c = Ret g None cgt' h' ->
  let reqs := phaseA_requests cgt h new ++ phaseB_requests cgt h new in
  map job_req (pool c) = reqs /\
  drained reqs (trace c) /\
  forall f req, reqs !! f = Some req ->
    exists es, attempts f (trace c) = map Some es ++ [None] /\ (length es < 10)%nat.
Proof.
  intros Hnew Hrun Hret reqs.
  pose proof (commit_run_pool_log cgt h srv sched c Hrun) as Hlog.
  pose proof (commit_run_staged cgt h new Hnew srv sched c Hrun) as Hst.
  destruct (commit_run_Inv cgt h new Hnew srv sched c Hrun) as (_ & [Hex _] & _).
  destruct (staged_returned cgt h new Hnew c _ _ _ _ Hst Hret)
    as [(e & Habs & _) | (_ & Hreqs & Hrec)]; [discriminate|].
  fold reqs in Hreqs.
  assert (Hlen : length reqs = (length (phaseA_requests cgt h new)
                                + length (phaseB_requests cgt h new))%nat)
    by apply length_app.
  split; [exact Hreqs|]. split.
  - intros f req Hf. destruct (Hrec f) as [Hr Hd].
    { apply lookup_lt_Some in Hf. lia. }
    split; [|split; [exact Hd | exact Hr]].
    apply Hex. now rewrite <- lookup_map, Hreqs.
  - intros f req Hf. destruct (Hrec f) as [_ Hd].
    { apply lookup_lt_Some in Hf. lia. }
    eapply done_nil_accepted; eauto.
Qed.

(** X11.  The error that [Commit] returns is one of two.  Either the
    upload of the schema was refused, and then it is the error of line
    76 around the error of the server, and nothing was submitted.  Or it
    is the error of the closure of one chunk, which wraps the error of
    the retry helper: that chunk was sent ten times and refused ten
    times, the futures before its own had all delivered [nil], and none
    of the ten errors of the server is part of the error returned. *)
Theorem commit_error_origin
    (cgt : Transaction) (h : gmap loc Graph) (new : Graph) (srv : Server)
    (sched : list Choice) (c : Config)
    (g : option loc) (err : Error) (cgt' : Transaction) (h' : gmap loc Graph) :
  h !! newGraph cgt = Some new ->
  commit_run cgt h srv sched = Some c ->
  main c = Ret g (Some err) cgt' h' ->
  (exists e, err = schema_error e /\
             EvUpdateSchema (ExtractSchema new) (Some e) ∈ trace c /\ pool c = []) \/
  (exists (f : Future) (req : Request) (es : list APIError),
     (phaseA_requests cgt h new ++ phaseB_requests cgt h new) !! f = Some req /\
     EvRecv f (Some err) ∈ trace c /\
     err = chunk_error req TooManyRetries /\
     attempts f (trace c) = map Some es /\ length es = 10%nat /\
     received f (trace c)).
Proof.
  intros Hnew Hrun Hret.
  pose proof (commit_run_pool_log cgt h srv sched c Hrun) as Hlog.
  pose proof (commit_run_staged cgt h new Hnew srv sched c Hrun) as Hst.
  destruct (staged_returned cgt h new Hnew c _ _ _ _ Hst Hret)
    as [(e & [= <-] & Hfail) | (Habs & _)]; [|discriminate].
  destruct Hfail as [(Hreqs & e & -> & Hin) | (f & Hin & Hrec & Hwhere)].
  - left. exists e. split; [reflexivity|]. split; [exact Hin|].
    now apply map_eq_nil in Hreqs.
  - right. pose proof Hlog as (_ & _ & Hfut).
    destruct (done_error_refused _ _ _ _ Hlog (Hfut _ _ Hin)) as (j & es & Hj & He & Ha & Hlen).
    exists f, (job_req j), es.
    assert (Hreq : map job_req (pool c) !! f = Some (job_req j))
      by (now rewrite lookup_map, Hj).
    split; [|auto].
    destruct Hwhere as [[_ Hreqs] | [_ Hreqs]]; rewrite Hreqs in Hreq.
    + now apply lookup_app_l_Some.
    + exact Hreq.
Qed.

(** X12.  Once a job of phase A has returned an error, no request of
    phase B is submitted: in no run does the history hold both the
    failure of a chunk of phase A and the submission of a chunk of
    phase B. *)
Theorem commit_phaseA_failure_blocks_phaseB
    (cgt : Transaction) (h : gmap loc Graph) (new : Graph) (srv : Server)
    (sched : list Choice) (c : Config) (f : Future) (e : Error) :
  h !! newGraph cgt = Some new ->
  commit_run cgt h srv sched = Some c ->
  (f < length (phaseA_requests cgt h new))%nat ->
  EvDone f (Some e) ∈ trace c ->
  forall f' req', EvExec f' req' ∈ trace c -> in_phaseB req' = false.
Proof.
  intros Hnew Hrun Hf Hfail f' req' Hin.
  pose proof (commit_run_pool_log cgt h srv sched c Hrun) as Hlog.
  destruct (commit_run_Inv cgt h new Hnew srv sched c Hrun) as (_ & _ & Hbar).
  destruct (in_phaseB req') eqn:HB; [exfalso | reflexivity].
  apply list_elem_of_split in Hin as (later & earlier & Htr).
  pose proof (barrier_split _ _ _ _ _ _ Hbar Htr HB) as Hdr.
  destruct (lookup_lt_is_Some_2 (phaseA_requests cgt h new) f Hf) as [req Hreq].
  destruct (Hdr f req Hreq) as (_ & Hd & _).
  assert (Hd' : EvDone f None ∈ trace c).
  { rewrite Htr. apply elem_of_app. right. apply elem_of_cons. now right. }
  discriminate (done_once _ _ _ _ _ Hlog Hfail Hd').
Qed.

(** X13.  In every run, the chunk of a job is sent to the server at most
    ten times, and never again once the server has accepted it.  The job
    returns [nil] exactly when one of its requests was accepted; when it
    returns an error, ten requests were made and all were refused. *)
Theorem commit_job_requests
    (cgt : Transaction) (h : gmap loc Graph) (srv : Server)
    (sched : list Choice) (c : Config) (f : Future) :
  commit_run cgt h srv sched = Some c ->
  let answers := attempts f (trace c) in
  (length answers <= 10)%nat /\
  (forall k, answers !! k = Some None -> S k = length answers) /\
  (EvDone f None ∈ trace c <-> None ∈ answers) /\
  (forall e, EvDone f (Some e) ∈ trace c -> length answers = 10%nat /\ None ∉ answers).
Proof.
  intros Hrun answers.
  pose proof (commit_run_pool_log cgt h srv sched c Hrun) as Hlog.
  assert (Hcases : (exists es, answers = map Some es /\ (length es <= 10)%nat /\
                               forall err, EvDone f (Some err) ∈ trace c -> length es = 10%nat) /\
                   EvDone f None ∉ trace c \/
                   (exists es, answers = map Some es ++ [None] /\ (length es < 10)%nat) /\
                   EvDone f None ∈ trace c /\ forall err, EvDone f (Some err) ∉ trace c).
  { pose proof Hlog as (Hjobs & Hnone & _). subst answers.
    destruct (pool c !! f) as [j|] eqn:Hj.
    - specialize (Hjobs f j Hj). unfold job_log in Hjobs.
      destruct (job_status j) as [|trials|[e|]].
      + destruct Hjobs as [Ha Hd]. left. split; [|apply Hd].
        exists []. split; [exact Ha|]. split; [cbn; lia|]. intros err Hin. destruct (Hd _ Hin).
      + destruct Hjobs as (Ht & Hd & es & Ha & Hlen). left. split; [|apply Hd].
        exists es. split; [exact Ha|]. split; [lia|]. intros err Hin. destruct (Hd _ Hin).
      + destruct Hjobs as (_ & _ & Hd & es & Ha & Hlen). left. split.
        * exists es. split; [exact Ha|]. split; [lia|]. auto.
        * intros Hin. discriminate (Hd _ Hin).
      + destruct Hjobs as (Hin & Hd & Ha). right. split; [exact Ha|]. split; [exact Hin|].
        intros err Hin'. discriminate (Hd _ Hin').
    - apply lookup_ge_None in Hj. destruct (Hnone f Hj) as [Ha Hd]. left. split; [|apply Hd].
      exists []. split; [exact Ha|]. split; [cbn; lia|]. intros err Hin. destruct (Hd _ Hin). }
  destruct Hcases as [((es & Ha & Hlen & Hten) & Hnd) | ((es & Ha & Hlen) & Hd & Hne)];
    rewrite Ha.
  - split; [now rewrite length_map|]. split; [|split].
    + intros k Hk. apply list_elem_of_lookup_2 in Hk. destruct (not_elem_of_map_Some _ Hk).
    + split; [intros Hin; destruct (Hnd Hin) | intros Hin; destruct (not_elem_of_map_Some _ Hin)].
    + intros e Hin. rewrite length_map. split; [eauto | apply not_elem_of_map_Some].
  - split; [rewrite length_app, length_map; cbn; lia|]. split; [|split].
    + intros k Hk. rewrite length_app, length_map. cbn.
      apply lookup_app_Some in Hk as [Hk | [Hge Hk]].
      * apply list_elem_of_lookup_2 in Hk. destruct (not_elem_of_map_Some _ Hk).
      * rewrite length_map in Hge, Hk. apply list_lookup_singleton_Some in Hk as [Hk _]. lia.
    + split; [intros _ | intros _; exact Hd].
      apply elem_of_app. right. apply elem_of_cons. now left.
    + intros e Hin. destruct (Hne _ Hin).
Qed.

End TxnOutcomes.

Section TxnEdge.
Import Retry Txn TxnLog.
Context `{FM : FloatMath} `{EV : Env}.

(** *** Nothing to upload *)

Lemma upload_nothing (cgt : Transaction) (h : gmap loc Graph) (new : Graph) :
  phaseA_requests cgt h new = [] -> phaseB_requests cgt h new = [] ->
  upload cgt h new =
    Println "Finished uploading the schema of the graph..." (
    Println "Start uploading the graph..." (
    Emit (OutProgress (PbNew (bulk_total cgt h new))) (
    Emit (OutProgress PbStart) (
    Emit (OutNewWorkerPool (parallelization cgt)) (
    finish cgt h))))).
Proof.
  unfold phaseA_requests, phaseB_requests. intros HA HB.
  apply app_eq_nil in HA as [H1 H2]. apply app_eq_nil in HB as [H3 H4].
  apply map_eq_nil in H1, H2, H3, H4.
  unfold upload.
  change (ChunkSlice (GetRelationRemovals (bulk_of cgt h new)) (chunkSize cgt))
    with (relationRemovalsChunks cgt h new).
  change (ChunkSlice (GetRelationUpserts (bulk_of cgt h new)) (chunkSize cgt))
    with (relationInsertionChunks cgt h new).
  change (ChunkSlice (GetAssetRemovals (bulk_of cgt h new)) (chunkSize cgt))
    with (assetRemovalsChunks cgt h new).
  change (ChunkSlice (GetAssetUpserts (bulk_of cgt h new)) (chunkSize cgt))
    with (assetInsertionChunks cgt h new).
  cbn zeta. rewrite H1, H2, H3, H4. reflexivity.
Qed.

(** X14.  When the diff gives no chunk at all, [Commit] still uploads
    the schema, creates the progress bar and the worker pool, and then
    returns the graph at once: a single statement of the model leads to
    the end, no job is submitted, the only request the server receives
    is the schema, and [newGraph] is replaced as on any success. *)
Theorem commit_nothing_to_upload
    (cgt : Transaction) (h : gmap loc Graph) (new : Graph) (srv srv' : Server) :
  h !! newGraph cgt = Some new ->
  phaseA_requests cgt h new = [] -> phaseB_requests cgt h new = [] ->
  UpdateSchema (ExtractSchema new) srv = (None, srv') ->
  let finished :=
    {| main := Ret (Some (newGraph cgt)) None (committed_txn cgt h) (committed_heap h);
       pool := []; server := srv';
       trace := [EvOut (OutProgress PbFinish); EvOut OutPoolClose;
                 EvOut (OutPrintln "Finished uploading the graph...");
                 EvOut (OutNewWorkerPool (parallelization cgt));
                 EvOut (OutProgress PbStart);
                 EvOut (OutProgress (PbNew (bulk_total cgt h new)));
                 EvOut (OutPrintln "Start uploading the graph...");
                 EvOut (OutPrintln "Finished uploading the schema of the graph...");
                 EvUpdateSchema (ExtractSchema new) None;
                 EvOut (OutPrintln "Start uploading the schema of the graph...")] |} in
  commit_run cgt h srv [SMain] = Some finished /\
  forall sched c, commit_run cgt h srv sched = Some c ->
    (sched = [] /\ c = initial cgt h srv) \/ (sched = [SMain] /\ c = finished).
Proof.
  intros Hnew HA HB Hup finished.
  assert (Hstep : step (parallelization cgt) SMain (initial cgt h srv) = Some finished).
  { rewrite (initial_main _ _ _ _ Hnew). cbn [step]. unfold step_main. cbn [main server].
    rewrite Hup. rewrite (upload_nothing _ _ _ HA HB). reflexivity. }
  split.
  { unfold commit_run. cbn [run]. now rewrite Hstep. }
  intros sched c Hrun. unfold commit_run in Hrun.
  destruct sched as [|ch sched]; cbn [run] in Hrun.
  + left. injection Hrun as <-. auto.
  + right. destruct ch as [|f|f].
    * rewrite Hstep in Hrun.
      destruct (run_returned _ _ finished _ _ _ _ _ eq_refl eq_refl Hrun) as [-> ->]. auto.
    * rewrite (initial_main _ _ _ _ Hnew) in Hrun. discriminate.
    * rewrite (initial_main _ _ _ _ Hnew) in Hrun. discriminate.
Qed.

(** *** The progress bar *)

Lemma advanced_app (evs tr : list Event) : advanced (evs ++ tr) = advanced evs + advanced tr.
Proof.
  induction evs as [|ev evs IH]; [reflexivity|].
  destruct ev as [[s|[total| |n|]|size|]| | | | | |]; cbn [app advanced]; rewrite IH; lia.
Qed.

Lemma advanced_rev (evs : list Event) : advanced (rev evs) = advanced evs.
Proof.
  induction evs as [|ev evs IH]; [reflexivity|].
  cbn [rev]. rewrite advanced_app, IH. change (ev :: evs) with ([ev] ++ evs).
  rewrite (advanced_app [ev]). lia.
Qed.

Lemma adds_nothing_silent (p : prog) :
  adds_nothing p -> adds_nothing (silent p).2 /\ advanced (silent p).1 = 0.
Proof.
  induction p as [| | o k IH | | |]; cbn [silent]; try (intros Hp; split; [exact Hp | reflexivity]).
  intros [Ho Hk]. destruct (IH Hk) as [IH1 IH2]. destruct (silent k) as [evs p']. cbn in *.
  split; [exact IH1|]. destruct o as [s|[total| |n|]|size|]; try exact IH2.
  destruct (Ho n eq_refl).
Qed.

Lemma adds_nothing_range_exec {T : Type} (mk : list T -> Request) (chunks : list (list T))
    (futures : list Future) (k : list Future -> prog) :
  (forall futures, adds_nothing (k futures)) -> adds_nothing (range_exec mk chunks futures k).
Proof.
  intros Hk. revert futures. induction chunks as [|ch chunks IH]; intros futures; cbn; auto.
Qed.

Lemma adds_nothing_range_recv (cgt : Transaction) (h : gmap loc Graph)
    (futures : list Future) (k : prog) :
  adds_nothing k -> adds_nothing (range_recv cgt h futures k).
Proof.
  intros Hk. induction futures as [|f futures IH]; [exact Hk|].
  cbn. intros [e|]; [|exact IH]. cbn. repeat split; discriminate.
Qed.

Lemma adds_nothing_finish (cgt : Transaction) (h : gmap loc Graph) : adds_nothing (finish cgt h).
Proof. cbn. repeat split; discriminate. Qed.

Lemma adds_nothing_Commit (cgt : Transaction) (h : gmap loc Graph) : adds_nothing (Commit cgt h).
Proof.
  unfold Commit. destruct (h !! newGraph cgt) as [new|]; [|exact I].
  cbn. split; [discriminate|]. intros [e|]; [exact I|].
  unfold upload, Println. cbn [adds_nothing].
  repeat (split; [discriminate|]).
  unfold phaseA. apply adds_nothing_range_exec. intros futs1.
  apply adds_nothing_range_exec. intros futs2.
  apply adds_nothing_range_recv.
  unfold phaseB. apply adds_nothing_range_exec. intros futs3.
  apply adds_nothing_range_exec. intros futs4.
  apply adds_nothing_range_recv, adds_nothing_finish.
Qed.

Lemma accepted_items_app (l1 l2 : list Job) :
  accepted_items (l1 ++ l2) = accepted_items l1 + accepted_items l2.
Proof. induction l1 as [|j l1 IH]; cbn [app accepted_items]; [reflexivity | rewrite IH; lia]. Qed.

Lemma accepted_items_insert (jobs : list Job) (f : Future) (j j' : Job) :
  jobs !! f = Some j ->
  accepted_items (<[f := j']> jobs) = accepted_items jobs - accepted_items [j] + accepted_items [j'].
Proof.
  revert f. induction jobs as [|x jobs IH]; intros [|f] Hj; try discriminate.
  - injection Hj as ->. cbn. lia.
  - change (<[S f := j']> (x :: jobs)) with (x :: <[f := j']> jobs).
    cbn [accepted_items]. cbn in Hj. rewrite (IH f Hj). cbn. lia.
Qed.

(** The bar and the thread of [Commit] in a run. *)
Lemma progress_continue (c : Config) (ev : Event) (p : prog) (jobs : list Job) (srv : Server) :
  adds_nothing p -> advanced [ev] = 0 ->
  advanced (trace c) = accepted_items jobs ->
  adds_nothing (main (continue c [ev] p jobs srv)) /\
  advanced (trace (continue c [ev] p jobs srv)) = accepted_items (pool (continue c [ev] p jobs srv)).
Proof.
  intros Hp Hev Hadv. rewrite continue_spec. cbn [main pool trace].
  destruct (adds_nothing_silent p Hp) as [Hn Hs]. split; [exact Hn|].
  rewrite !advanced_app, !advanced_rev, Hs, Hev. lia.
Qed.

Lemma step_progress (size : Z) (ch : Choice) (c c' : Config) :
  adds_nothing (main c) -> advanced (trace c) = accepted_items (pool c) ->
  step size ch c = Some c' ->
  adds_nothing (main c') /\ advanced (trace c') = accepted_items (pool c').
Proof.
  intros Hp Hadv Hstep. destruct ch as [|f|f]; cbn in Hstep.
  - unfold step_main in Hstep.
    destruct (main c) as [| |o k|sg k|req k|f k]; try discriminate.
    + injection Hstep as <-. destruct Hp as [Ho Hk].
      apply progress_continue; [exact Hk | | exact Hadv].
      destruct o as [s|[total| |n|]|size'|]; try reflexivity. destruct (Ho n eq_refl).
    + destruct (UpdateSchema sg (server c)) as [err srv]. injection Hstep as <-.
      apply progress_continue; [apply Hp | reflexivity | exact Hadv].
    + injection Hstep as <-.
      apply progress_continue; [apply Hp | reflexivity |].
      rewrite accepted_items_app. cbn. lia.
    + destruct (pool c !! f) as [[req [| |err]]|] eqn:Hj; try discriminate.
      injection Hstep as <-. apply progress_continue; [apply Hp | reflexivity | exact Hadv].
  - unfold step_start in Hstep.
    destruct (pool c !! f) as [[req [| |]]|] eqn:Hj; try discriminate.
    destruct (_ <? size); [|discriminate]. injection Hstep as <-. cbn [main pool trace].
    split; [exact Hp|]. rewrite (accepted_items_insert _ _ _ _ Hj). cbn. lia.
  - unfold step_work in Hstep.
    destruct (pool c !! f) as [[req [|trials|]]|] eqn:Hj; try discriminate.
    destruct (iteration (perform req) 10 trials (server c)) as [[it srv] evs].
    assert (Hret : advanced (rev (map (EvRetry f) evs)) = 0).
    { rewrite advanced_rev. clear. induction evs as [|x evs IH]; [reflexivity | exact IH]. }
    destruct it as [trials'|[err|]]; injection Hstep as <-;
      cbn [main pool trace app advanced];
      (split; [exact Hp|]); rewrite (accepted_items_insert _ _ _ _ Hj), advanced_app, Hret;
      cbn; lia.
Qed.

Lemma run_progress (size : Z) (sched : list Choice) (c c' : Config) :
  adds_nothing (main c) -> advanced (trace c) = accepted_items (pool c) ->
  run size sched c = Some c' ->
  adds_nothing (main c') /\ advanced (trace c') = accepted_items (pool c').
Proof.
  revert c. induction sched as [|ch sched IH]; intros c Hp Hadv Hrun; cbn in Hrun.
  - injection Hrun as <-. auto.
  - destruct (step size ch c) as [c1|] eqn:Hstep; [|discriminate].
    destruct (step_progress _ _ _ _ Hp Hadv Hstep) as [Hp1 Hadv1]. eauto.
Qed.

Lemma commit_run_progress (cgt : Transaction) (h : gmap loc Graph) (srv : Server)
    (sched : list Choice) (c : Config) :
  commit_run cgt h srv sched = Some c -> advanced (trace c) = accepted_items (pool c).
Proof.
  intros Hrun.
  refine (proj2 (run_progress _ _ _ _ _ _ Hrun)); rewrite initial_spec; cbn [main pool trace].
  - apply adds_nothing_silent, adds_nothing_Commit.
  - rewrite advanced_rev. apply adds_nothing_silent, adds_nothing_Commit.
Qed.

Lemma accepted_items_all (jobs : list Job) :
  Forall (fun j => job_status j = Done None) jobs ->
  accepted_items jobs = items (map job_req jobs).
Proof.
  induction 1 as [|j jobs Hj _ IH]; [reflexivity|].
  cbn [accepted_items map]. rewrite Hj, IH. reflexivity.
Qed.

Lemma items_app (l1 l2 : list Request) : items (l1 ++ l2) = items l1 + items l2.
Proof.
  unfold items. induction l1 as [|r l1 IH]; cbn [app map fold_right]; [reflexivity | rewrite IH; lia].
Qed.

Lemma items_chunks {T : Type} (mk : list T -> Request) (chunks : list (list T)) :
  (forall ch, chunk_len (mk ch) = Z.of_nat (length ch)) ->
  items (map mk chunks) = Z.of_nat (length (concat chunks)).
Proof.
  intros Hmk. unfold items. induction chunks as [|ch chunks IH]; [reflexivity|].
  cbn [map fold_right concat]. rewrite IH, Hmk, length_app. lia.
Qed.

(** X15.  In every run the progress bar has been advanced by the number
    of items of the chunks whose job has returned [nil], and by nothing
    else.  So when [Commit] returns without an error the bar stands at
    the number of items of all the chunks; when [ChunkSlice] has cut the
    four lists into consecutive pieces, that is the total the bar was
    created with. *)
Theorem commit_progress_bar
    (cgt : Transaction) (h : gmap loc Graph) (new : Graph) (srv : Server)
    (sched : list Choice) (c : Config) :
  h !! newGraph cgt = Some new ->
  commit_run cgt h srv sched = Some c ->
  advanced (trace c) = accepted_items (pool c) /\
  (forall g cgt' h', main c = Ret g None cgt' h' ->
     advanced (trace c) = items (phaseA_requests cgt h new ++ phaseB_requests cgt h new) /\
     (chunks_partition cgt h new -> advanced (trace c) = bulk_total cgt h new)).
Proof.
  intros Hnew Hrun.
  pose proof (commit_run_progress cgt h srv sched c Hrun) as Hadv.
  split; [exact Hadv|]. intros g cgt' h' Hret.
  pose proof (commit_run_pool_log cgt h srv sched c Hrun) as Hlog.
  pose proof (commit_run_staged cgt h new Hnew srv sched c Hrun) as Hst.
  destruct (staged_returned cgt h new Hnew c _ _ _ _ Hst Hret)
    as [(e & Habs & _) | (_ & Hreqs & Hrec)]; [discriminate|].
  assert (Hall : advanced (trace c)
                 = items (phaseA_requests cgt h new ++ phaseB_requests cgt h new)).
  { rewrite Hadv, <- Hreqs. apply accepted_items_all.
    apply Forall_forall. intros j Hj. apply list_elem_of_lookup in Hj as [f Hj].
    destruct (Hrec f) as [_ Hd].
    { apply lookup_lt_Some in Hj. rewrite <- length_app, <- Hreqs, length_map. exact Hj. }
    destruct (done_in_pool _ _ _ _ Hlog Hd) as (j' & Hj' & Hst'). congruence. }
  split; [exact Hall|]. intros (H1 & H2 & H3 & H4). rewrite Hall.
  unfold phaseA_requests, phaseB_requests, bulk_total. rewrite !items_app.
  rewrite !items_chunks by reflexivity. rewrite H1, H2, H3, H4. cbn zeta. lia.
Qed.

End TxnEdge.

Section TxnMoreWitnesses.
Import Retry Txn TxnLog Demo DemoMore.

Lemma commit_success_all_accepted_witness :
  exists c,
    commit_run (H:=exact_Pow) (H0:=accepting_env) demo_txn demo_heap 0%nat
      (whole_schedule [0; 1; 2]%nat [3; 4]%nat) = Some c /\
    map job_req (pool c)
      = phaseA_requests (H:=accepting_env) demo_txn demo_heap demo_new
          ++ phaseB_requests (H:=accepting_env) demo_txn demo_heap demo_new /\
    drained (phaseA_requests (H:=accepting_env) demo_txn demo_heap demo_new
               ++ phaseB_requests (H:=accepting_env) demo_txn demo_heap demo_new) (trace c).
Proof.
  pose proof demo_success_run_eq as Hrun. unfold demo_success_run in Hrun.
  match type of Hrun with
  | _ = Some ?c =>
      destruct (commit_success_all_accepted (FM:=exact_Pow) (EV:=accepting_env)
                  demo_txn demo_heap demo_new 0%nat _ c _ _ _ eq_refl Hrun eq_refl)
        as (Hreqs & Hdr & _)
  end.
  eexists. split; [exact Hrun|]. split; [exact Hreqs | exact Hdr].
Defined.

Lemma commit_error_origin_witness :
  exists c f req es,
    commit_run (H:=exact_Pow) (H0:=scripted_env) demo_txn demo_heap demo_script
      demo_failing_schedule = Some c /\
    (phaseA_requests (H:=scripted_env) demo_txn demo_heap demo_new
       ++ phaseB_requests (H:=scripted_env) demo_txn demo_heap demo_new) !! f = Some req /\
    EvRecv f (Some (chunk_error req TooManyRetries)) ∈ trace c /\
    attempts f (trace c) = map Some es /\ length es = 10%nat.
Proof.
  pose proof demo_failed_run_eq as Hrun. unfold demo_failed_run in Hrun.
  match type of Hrun with
  | _ = Some ?c =>
      destruct (commit_error_origin (FM:=exact_Pow) (EV:=scripted_env)
                  demo_txn demo_heap demo_new demo_script _ c _ _ _ _ eq_refl Hrun eq_refl)
        as [(e & Habs & _) | (f & req & es & Hreq & Hin & He & Ha & Hlen & _)];
        [discriminate Habs|]
  end.
  eexists _, f, req, es. split; [exact Hrun|]. split; [exact Hreq|].
  split; [|split; [exact Ha | exact Hlen]]. rewrite <- He. exact Hin.
Defined.

Lemma commit_phaseA_failure_blocks_phaseB_witness :
  exists c,
    commit_run (H:=exact_Pow) (H0:=scripted_env) demo_txn demo_heap demo_script
      demo_failing_schedule = Some c /\
    forall f' req', EvExec f' req' ∈ trace c -> in_phaseB req' = false.
Proof.
  pose proof demo_failed_run_eq as Hrun. unfold demo_failed_run in Hrun.
  match type of Hrun with
  | _ = Some ?c =>
      exists c; split; [exact Hrun|];
      apply (commit_phaseA_failure_blocks_phaseB (FM:=exact_Pow) (EV:=scripted_env)
               demo_txn demo_heap demo_new demo_script _ c 0%nat
               (chunk_error (H:=scripted_env) (ReqDeleteRelations (H:=scripted_env) [("a", "b")])
                  TooManyRetries) eq_refl Hrun)
  end.
  - vm_compute. lia.
  - cbn [trace].
    repeat (first [apply list_elem_of_here | apply list_elem_of_further]).
Defined.

Lemma commit_job_requests_witness :
  exists c,
    commit_run (H:=exact_Pow) (H0:=scripted_env) demo_txn demo_heap demo_script
      demo_failing_schedule = Some c /\
    (length (attempts 0%nat (trace c)) <= 10)%nat.
Proof.
  pose proof demo_failed_run_eq as Hrun. unfold demo_failed_run in Hrun.
  match type of Hrun with
  | _ = Some ?c =>
      exists c; split; [exact Hrun|];
      exact (proj1 (commit_job_requests (FM:=exact_Pow) (EV:=scripted_env)
                      demo_txn demo_heap demo_script _ c 0%nat Hrun))
  end.
Defined.

Lemma commit_nothing_to_upload_witness :
  exists c,
    commit_run (H:=exact_Pow) (H0:=accepting_env) demo_txn same_heap 0%nat [SMain] = Some c /\
    pool c = [] /\ server c = 1%nat /\
    main c = Ret (H:=accepting_env) (Some 2%positive) None
               (committed_txn (H:=accepting_env) demo_txn same_heap)
               (committed_heap (H:=accepting_env) same_heap).
Proof.
  destruct (commit_nothing_to_upload (FM:=exact_Pow) (EV:=accepting_env)
              demo_txn same_heap demo_current 0%nat 1%nat eq_refl eq_refl eq_refl eq_refl)
    as [Hrun _].
  eexists. split; [exact Hrun|]. repeat split.
Defined.

Lemma commit_progress_bar_witness :
  exists c,
    commit_run (H:=exact_Pow) (H0:=accepting_env) demo_txn demo_heap 0%nat
      (whole_schedule [0; 1; 2]%nat [3; 4]%nat) = Some c /\
    advanced (trace c) = 5.
Proof.
  pose proof demo_success_run_eq as Hrun. unfold demo_success_run in Hrun.
  match type of Hrun with
  | _ = Some ?c =>
      destruct (commit_progress_bar (FM:=exact_Pow) (EV:=accepting_env)
                  demo_txn demo_heap demo_new 0%nat _ c eq_refl Hrun) as [_ Hsucc];
      destruct (Hsucc _ _ _ eq_refl) as [_ Htotal]
  end.
  eexists. split; [exact Hrun|]. rewrite Htotal; [reflexivity|].
  repeat split.
Defined.

End TxnMoreWitnesses.
